(** * A 2D platformer's collision core (plat.py, tilemap.py), embedded in Rocq

    The Python program keeps positions and velocities in [float]s (IEEE 754
    binary64).  They are modelled by Rocq's primitive binary64 floats, whose
    [+], [-], [*], [/] and [sqrt] round exactly as Python's do.  Python's
    [int(f)] and [round(f)] go through the exact rational value of the float;
    both raise on an infinity or a NaN, which is [None] here.  Python [int]s
    are [Z]; the quotient [/] of two of them is the nearest float. *)

From Stdlib Require Import ZArith QArith Qround Qabs Qpower Floats.
From Stdlib Require Import Bool List FinFun Lia Lqa.
From Stdlib Require Import Ascii String ListSet.
Import ListNotations.

(** ** Python's built-ins used by the program *)

Module Py.

(** Exceptions are [None]; [x <- c ;; k] propagates them. *)
Definition bind {A B} (c : option A) (k : A -> option B) : option B :=
  match c with
  | Some a => k a
  | None => None
  end.

Declare Scope py_scope.
Delimit Scope py_scope with py.
Notation "x <- c ;; k" := (bind c (fun x => k))
  (at level 61, c at next level, right associativity) : py_scope.

(** [a or b] on two calls that may raise: [b] is evaluated only when [a]
    returned [False]. *)
Definition or_else (a b : option bool) : option bool :=
  match a with
  | Some true => Some true
  | Some false => b
  | None => None
  end.

(** The exact value of a float; [None] for infinities and NaN. *)
Definition SF2Q (x : spec_float) : option Q :=
  match x with
  | S754_zero _ => Some 0%Q
  | S754_finite s m e => Some (inject_Z (cond_Zopp s (Zpos m)) * Qpower 2 e)%Q
  | S754_infinity _ => None
  | S754_nan => None
  end.

Definition value (f : float) : option Q := SF2Q (Prim2SF f).

(** [round(x)] of Python 3 for a float [x] and no [ndigits]: the nearest
    integer, a tie going to the even neighbour. *)
Definition round_half_even (q : Q) : Z :=
  let f := Qfloor q in
  match Qcompare (q - inject_Z f) (1 # 2) with
  | Lt => f
  | Gt => (f + 1)%Z
  | Eq => if Z.even f then f else (f + 1)%Z
  end.

(** [int(x)] for a float [x]: truncation toward zero. *)
Definition truncate (q : Q) : Z := Z.quot (Qnum q) (Zpos (Qden q)).

Definition round (f : float) : option Z := option_map round_half_even (value f).
Definition int (f : float) : option Z := option_map truncate (value f).

(** [float(n)] for an int [n]: the nearest float; [OverflowError] when that
    would be infinite. *)
Definition float_of_int (n : Z) : option float :=
  match binary_normalize prec emax n 0 false with
  | S754_infinity _ => None
  | sf => Some (SF2Prim sf)
  end.

(** [a / b] on floats raises [ZeroDivisionError] on a zero divisor. *)
Definition truediv (a b : float) : option float :=
  if PrimFloat.eqb b 0 then None else Some (a / b)%float.

(** [a / b] on two ints: the quotient rounded to the nearest float, a tie
    going to the even one; [ZeroDivisionError] on a zero divisor,
    [OverflowError] when the rounded quotient is too large for a float. *)
Definition int_truediv (a b : Z) : option float :=
  if (b =? 0)%Z then None
  else
    let sign := xorb (a <? 0)%Z (b <? 0)%Z in
    if (a =? 0)%Z then Some (SF2Prim (S754_zero sign))
    else
      let '(q, e, l) :=
        SFdiv_core_binary prec emax (Z.abs a) 0 (Z.abs b) 0 in
      match binary_round_aux prec emax sign q e l with
      | S754_infinity _ => None
      | sf => Some (SF2Prim sf)
      end.

(** [max(a, b)] and [min(a, b)] keep the first argument unless the second
    is strictly larger (smaller). *)
Definition max (a b : float) : float := if PrimFloat.ltb a b then b else a.
Definition min (a b : float) : float := if PrimFloat.ltb b a then b else a.

(** [l[i]] for a list: a negative index counts from the end, anything out
    of range raises [IndexError]. *)
Definition getitem {A} (l : list A) (i : Z) : option A :=
  let n := Z.of_nat (List.length l) in
  if ((0 <=? i) && (i <? n))%Z then nth_error l (Z.to_nat i)
  else if ((- n <=? i) && (i <? 0))%Z then nth_error l (Z.to_nat (n + i))
  else None.

(** [range(a, b)] *)
Definition range (a b : Z) : list Z :=
  List.map (fun i => (a + Z.of_nat i)%Z) (seq 0 (Z.to_nat (b - a))).

(** [a % b] on two ints: the remainder, with the sign of [b];
    [ZeroDivisionError] on a zero divisor. *)
Definition int_mod (a b : Z) : option Z :=
  if (b =? 0)%Z then None else Some (a mod b)%Z.

(** [enumerate(l, start)] *)
Fixpoint enumerate {A} (start : Z) (l : list A) : list (Z * A) :=
  match l with
  | [] => []
  | a :: rest => (start, a) :: enumerate (start + 1) rest
  end.

End Py.

Import Py.
Local Open Scope py_scope.

(** ** plat.py: vectors *)

Record Point2d := mkPoint2d { x : float; y : float }.
Definition Vector2d := Point2d.

Definition Point2d_sub (a b : Point2d) : Point2d :=
  mkPoint2d (x a - x b) (y a - y b).
Definition Point2d_add (a b : Point2d) : Point2d :=
  mkPoint2d (x a + x b) (y a + y b).
Definition Point2d_mul (a : Point2d) (scalar : float) : Point2d :=
  mkPoint2d (x a * scalar) (y a * scalar).
Definition Point2d_len (a : Point2d) : float :=
  PrimFloat.sqrt (x a * x a + y a * y a).

(** ** plat.py: constants and enumerations *)

Inductive Input := NONE | LEFT | RIGHT | JUMP | RESTART | QUIT.

Inductive Collision := X | Y | CORNER.

Definition Collision_eq_dec (a b : Collision) : {a = b} + {a <> b}.
Proof. decide equality. Defined.

Definition TILES_PER_ROW : Z := 16.
(** [TILE_SIZE = Point2d(64, 64)] keeps the two ints it is given
    ([TILE_WIDTH] and [TILE_HEIGHT] in tilemap.py). *)
Definition TILE_WIDTH : Z := 64.
Definition TILE_HEIGHT : Z := 64.
Definition PLAYER_SIZE : Point2d := mkPoint2d 64 64.

Definition AIR : Z := 0.
Definition START : Z := 78.
Definition FINISH : Z := 110.

(** ** plat.py / tilemap.py: the tile map and its queries *)

Record Map := mkMap { width : Z; height : Z; tiles : list Z }.

(** [int(x / TILE_SIZE.x)] for an int [x]: the division is that of two
    ints and gives a float, which [int] truncates toward zero. *)
Definition tile_cell (c size : Z) : option Z :=
  q <- int_truediv c size ;; int q.

Definition get_tile (m : Map) (px py : Z) : option Z :=
  cx <- tile_cell px TILE_WIDTH ;;
  cy <- tile_cell py TILE_HEIGHT ;;
  let nx := Z.min (Z.max cx 0) (width m - 1) in
  let ny := Z.min (Z.max cy 0) (height m - 1) in
  let pos := (ny * width m + nx)%Z in
  getitem (tiles m) pos.

Definition passable (t : Z) : bool :=
  ((t =? AIR) || (t =? START) || (t =? FINISH))%Z.

Definition is_tile_solid (m : Map) (px py : Z) : option bool :=
  t <- get_tile m px py ;; Some (negb (passable t)).

Definition is_solid (m : Map) (point : Point2d) : option bool :=
  rx <- round (x point) ;;
  ry <- round (y point) ;;
  is_tile_solid m rx ry.

Definition on_ground (m : Map) (pos : Point2d) (size : Vector2d) : option bool :=
  let size := Point2d_mul size 0.5 in
  or_else (is_solid m (mkPoint2d (x pos - x size) (y pos + y size + 1)))
          (is_solid m (mkPoint2d (x pos + x size) (y pos + y size + 1))).

(** The four points [test_box] looks at, in the order it looks at them. *)
Definition box_corners (pos : Point2d) (size : Vector2d) : list Point2d :=
  let size := Point2d_mul size 0.5 in
  [ mkPoint2d (x pos - x size) (y pos - y size);
    mkPoint2d (x pos + x size) (y pos - y size);
    mkPoint2d (x pos - x size) (y pos + y size);
    mkPoint2d (x pos + x size) (y pos + y size) ].

Definition test_box (m : Map) (pos : Point2d) (size : Vector2d) : option bool :=
  let size := Point2d_mul size 0.5 in
  or_else (is_solid m (mkPoint2d (x pos - x size) (y pos - y size)))
  (or_else (is_solid m (mkPoint2d (x pos + x size) (y pos - y size)))
  (or_else (is_solid m (mkPoint2d (x pos - x size) (y pos + y size)))
           (is_solid m (mkPoint2d (x pos + x size) (y pos + y size))))).


(** [for item in items: body] on a state [S], any iteration possibly raising. *)
Fixpoint for_in {A S} (items : list A) (body : A -> S -> option S) (s : S)
  : option S :=
  match items with
  | [] => Some s
  | item :: rest => s' <- body item s ;; for_in rest body s'
  end.

(** The locals [result], [pos], [vel] of [move_box] that its loop updates. *)
Record Sweep := mkSweep {
  s_result : set Collision;
  s_pos : Point2d;
  s_vel : Vector2d
}.

(** One iteration of the loop of [move_box]. *)
Definition move_step (m : Map) (size : Vector2d) (fraction : float) (s : Sweep)
  : option Sweep :=
  let pos := s_pos s in
  let vel := s_vel s in
  let result := s_result s in
  let new_pos := Point2d_add pos (Point2d_mul vel fraction) in
  c <- test_box m new_pos size ;;
  if c then
    cy <- test_box m (mkPoint2d (x pos) (y new_pos)) size ;;
    let '(result, new_pos, vel, hit) :=
      if cy then (set_add Collision_eq_dec Y result,
                  mkPoint2d (x new_pos) (y pos), mkPoint2d (x vel) 0, true)
      else (result, new_pos, vel, false) in
    cx <- test_box m (mkPoint2d (x new_pos) (y pos)) size ;;
    let '(result, new_pos, vel, hit) :=
      if cx then (set_add Collision_eq_dec X result,
                  mkPoint2d (x pos) (y new_pos), mkPoint2d 0 (y vel), true)
      else (result, new_pos, vel, hit) in
    if negb hit then
      Some (mkSweep (set_add Collision_eq_dec CORNER result) pos (mkPoint2d 0 0))
    else Some (mkSweep result new_pos vel)
  else Some (mkSweep result new_pos vel).

(** What [move_box] hands back: [return result, pos, vel], or the bare
    [return result] of plat.py under its [distance < 0] guard. *)
Inductive MoveResult :=
| Moved (result : set Collision) (pos : Point2d) (vel : Vector2d)
| Bare (result : set Collision).

Definition move_box (m : Map) (pos : Point2d) (vel : Vector2d) (size : Vector2d)
  : option MoveResult :=
  let distance := Point2d_len vel in
  maximum <- int distance ;;
  let result := empty_set Collision in
  if PrimFloat.ltb distance 0 then Some (Bare result)
  else
    d <- float_of_int (maximum + 1) ;;
    fraction <- truediv 1 d ;;
    s <- for_in (range 0 (maximum + 1))
                (fun _ => move_step m size fraction)
                (mkSweep result pos vel) ;;
    Some (Moved (s_result s) (s_pos s) (s_vel s)).

(** ** tilemap.py: the map on the vectors of basic2d

    tilemap.py has the same [Map] as plat.py, but takes [Point2d] and
    [Vector2d] from the module basic2d, which is not among the sources.  A
    point is kept as the record of the two coordinates that tilemap.py
    reads, writes and builds ([pos.x], [new_pos.y = pos.y],
    [Point2d(pos.x, new_pos.y)], [Vector2d(0, 0)]); the three operations
    of basic2d that it calls are parameters, taken to return a new point
    whenever they are called.  [__get_tile], [__is_solid] and [is_solid] are
    line for line [get_tile], [is_tile_solid] and [is_solid] of plat.py. *)

Module tilemap.

Class Basic2d := {
  add : Point2d -> Vector2d -> Point2d;   (* [pos + vel] *)
  mul : Vector2d -> float -> Vector2d;    (* [vel * fraction], [size * 0.5] *)
  norm : Vector2d -> float                (* [vel.norm] *)
}.

Section OnBasic2d.

Context {basic2d : Basic2d}.

Definition test_box (m : Map) (pos : Point2d) (size : Vector2d) : option bool :=
  let half_size := mul size 0.5 in
  or_else (is_solid m (mkPoint2d (x pos - x half_size) (y pos - y half_size)))
  (or_else (is_solid m (mkPoint2d (x pos + x half_size) (y pos - y half_size)))
  (or_else (is_solid m (mkPoint2d (x pos - x half_size) (y pos + y half_size)))
           (is_solid m (mkPoint2d (x pos + x half_size) (y pos + y half_size))))).

(** One iteration of the loop of [move_box], on its locals [pos] and
    [vel]: no collision is recorded anywhere. *)
Definition move_step (m : Map) (size : Vector2d) (fraction : float)
           (s : Point2d * Vector2d) : option (Point2d * Vector2d) :=
  let '(pos, vel) := s in
  let new_pos := add pos (mul vel fraction) in
  c <- test_box m new_pos size ;;
  if c then
    cy <- test_box m (mkPoint2d (x pos) (y new_pos)) size ;;
    let '(new_pos, vel, hit) :=
      if cy then (mkPoint2d (x new_pos) (y pos), mkPoint2d (x vel) 0, true)
      else (new_pos, vel, false) in
    cx <- test_box m (mkPoint2d (x new_pos) (y pos)) size ;;
    let '(new_pos, vel, hit) :=
      if cx then (mkPoint2d (x pos) (y new_pos), mkPoint2d 0 (y vel), true)
      else (new_pos, vel, hit) in
    if negb hit then Some (pos, mkPoint2d 0 0)
    else Some (new_pos, vel)
  else Some (new_pos, vel).

(** [move_box] returns the tuple [(pos, vel)], also under its
    [distance < 0] guard. *)
Definition move_box (m : Map) (pos : Point2d) (vel : Vector2d) (size : Vector2d)
  : option (Point2d * Vector2d) :=
  let distance := norm vel in
  maximum <- int distance ;;
  if PrimFloat.ltb distance 0 then Some (pos, vel)
  else
    d <- float_of_int (maximum + 1) ;;
    fraction <- truediv 1 d ;;
    for_in (range 0 (maximum + 1))
           (fun _ => move_step m size fraction)
           (pos, vel).

End OnBasic2d.

End tilemap.

(** ** plat.py: the player and the physics tick *)

Record Player := mkPlayer { pos : Point2d; vel : Vector2d }.

Definition restart : Player := mkPlayer (mkPoint2d 170 500) (mkPoint2d 0 0).

Record Game := mkGame {
  inputs : Input -> bool;
  player : Player;
  map : Map
}.

Definition physics (g : Game) : option Game :=
  let p := if inputs g RESTART then restart else player g in
  ground <- on_ground (map g) (pos p) PLAYER_SIZE ;;
  let vel_y := if inputs g JUMP then (if ground then (-21)%float else y (vel p))
               else y (vel p) in
  let direction := ((if inputs g RIGHT then 1 else 0)
                    - (if inputs g LEFT then 1 else 0))%Z in
  direction <- float_of_int direction ;;
  let vel_y := (vel_y + 0.75)%float in
  let vel_x := if ground then (0.5 * x (vel p) + 4 * direction)%float
               else (0x1.e666666666666p-1 (* 0.95 *) * x (vel p)
                     + 2 * direction)%float in
  let vel_x := min (max vel_x (-8)) 8 in
  r <- move_box (map g) (pos p) (mkPoint2d vel_x vel_y) PLAYER_SIZE ;;
  match r with
  | Moved _ pos' vel' => Some (mkGame (inputs g) (mkPlayer pos' vel') (map g))
  | Bare _ => None
  end.

(** ** plat.py / tilemap.py: loading the map file

    The file is its text as [file.readlines()] sees it (line ends already
    translated to a line feed); ASCII only. *)

Definition LF : ascii := "010"%char.
Definition SPACE : ascii := " "%char.

(** [file.readlines()]: the lines, each one keeping its line feed. *)
Fixpoint readlines (text : string) : list string :=
  match text with
  | EmptyString => []
  | String c rest =>
      if Ascii.eqb c LF then String c EmptyString :: readlines rest
      else match readlines rest with
           | [] => [String c EmptyString]
           | line :: lines => String c line :: lines
           end
  end.

(** [line.split(' ')]: cut at every single space, empty words included. *)
Fixpoint split_space (line : string) : list string :=
  match line with
  | EmptyString => [EmptyString]
  | String c rest =>
      if Ascii.eqb c SPACE then EmptyString :: split_space rest
      else match split_space rest with
           | [] => [String c EmptyString]
           | word :: words => String c word :: words
           end
  end.

(** The characters [int] skips before and after the literal of an ASCII
    string: tab, line feed, vertical tab, form feed, carriage return and
    space (bytes 9 to 13 and 32), and no other. *)
Definition is_space (c : ascii) : bool :=
  let n := nat_of_ascii c in
  ((9 <=? n) && (n <=? 13) || (n =? 32))%nat.

Definition digit_of (c : ascii) : option Z :=
  let n := nat_of_ascii c in
  if ((48 <=? n) && (n <=? 57))%nat then Some (Z.of_nat (n - 48)) else None.

Fixpoint lstrip (s : string) : string :=
  match s with
  | EmptyString => EmptyString
  | String c rest => if is_space c then lstrip rest else s
  end.

Fixpoint rstrip (s : string) : string :=
  match s with
  | EmptyString => EmptyString
  | String c rest =>
      match rstrip rest with
      | EmptyString => if is_space c then EmptyString else String c EmptyString
      | rest' => String c rest'
      end
  end.

(** Decimal digits, single underscores allowed between two digits. *)
Fixpoint digits (s : string) (acc : Z) (after_digit : bool) : option Z :=
  match s with
  | EmptyString => if after_digit then Some acc else None
  | String c rest =>
      match digit_of c with
      | Some d => digits rest (10 * acc + d) true
      | None =>
          if Ascii.eqb c "_"%char && after_digit then digits rest acc false
          else None
      end
  end.

(** The number of decimal digits in a literal, its underscores left out. *)
Fixpoint count_digits (s : string) : Z :=
  match s with
  | EmptyString => 0%Z
  | String c rest =>
      ((match digit_of c with Some _ => 1 | None => 0 end)
       + count_digits rest)%Z
  end.

(** The limit on the digits of a literal.  [max_str_digits] is what
    [sys.get_int_max_str_digits()] gives: 4300 unless the interpreter was
    told otherwise, 0 when the limit is switched off; an interpreter that
    has no such limit behaves as with 0.  Literals of 640 digits or fewer are
    never refused. *)
Definition over_limit (max_str_digits : Z) (s : string) : bool :=
  let n := count_digits s in
  ((640 <? n) && (0 <? max_str_digits) && (max_str_digits <? n))%Z.

(** The literal after the sign: [ValueError] when it is over the limit or
    not made of digits. *)
Definition literal (max_str_digits : Z) (s : string) : option Z :=
  if over_limit max_str_digits s then None else digits s 0 false.

(** [int(word)] for an ASCII string: [ValueError] is [None]. *)
Definition int_of_string (max_str_digits : Z) (word : string) : option Z :=
  match rstrip (lstrip word) with
  | String "+"%char rest => literal max_str_digits rest
  | String "-"%char rest => option_map Z.opp (literal max_str_digits rest)
  | s => literal max_str_digits s
  end.

Inductive Error := ValueError | RuntimeError.

(** The inner loop of [Map.__init__]: the words of one line. *)
Fixpoint read_words (max_str_digits : Z) (words : list string)
         (tiles : list Z) (width : Z) : Error + (list Z * Z) :=
  match words with
  | [] => inr (tiles, width)
  | word :: rest =>
      match word with
      | EmptyString => read_words max_str_digits rest tiles width
      | _ =>
          match int_of_string max_str_digits word with
          | None => inl ValueError
          | Some value =>
              read_words max_str_digits rest (tiles ++ [value]) (width + 1)
          end
      end
  end.

(** The outer loop of [Map.__init__]: the lines of the file. *)
Fixpoint read_lines (max_str_digits : Z) (lines : list string) (m : Map)
  : Error + Map :=
  match lines with
  | [] => inr m
  | line :: rest =>
      match read_words max_str_digits (split_space line) (tiles m) 0 with
      | inl e => inl e
      | inr (tiles', width') =>
          if ((0 <? width m) && negb (width m =? width'))%Z then inl RuntimeError
          else read_lines max_str_digits rest
                          (mkMap width' (height m + 1) tiles')
      end
  end.

(** [Map.__init__] on the text of the map file, in an interpreter whose
    limit on the digits of an integer literal is [max_str_digits]. *)
Definition Map_init (max_str_digits : Z) (text : string) : Error + Map :=
  read_lines max_str_digits (readlines text) (mkMap 0 0 []).

(** ** plat.py: input handling and the game loop *)

Inductive Key := SDLK_a | SDLK_d | SDLK_SPACE | SDLK_r | SDLK_q | SDLK_other.

Inductive Event :=
| SDL_QUIT
| SDL_KEYDOWN (sym : Key)
| SDL_KEYUP (sym : Key)
| SDL_OTHER.

Definition to_input (key : Key) : Input :=
  match key with
  | SDLK_a => LEFT
  | SDLK_d => RIGHT
  | SDLK_SPACE => JUMP
  | SDLK_r => RESTART
  | SDLK_q => QUIT
  | SDLK_other => NONE
  end.

Definition Input_eq_dec (a b : Input) : {a = b} + {a <> b}.
Proof. decide equality. Defined.

(** [inputs[i] = b] *)
Definition set_input (inputs : Input -> bool) (i : Input) (b : bool)
  : Input -> bool :=
  fun j => if Input_eq_dec i j then b else inputs j.

Definition handle_event (inputs : Input -> bool) (event : Event)
  : Input -> bool :=
  match event with
  | SDL_QUIT => set_input inputs QUIT true
  | SDL_KEYDOWN sym => set_input inputs (to_input sym) true
  | SDL_KEYUP sym => set_input inputs (to_input sym) false
  | SDL_OTHER => inputs
  end.

Definition handle_input (g : Game) (events : list Event) : Game :=
  mkGame (fold_left handle_event events (inputs g)) (player g) (map g).

(** What one pass of the game loop reads from outside: the pending events
    and the clock. *)
Record Frame := mkFrame { events : list Event; clock : float }.

(** The loop's variables; [ran] is a ghost log of the values [tick] took in
    [for tick in range(last_tick, new_tick): game.physics()]. *)
Record Loop := mkLoop { game : Game; last_tick : Z; ran : list Z }.

Definition new_tick_at (start_time now : float) : option Z :=
  int ((now - start_time) * 50).

(** One pass of the [while] loop of [main]; rendering changes no state. *)
Definition frame (start_time : float) (f : Frame) (l : Loop) : option Loop :=
  let g := handle_input (game l) (events f) in
  new_tick <- new_tick_at start_time (clock f) ;;
  s <- for_in (range (last_tick l) new_tick)
              (fun tick s => g' <- physics (fst s) ;; Some (g', snd s ++ [tick]))
              (g, ran l) ;;
  Some (mkLoop (fst s) new_tick (snd s)).

(** The [while not game.inputs[Input.QUIT]] loop over the frames that the
    outside world supplies. *)
Fixpoint main_loop (start_time : float) (frames : list Frame) (l : Loop)
  : option Loop :=
  match frames with
  | [] => Some l
  | f :: rest =>
      if inputs (game l) QUIT then Some l
      else l' <- frame start_time f l ;; main_loop start_time rest l'
  end.

Definition no_inputs : Input -> bool := fun _ => false.

(** [main] once the map is loaded: a fresh player, [last_tick = 0]. *)
Definition main (m : Map) (start_time : float) (frames : list Frame)
  : option Loop :=
  main_loop start_time frames
            (mkLoop (mkGame no_inputs restart m) 0 []).

(** ** plat.py: drawing the map *)

Record Rect := mkRect { rect_x : Z; rect_y : Z; rect_w : Z; rect_h : Z }.

(** One pass of the loop of [render_map]; [copies] is the list of the
    [renderer.copy(map.texture, clip, dest)] calls made so far. *)
Definition render_tile (m : Map) (item : Z * Z) (copies : list (Rect * Rect))
  : option (list (Rect * Rect)) :=
  let '(i, tile_nr) := item in
  if (tile_nr =? 0)%Z then Some copies
  else
    cx <- int_mod tile_nr TILES_PER_ROW ;;
    let clip_x := (cx * TILE_WIDTH)%Z in
    cy <- tile_cell tile_nr TILES_PER_ROW ;;
    let clip_y := (cy * TILE_HEIGHT)%Z in
    dx <- int_mod i (width m) ;;
    let dest_x := (dx * TILE_WIDTH)%Z in
    dy <- tile_cell i (width m) ;;
    let dest_y := (dy * TILE_HEIGHT)%Z in
    let clip := mkRect clip_x clip_y TILE_WIDTH TILE_HEIGHT in
    let dest := mkRect dest_x dest_y TILE_WIDTH TILE_HEIGHT in
    Some (copies ++ [(clip, dest)]).

Definition render_map (m : Map) : option (list (Rect * Rect)) :=
  for_in (enumerate 0 (tiles m)) (render_tile m) [].

(** ** Vocabulary of the properties *)

(** A grid as the data model wants it. *)
Definition well_formed (m : Map) : Prop :=
  (1 <= width m)%Z /\ (1 <= height m)%Z /\
  Z.of_nat (List.length (tiles m)) = (width m * height m)%Z.

(** An int that a float holds exactly: at most 53 significant bits, below
    2^1024.  Such is every int up to 2^53 in magnitude, and every int that
    [round] gives back from a float. *)
Definition is_float_int (c : Z) : bool :=
  let a := Z.abs c in
  (Z.log2 a <? 1024)%Z && (a mod 2 ^ Z.max 0 (Z.log2 a - 52) =? 0)%Z.

(** Rounding to the nearest integer with a tie going away from zero: the
    rounding the specification words ask of [isSolidPoint]. *)
Definition round_half_away (q : Q) : Z :=
  let f := Qfloor q in
  match Qcompare (q - inject_Z f) (1 # 2) with
  | Lt => f
  | Gt => (f + 1)%Z
  | Eq => if Qle_bool 0 q then (f + 1)%Z else f
  end.

(** Two floats that denote the same number: the same float, or two zeros
    of either sign. *)
Definition same_number (a b : float) : Prop :=
  Prim2SF a = Prim2SF b \/
  (exists s s', Prim2SF a = S754_zero s /\ Prim2SF b = S754_zero s').

Definition same_place (p q : Point2d) : Prop :=
  same_number (x p) (x q) /\ same_number (y p) (y q).

(** What the collisions reported so far have done to the velocity. *)
Definition stopped_by (res : set Collision) (vel : Vector2d) : Prop :=
  (set_In X res -> x vel = 0%float) /\
  (set_In Y res -> y vel = 0%float) /\
  (set_In CORNER res -> vel = mkPoint2d 0 0).

(** A coordinate after [n] sub-steps of unhindered motion at speed [v]. *)
Definition glide (v fraction : float) (n : nat) (t : float) : float :=
  Nat.iter n (fun t => (t + v * fraction)%float) t.

(** [move_box] cuts the move by [vel] into [maximum + 1] sub-steps of
    [fraction] each. *)
Definition sub_stepping (vel : Vector2d) (maximum : Z) (fraction : float)
  : Prop :=
  int (Point2d_len vel) = Some maximum /\
  exists d, float_of_int (maximum + 1) = Some d /\ truediv 1 d = Some fraction.

(** The same for tilemap.py's [move_box], once past its [distance < 0]
    guard. *)
Definition tilemap_sub_stepping {basic2d : tilemap.Basic2d} (vel : Vector2d)
           (maximum : Z) (fraction : float) : Prop :=
  int (tilemap.norm vel) = Some maximum /\
  PrimFloat.ltb (tilemap.norm vel) 0 = false /\
  exists d, float_of_int (maximum + 1) = Some d /\ truediv 1 d = Some fraction.

(** The vectors of plat.py have the operations tilemap.py asks of basic2d,
    the length under the name [len]. *)
Definition plat_vectors : tilemap.Basic2d :=
  {| tilemap.add := Point2d_add;
     tilemap.mul := Point2d_mul;
     tilemap.norm := Point2d_len |}.

(** The four points tilemap.py's [test_box] looks at, in its order. *)
Definition tilemap_box_corners {basic2d : tilemap.Basic2d}
           (pos : Point2d) (size : Vector2d) : list Point2d :=
  let half_size := tilemap.mul size 0.5 in
  [ mkPoint2d (x pos - x half_size) (y pos - y half_size);
    mkPoint2d (x pos + x half_size) (y pos - y half_size);
    mkPoint2d (x pos - x half_size) (y pos + y half_size);
    mkPoint2d (x pos + x half_size) (y pos + y half_size) ].

(** What a body at rest needs of basic2d: the zero vector has norm 0, and a
    finite multiple of it, added to a point, leaves the point where it is. *)
Definition rest_is_rest (basic2d : tilemap.Basic2d) : Prop :=
  tilemap.norm (mkPoint2d 0 0) = 0%float /\
  forall (p : Point2d) (f : float),
    value f <> None ->
    same_place (tilemap.add p (tilemap.mul (mkPoint2d 0 0) f)) p.

(** The values the two [move_box] return: plat.py's a tuple of three, or
    the set alone under its guard; tilemap.py's a tuple of two. *)
Inductive Returned :=
| Tuple3 (result : set Collision) (pos : Point2d) (vel : Vector2d)
| Tuple2 (pos : Point2d) (vel : Vector2d)
| Lone (result : set Collision).

Definition returned_by_plat (r : MoveResult) : Returned :=
  match r with
  | Moved result pos vel => Tuple3 result pos vel
  | Bare result => Lone result
  end.

Definition returned_by_tilemap (r : Point2d * Vector2d) : Returned :=
  Tuple2 (fst r) (snd r).

(** The collision set that comes with a returned value, if any does. *)
Definition collisions_in (r : Returned) : option (set Collision) :=
  match r with
  | Tuple3 result _ _ => Some result
  | Lone result => Some result
  | Tuple2 _ _ => None
  end.

(** Example grids, 2 by 2 tiles: a wall on the right, a single solid tile
    at the bottom right. *)
Definition wall : Map := mkMap 2 2 [0; 1; 0; 1]%Z.
Definition lone : Map := mkMap 2 2 [0; 0; 0; 1]%Z.

(** An all-air grid of one tile, and a keyboard with one key down. *)
Definition open_air : Map := mkMap 1 1 [0]%Z.
Definition pressing (i : Input) : Input -> bool := set_input no_inputs i true.

(** The map file seen as rows of words, as [Map.__init__] cuts it up. *)
Definition is_word (w : string) : bool :=
  match w with EmptyString => false | String _ _ => true end.

Definition words_of (line : string) : list string :=
  filter is_word (split_space line).

Definition rows_of (text : string) : list (list string) :=
  List.map words_of (readlines text).

Definition counts_of (lines : list string) : list Z :=
  List.map (fun line => Z.of_nat (List.length (words_of line))) lines.

(** Every word of the file is one that [int] accepts. *)
Definition integers_only (max_str_digits : Z) (text : string) : Prop :=
  forall row word, In row (rows_of text) -> In word row ->
                   int_of_string max_str_digits word <> None.

(** Some row has another number of words than the first row. *)
Definition ragged (rows : list (list string)) : Prop :=
  exists row, In row rows /\ List.length row <> List.length (hd [] rows).

(** A file of nothing but decimal digits and white space: whitespace-separated
    non-negative integers, as the specification describes the map format. *)
Fixpoint digits_and_blanks (text : string) : bool :=
  match text with
  | EmptyString => true
  | String c rest =>
      (is_space c || match digit_of c with Some _ => true | None => false end)
      && digits_and_blanks rest
  end.

Definition TAB : ascii := "009"%char.
Definition text_of (chars : list ascii) : string :=
  fold_right String EmptyString chars.

Fixpoint ends_lf (s : string) : bool :=
  match s with
  | EmptyString => false
  | String c EmptyString => Ascii.eqb c LF
  | String _ rest => ends_lf rest
  end.

(** The row check of [Map.__init__] on the word counts alone. *)
Fixpoint widths_ok (counts : list Z) (width : Z) : bool :=
  match counts with
  | [] => true
  | count :: rest =>
      if ((0 <? width) && negb (width =? count))%Z then false
      else widths_ok rest count
  end.

Fixpoint all_but_last {A} (P : A -> Prop) (l : list A) : Prop :=
  match l with
  | [] => True
  | a :: rest => match rest with [] => True | _ => P a end /\ all_but_last P rest
  end.

(** The elapsed seconds a frame computes, and samples that start at or
    after [prev] and never decrease, in the order of the floats. *)
Definition elapsed (start_time : float) (f : Frame) : float :=
  (clock f - start_time)%float.

Fixpoint nondecreasing (prev : float) (samples : list float) : Prop :=
  match samples with
  | [] => True
  | sample :: rest =>
      PrimFloat.leb prev sample = true /\ nondecreasing sample rest
  end.

(** Five frames whose clock readings give the ticks 0, 0, 1, 1, 2. *)
Definition five_frames : list Frame :=
  [ mkFrame [] 0; mkFrame [] 0.0078125; mkFrame [] 0.03125;
    mkFrame [] 0.0390625; mkFrame [] 0.046875 ].

(** [game.physics()] called [n] times in a row. *)
Fixpoint physics_times (n : nat) (g : Game) : option Game :=
  match n with
  | O => Some g
  | S n' => g' <- physics g ;; physics_times n' g'
  end.

(** The fixed-step schedule in the words of the specification: each frame
    handles its input, computes the current tick from the elapsed seconds
    and runs the physics update (current tick - last processed tick) times;
    the run ends with the frames or when quit is set. *)
Fixpoint fixed_step_run (start_time : float) (frames : list Frame)
         (last_processed : Z) (g : Game) : option (Z * Game) :=
  match frames with
  | [] => Some (last_processed, g)
  | f :: rest =>
      if inputs g QUIT then Some (last_processed, g)
      else
        current <- new_tick_at start_time (clock f) ;;
        g' <- physics_times (Z.to_nat (current - last_processed))
                            (handle_input g (events f)) ;;
        fixed_step_run start_time rest current g'
  end.

(** A room of 5 by 10 tiles: a wall down the right side and a floor; the
    spawn point is in the air inside it.  Two frames in which the key for
    going right is held down, half a second apart. *)
Definition arena : Map :=
  mkMap 5 10 (List.concat (List.repeat [0; 0; 0; 0; 1]%Z 9)
              ++ [1; 1; 1; 1; 1]%Z).

Definition run_right : list Frame :=
  [ mkFrame [SDL_KEYDOWN SDLK_d] 0.5; mkFrame [] 1 ].

(** A literal of [n] digits. *)
Definition ones (n : nat) : string := text_of (List.repeat "1"%char n).

(** Whether an event is about the input [i]: the window's close button is
    about [QUIT], a key going down or up about the input of the key. *)
Definition about (event : Event) (i : Input) : bool :=
  match event with
  | SDL_QUIT => if Input_eq_dec QUIT i then true else false
  | SDL_KEYDOWN sym | SDL_KEYUP sym =>
      if Input_eq_dec (to_input sym) i then true else false
  | SDL_OTHER => false
  end.

(** *** IEEE rounding, on integers

    A nonnegative value is the integer [v], scaled by a power of two large
    enough; binary64 rounds it to a multiple of [2^grid]. *)

Definition grid (floor p v : Z) : Z := Z.max (Z.log2 v + 1 - p) floor.

Definition to_grid (f : Z -> Z -> Z) (floor p v : Z) : Z :=
  (f v (grid floor p v) * 2 ^ grid floor p v)%Z.

(** Quotient by [2^g], rounded to nearest, ties to even. *)
Definition rne (v g : Z) : Z :=
  let q := (v / 2 ^ g)%Z in
  match (2 * (v mod 2 ^ g) ?= 2 ^ g)%Z with
  | Lt => q
  | Eq => if Z.even q then q else (q + 1)%Z
  | Gt => (q + 1)%Z
  end.

(** Quotient by [2^g], rounded down. *)
Definition rdn (v g : Z) : Z := (v / 2 ^ g)%Z.

(** The right shift that brings [m * 2^e] onto the binary64 grid. *)
Definition shift_of (m e : Z) : Z :=
  (fexp prec emax (Zdigits2 m + e) - e)%Z.

(** Rounding to nearest on the grid, then truncating onto it again, all
    scaled by [2^K]: what [binary_round_aux] does to an exact product. *)
Definition rounded (K v : Z) : Z :=
  to_grid rdn (emin + K) prec (to_grid rne (emin + K) prec v).

(** 50.0 as a float is [fifty_m * 2^fifty_e]. *)
Definition fifty_m : positive := 7036874417766400.
Definition fifty_e : Z := (-47)%Z.

(** A scale at which every product of a float with 50.0 is an integer. *)
Definition K50 : Z := 1121.

(** The scaled value of [a * 50.0], from the float [a >= 0]. *)
Definition scaled_tick (a : spec_float) : Z :=
  match a with
  | S754_finite false m e =>
      rounded K50 (Z.pos (m * fifty_m) * 2 ^ (e + fifty_e + K50))%Z
  | _ => 0%Z
  end.

(** ** Python built-ins: basic facts *)

Lemma or_else_true a b :
  or_else a b = Some true <->
  a = Some true \/ (a = Some false /\ b = Some true).
Proof.
  destruct a as [[|]|]; simpl; split; intros H;
    try (destruct H as [H|[H H']]); try discriminate; auto.
Qed.

Lemma or_else_false a b :
  or_else a b = Some false <-> a = Some false /\ b = Some false.
Proof.
  destruct a as [[|]|]; simpl; split.
  all: try (intros H; discriminate H).
  all: try (intros [H _]; discriminate H).
  - intros H; split; [reflexivity | exact H].
  - intros [_ H]; exact H.
Qed.

Lemma getitem_in_range {A} (l : list A) (i : Z) :
  (0 <= i < Z.of_nat (List.length l))%Z ->
  exists a, getitem l i = Some a /\ nth_error l (Z.to_nat i) = Some a.
Proof.
  intros Hi. unfold getitem.
  replace ((0 <=? i)%Z && (i <? Z.of_nat (List.length l))%Z) with true
    by (symmetry; apply andb_true_iff; split;
        [apply Z.leb_le | apply Z.ltb_lt]; lia).
  destruct (nth_error l (Z.to_nat i)) as [a|] eqn:E.
  - exists a; auto.
  - apply nth_error_None in E. lia.
Qed.

(** ** C2: how [is_solid] rounds *)

Lemma Qfloor_tie (q : Q) (n : Z) :
  (q == inject_Z n + (1 # 2))%Q -> Qfloor q = n.
Proof.
  intros H. rewrite H. unfold Qfloor, Qplus, inject_Z. simpl.
  Z.to_euclidean_division_equations. lia.
Qed.

Lemma round_half_even_tie (q : Q) (n : Z) :
  (q == inject_Z n + (1 # 2))%Q ->
  round_half_even q = if Z.even n then n else (n + 1)%Z.
Proof.
  intros H. unfold round_half_even. rewrite (Qfloor_tie q n H).
  assert (E : (q - inject_Z n ?= 1 # 2)%Q = Eq).
  { apply Qeq_alt. lra. }
  rewrite E. reflexivity.
Qed.

Lemma round_half_even_nearest (q : Q) :
  (Qabs (inject_Z (round_half_even q) - q) <= 1 # 2)%Q.
Proof.
  unfold round_half_even.
  pose proof (Qfloor_le q) as Hlo. pose proof (Qlt_floor q) as Hhi.
  set (f := Qfloor q) in *.
  rewrite inject_Z_plus in Hhi. change (inject_Z 1) with 1%Q in Hhi.
  apply Qabs_Qle_condition.
  destruct (q - inject_Z f ?= 1 # 2)%Q eqn:E;
    [apply Qeq_alt in E; destruct (Z.even f)
    |apply Qlt_alt in E|apply Qgt_alt in E];
    rewrite ?inject_Z_plus; change (inject_Z 1) with 1%Q; lra.
Qed.

(** C2, as the code has it. [is_solid] rounds each coordinate to a nearest
    integer before the tile lookup, and a coordinate exactly halfway between
    two integers goes to the even one of the two (Python 3's [round]), not
    to the one farther from zero. *)
Theorem is_solid_rounds_half_even (m : Map) (p : Point2d) (qx qy : Q) :
  value (x p) = Some qx ->
  value (y p) = Some qy ->
  is_solid m p = is_tile_solid m (round_half_even qx) (round_half_even qy) /\
  (Qabs (inject_Z (round_half_even qx) - qx) <= 1 # 2)%Q /\
  (Qabs (inject_Z (round_half_even qy) - qy) <= 1 # 2)%Q /\
  (forall n, (qx == inject_Z n + (1 # 2))%Q ->
             round_half_even qx = if Z.even n then n else (n + 1)%Z) /\
  (forall n, (qy == inject_Z n + (1 # 2))%Q ->
             round_half_even qy = if Z.even n then n else (n + 1)%Z).
Proof.
  intros Hx Hy. unfold is_solid, round. rewrite Hx, Hy. simpl.
  repeat split.
  - apply round_half_even_nearest.
  - apply round_half_even_nearest.
  - apply round_half_even_tie.
  - apply round_half_even_tie.
Qed.

Lemma is_solid_rounds_half_even_witness :
  exists qx qy,
    value 2.5 = Some qx /\ value 63.5 = Some qy /\
    (qx == inject_Z 2 + (1 # 2))%Q /\ (qy == inject_Z 63 + (1 # 2))%Q /\
    is_solid (mkMap 1 2 [0; 1]%Z) (mkPoint2d 2.5 63.5)
    = is_tile_solid (mkMap 1 2 [0; 1]%Z) 2 64.
Proof.
  eexists. eexists.
  split; [vm_compute; reflexivity|].
  split; [vm_compute; reflexivity|].
  split; [reflexivity|]. split; [reflexivity|].
  destruct (is_solid_rounds_half_even (mkMap 1 2 [0; 1]%Z)
              (mkPoint2d 2.5 63.5) _ _ eq_refl eq_refl)
    as (H & _ & _ & Hx & Hy).
  rewrite H.
  rewrite (Hx 2%Z) by reflexivity.
  rewrite (Hy 63%Z) by reflexivity.
  reflexivity.
Defined.

(** C2, as the claim has it, fails at 2.5: the lookup uses 2, the integer
    nearer to zero, where ties away from zero would give 3. *)
Lemma round_half_away_fails_at_2_5 :
  round 2.5 = Some 2%Z /\
  option_map round_half_away (value 2.5) = Some 3%Z /\
  is_solid (mkMap 1 1 [0]%Z) (mkPoint2d 2.5 0)
  = is_tile_solid (mkMap 1 1 [0]%Z) 2 0.
Proof. vm_compute. repeat split. Qed.

(** ** C3: the corners [test_box] looks at *)

Lemma test_box_true (m : Map) (c h : Point2d) :
  test_box m c h = Some true ->
  exists p, In p (box_corners c h) /\ is_solid m p = Some true.
Proof.
  unfold test_box, box_corners. cbv zeta. intros H.
  repeat (apply or_else_true in H; destruct H as [H | [_ H]];
          [eexists; split; [|exact H]; simpl; tauto |]).
  eexists; split; [|exact H]; simpl; tauto.
Qed.

Lemma test_box_false (m : Map) (c h : Point2d) :
  test_box m c h = Some false <->
  forall p, In p (box_corners c h) -> is_solid m p = Some false.
Proof.
  unfold test_box, box_corners. cbv zeta. split.
  - intros H p Hp.
    apply or_else_false in H. destruct H as [H1 H].
    apply or_else_false in H. destruct H as [H2 H].
    apply or_else_false in H. destruct H as [H3 H4].
    simpl in Hp. destruct Hp as [<- | [<- | [<- | [<- | []]]]]; assumption.
  - intros H.
    repeat (apply or_else_false; split); apply H; simpl; tauto.
Qed.

Lemma or_else_defined (a b : option bool) :
  a <> None -> b <> None -> exists r, or_else a b = Some r.
Proof.
  destruct a as [[|]|], b as [r|]; simpl; intros Ha Hb;
    try congruence; eexists; reflexivity.
Qed.

Lemma test_box_defined (m : Map) (c h : Point2d) :
  (forall p, In p (box_corners c h) -> is_solid m p <> None) ->
  exists b, test_box m c h = Some b.
Proof.
  unfold test_box, box_corners. cbv zeta. intros H.
  apply or_else_defined; [apply H; simpl; tauto|].
  intros C. revert C.
  match goal with |- ?t = None -> False => change (t <> None) end.
  cut (forall a b, a <> None -> b <> None -> or_else a b <> None).
  { intros K. apply K; [apply H; simpl; tauto|].
    apply K; apply H; simpl; tauto. }
  intros a b Ha Hb. destruct (or_else_defined a b Ha Hb) as [r ->].
  discriminate.
Qed.

(** C3, as the code has it. [test_box] reports a collision iff one of the
    four points [c ± size * 0.5] is solid, [size] being the vector it is
    handed; the player hands it [PLAYER_SIZE], the full 64 by 64 of the
    sprite, so the player's corners lie 32 from its centre. *)
Theorem test_box_tests_half_size_corners (m : Map) (c size : Point2d) :
  (forall p, In p (box_corners c size) -> is_solid m p <> None) ->
  box_corners c size
  = [ mkPoint2d (x c - x size * 0.5) (y c - y size * 0.5);
      mkPoint2d (x c + x size * 0.5) (y c - y size * 0.5);
      mkPoint2d (x c - x size * 0.5) (y c + y size * 0.5);
      mkPoint2d (x c + x size * 0.5) (y c + y size * 0.5) ] /\
  (test_box m c size = Some true <->
   exists p, In p (box_corners c size) /\ is_solid m p = Some true) /\
  (test_box m c size = Some false <->
   forall p, In p (box_corners c size) -> is_solid m p = Some false) /\
  box_corners c PLAYER_SIZE
  = [ mkPoint2d (x c - 32) (y c - 32); mkPoint2d (x c + 32) (y c - 32);
      mkPoint2d (x c - 32) (y c + 32); mkPoint2d (x c + 32) (y c + 32) ].
Proof.
  intros Hdef. split; [reflexivity|]. split; [|split].
  - split; [apply test_box_true|].
    intros (p & Hp & Hs).
    destruct (test_box_defined m c size Hdef) as [[|] Hb]; [exact Hb|].
    rewrite (proj1 (test_box_false m c size) Hb p Hp) in Hs. discriminate.
  - apply test_box_false.
  - reflexivity.
Qed.

Lemma test_box_tests_half_size_corners_witness :
  (forall p, In p (box_corners (mkPoint2d 40 32) PLAYER_SIZE) ->
             is_solid (mkMap 2 1 [0; 1]%Z) p <> None) /\
  test_box (mkMap 2 1 [0; 1]%Z) (mkPoint2d 40 32) PLAYER_SIZE = Some true.
Proof.
  assert (D : forall p, In p (box_corners (mkPoint2d 40 32) PLAYER_SIZE) ->
                        is_solid (mkMap 2 1 [0; 1]%Z) p <> None).
  { intros p [<- | [<- | [<- | [<- | []]]]]; vm_compute; discriminate. }
  split; [exact D|].
  destruct (test_box_tests_half_size_corners
              (mkMap 2 1 [0; 1]%Z) (mkPoint2d 40 32) PLAYER_SIZE D)
    as (_ & [_ Hcollides] & _).
  apply Hcollides. exists (mkPoint2d 72 0).
  split; [right; left; reflexivity | vm_compute; reflexivity].
Defined.

(** C3, as the claim has it, fails: the player's box at (40, 32) next to a
    solid tile that starts at x = 64 collides, through its corners at
    x = 72, though no point 16 from the centre is solid. *)
Lemma player_box_is_not_quarter_size :
  PLAYER_SIZE = mkPoint2d 64 64 /\
  test_box (mkMap 2 1 [0; 1]%Z) (mkPoint2d 40 32) PLAYER_SIZE = Some true /\
  box_corners (mkPoint2d 40 32) (mkPoint2d 32 32)
  = [ mkPoint2d 24 16; mkPoint2d 56 16; mkPoint2d 24 48; mkPoint2d 56 48 ] /\
  test_box (mkMap 2 1 [0; 1]%Z) (mkPoint2d 40 32) (mkPoint2d 32 32)
  = Some false.
Proof. vm_compute. repeat split. Qed.

(** ** Floats: numbers that are the same, zeros, signs *)

Lemma same_number_refl a : same_number a a.
Proof. left; reflexivity. Qed.

Lemma same_number_trans a b c :
  same_number a b -> same_number b c -> same_number a c.
Proof.
  intros [H1 | (s1 & s1' & H1 & H1')] [H2 | (s2 & s2' & H2 & H2')].
  - left; congruence.
  - right; exists s2, s2'; split; congruence.
  - right; exists s1, s1'; split; congruence.
  - right; exists s1, s2'; split; congruence.
Qed.

Lemma add_zero_same (a z : float) (s : bool) :
  Prim2SF z = S754_zero s -> same_number (a + z) a.
Proof.
  intros Hz. unfold same_number. rewrite add_spec, Hz.
  destruct (Prim2SF a) as [sa | sa | | sa ma ea]; simpl.
  - right. destruct sa, s; eexists; eexists; split; reflexivity.
  - left; reflexivity.
  - left; reflexivity.
  - left; reflexivity.
Qed.

Lemma same_number_sub (a b h : float) :
  same_number a b -> same_number (a - h) (b - h).
Proof.
  unfold same_number. rewrite !sub_spec.
  intros [-> | (s & s' & -> & ->)]; [left; reflexivity|].
  destruct (Prim2SF h) as [sh | sh | | sh mh eh]; simpl.
  - right. destruct s, s', sh; eexists; eexists; split; reflexivity.
  - left; reflexivity.
  - left; reflexivity.
  - left; reflexivity.
Qed.

Lemma same_number_add (a b h : float) :
  same_number a b -> same_number (a + h) (b + h).
Proof.
  unfold same_number. rewrite !add_spec.
  intros [-> | (s & s' & -> & ->)]; [left; reflexivity|].
  destruct (Prim2SF h) as [sh | sh | | sh mh eh]; simpl.
  - right. destruct s, s', sh; eexists; eexists; split; reflexivity.
  - left; reflexivity.
  - left; reflexivity.
  - left; reflexivity.
Qed.

Lemma same_number_value (a b : float) :
  same_number a b -> value a = value b.
Proof.
  unfold value. intros [-> | (s & s' & -> & ->)]; reflexivity.
Qed.

Lemma same_number_round (a b : float) :
  same_number a b -> round a = round b.
Proof. intros H. unfold round. rewrite (same_number_value a b H). reflexivity. Qed.

Lemma same_place_refl p : same_place p p.
Proof. split; apply same_number_refl. Qed.

Lemma same_place_trans p q r :
  same_place p q -> same_place q r -> same_place p r.
Proof. intros [] []; split; eapply same_number_trans; eauto. Qed.

Lemma is_solid_same (m : Map) (a b a' b' : float) :
  same_number a a' -> same_number b b' ->
  is_solid m (mkPoint2d a b) = is_solid m (mkPoint2d a' b').
Proof.
  intros Ha Hb. unfold is_solid. simpl.
  rewrite (same_number_round a a' Ha), (same_number_round b b' Hb).
  reflexivity.
Qed.

Lemma test_box_same (m : Map) (p q size : Point2d) :
  same_place p q -> test_box m p size = test_box m q size.
Proof.
  intros [Hx Hy]. unfold test_box. cbv zeta.
  rewrite (is_solid_same m _ _ _ _ (same_number_sub _ _ (x (Point2d_mul size 0.5)) Hx)
                                   (same_number_sub _ _ (y (Point2d_mul size 0.5)) Hy)).
  rewrite (is_solid_same m _ _ _ _ (same_number_add _ _ (x (Point2d_mul size 0.5)) Hx)
                                   (same_number_sub _ _ (y (Point2d_mul size 0.5)) Hy)).
  rewrite (is_solid_same m _ _ _ _ (same_number_sub _ _ (x (Point2d_mul size 0.5)) Hx)
                                   (same_number_add _ _ (y (Point2d_mul size 0.5)) Hy)).
  rewrite (is_solid_same m _ _ _ _ (same_number_add _ _ (x (Point2d_mul size 0.5)) Hx)
                                   (same_number_add _ _ (y (Point2d_mul size 0.5)) Hy)).
  reflexivity.
Qed.

Lemma zero_mul (f : float) :
  (exists s, Prim2SF (0 * f) = S754_zero s) \/ Prim2SF (0 * f) = S754_nan.
Proof.
  rewrite mul_spec. change (Prim2SF 0) with (S754_zero false).
  destruct (Prim2SF f) as [sf | sf | | sf mf ef]; simpl; eauto.
Qed.

Lemma round_nan_add_sub (a z h : float) :
  Prim2SF z = S754_nan -> round (a + z - h) = None.
Proof.
  intros Hz. unfold round, value. rewrite sub_spec, add_spec, Hz.
  destruct (Prim2SF a); reflexivity.
Qed.

Lemma test_box_nan (m : Map) (p : Point2d) (z : float) (b : float) (size : Point2d) :
  Prim2SF z = S754_nan ->
  test_box m (mkPoint2d (x p + z) b) size = None.
Proof.
  intros Hz. unfold test_box, is_solid. cbv zeta. simpl.
  rewrite (round_nan_add_sub _ _ _ Hz). reflexivity.
Qed.

(** binary_round_aux keeps the sign it is given *)
Lemma binary_round_aux_sign (sx : bool) (mx ex : Z) (lx : location) :
  match binary_round_aux prec emax sx mx ex lx with
  | S754_zero s | S754_infinity s | S754_finite s _ _ => s = sx
  | S754_nan => True
  end.
Proof.
  unfold binary_round_aux.
  destruct (shr_fexp prec emax mx ex lx) as [mrs' e'].
  destruct (shr_fexp prec emax _ e' loc_Exact) as [mrs'' e''].
  destruct (shr_m mrs''); auto.
  destruct (e'' <=? emax - prec)%Z; auto.
Qed.

Lemma sqrt_not_negative (f : float) : PrimFloat.ltb (PrimFloat.sqrt f) 0 = false.
Proof.
  rewrite ltb_spec, sqrt_spec. change (Prim2SF 0) with (S754_zero false).
  unfold SF64sqrt, SFsqrt.
  destruct (Prim2SF f) as [s | [|] | | [|] mf ef]; try reflexivity.
  destruct (SFsqrt_core_binary prec emax (Z.pos mf) ef) as [[mz ez] lz].
  pose proof (binary_round_aux_sign false mz ez lz) as H.
  destruct (binary_round_aux prec emax false mz ez lz); try subst; reflexivity.
Qed.

Lemma same_number_sym a b : same_number a b -> same_number b a.
Proof.
  intros [H | (s & s' & H & H')]; [left; auto | right; exists s', s; auto].
Qed.

Lemma same_place_sym p q : same_place p q -> same_place q p.
Proof. intros []; split; apply same_number_sym; assumption. Qed.

(** A finite factor keeps a zero a zero. *)
Lemma zero_mul_finite (f : float) :
  value f <> None -> exists s, Prim2SF (0 * f) = S754_zero s.
Proof.
  unfold value. rewrite mul_spec. change (Prim2SF 0) with (S754_zero false).
  destruct (Prim2SF f) as [sf | sf | | sf mf ef]; simpl; intros H;
    try congruence; eauto.
Qed.

(** ** [move_box]: one sub-step and the loop *)

Lemma point_eta (p : Point2d) : mkPoint2d (x p) (y p) = p.
Proof. destruct p; reflexivity. Qed.

(** What every iteration keeps, the loop keeps. *)
Lemma for_in_invariant {A S} (I : S -> Prop) (body : A -> S -> option S) :
  (forall a s s', body a s = Some s' -> I s -> I s') ->
  forall items s s', for_in items body s = Some s' -> I s -> I s'.
Proof.
  intros Hbody items.
  induction items as [|a items IH]; simpl; intros s s' H Hs.
  - injection H as <-. exact Hs.
  - destruct (body a s) as [s1|] eqn:E; cbn [bind] in H; [|discriminate].
    apply (IH s1 s' H). exact (Hbody a s s1 E Hs).
Qed.

Lemma range_length (a b : Z) : List.length (range a b) = Z.to_nat (b - a).
Proof. unfold range. rewrite length_map, length_seq. reflexivity. Qed.

Lemma set_add_other (a b : Collision) (res : set Collision) :
  a <> b -> set_In a (set_add Collision_eq_dec b res) -> set_In a res.
Proof.
  intros Hne H. apply set_add_elim in H.
  destruct H as [H|H]; [contradiction | exact H].
Qed.

Lemma map_seq_shift {A} (f : nat -> A) (n start len : nat) :
  List.map f (seq (n + start) len)
  = List.map (fun i => f (n + i)%nat) (seq start len).
Proof.
  revert start. induction len as [|len IH]; intros start; [reflexivity|].
  simpl. f_equal. rewrite <- IH. f_equal. f_equal. lia.
Qed.

Lemma range_app (a b c : Z) :
  (a <= b <= c)%Z -> range a b ++ range b c = range a c.
Proof.
  intros H. unfold range.
  replace (Z.to_nat (c - a)) with (Z.to_nat (b - a) + Z.to_nat (c - b))%nat
    by lia.
  rewrite seq_app, map_app. f_equal.
  replace (0 + Z.to_nat (b - a))%nat with (Z.to_nat (b - a) + 0)%nat by lia.
  rewrite map_seq_shift. apply map_ext. intros i. lia.
Qed.

Lemma range_cons (a b : Z) : (a < b)%Z -> range a b = a :: range (a + 1) b.
Proof.
  intros H. rewrite <- (range_app a (a + 1) b) by lia.
  unfold range at 1. replace (Z.to_nat (a + 1 - a)) with 1%nat by lia.
  cbn [seq List.map app]. rewrite Z.add_0_r. reflexivity.
Qed.

Lemma for_in_app {A S} (l1 l2 : list A) (body : A -> S -> option S) (s : S) :
  for_in (l1 ++ l2) body s = (s1 <- for_in l1 body s ;; for_in l2 body s1).
Proof.
  revert s. induction l1 as [|a l1 IH]; intros s; [reflexivity|].
  cbn [app for_in]. destruct (body a s) as [s1|]; cbn [bind]; [apply IH | reflexivity].
Qed.

(** The loop of a [move_box], cut at its sub-step number [k]. *)
Lemma for_in_sub_step {S} (body : S -> option S) (maximum k : Z) (s : S) :
  (0 <= k <= maximum)%Z ->
  for_in (range 0 (maximum + 1)) (fun _ => body) s
  = (sk <- for_in (range 0 k) (fun _ => body) s ;;
     s1 <- body sk ;;
     for_in (range (k + 1) (maximum + 1)) (fun _ => body) s1).
Proof.
  intros H. rewrite <- (range_app 0 k (maximum + 1)) by lia.
  rewrite for_in_app. rewrite (range_cons k) by lia. reflexivity.
Qed.

Ltac in_added :=
  repeat first [ apply set_add_intro2; reflexivity
               | apply set_add_intro1 ].

Lemma glide_step v fraction n t :
  glide v fraction n (t + v * fraction) = glide v fraction (S n) t.
Proof. unfold glide. rewrite Nat.iter_succ_r. reflexivity. Qed.

Lemma candidate_at_rest (pos : Point2d) (fraction : float) (s : bool) :
  Prim2SF (0 * fraction) = S754_zero s ->
  same_place (Point2d_add pos (Point2d_mul (mkPoint2d 0 0) fraction)) pos.
Proof.
  intros Hz. split; simpl; eapply add_zero_same; exact Hz.
Qed.

Section SubSteps.

Variables (m : Map) (size : Vector2d) (fraction : float).

(** One sub-step, by the three box tests it makes. *)
Lemma move_step_resolved (s : Sweep) (cy cx : bool) :
  let pos := s_pos s in
  let vel := s_vel s in
  let candidate := Point2d_add pos (Point2d_mul vel fraction) in
  test_box m candidate size = Some true ->
  test_box m (mkPoint2d (x pos) (y candidate)) size = Some cy ->
  test_box m (mkPoint2d (x candidate) (y pos)) size = Some cx ->
  move_step m size fraction s
  = Some match cy, cx with
         | true, true =>
             mkSweep (set_add Collision_eq_dec X
                        (set_add Collision_eq_dec Y (s_result s)))
                     (mkPoint2d (x pos) (y pos)) (mkPoint2d 0 0)
         | true, false =>
             mkSweep (set_add Collision_eq_dec Y (s_result s))
                     (mkPoint2d (x candidate) (y pos)) (mkPoint2d (x vel) 0)
         | false, true =>
             mkSweep (set_add Collision_eq_dec X (s_result s))
                     (mkPoint2d (x pos) (y candidate)) (mkPoint2d 0 (y vel))
         | false, false =>
             mkSweep (set_add Collision_eq_dec CORNER (s_result s))
                     pos (mkPoint2d 0 0)
         end.
Proof.
  cbv zeta. intros Hc Hy Hx. unfold move_step. cbv zeta.
  rewrite Hc. cbn [bind]. rewrite Hy. cbn [bind].
  destruct cy; cbn [x y]; rewrite Hx; cbn [bind]; destruct cx; reflexivity.
Qed.

Lemma move_step_cases (s s' : Sweep) :
  move_step m size fraction s = Some s' ->
  let pos := s_pos s in
  let vel := s_vel s in
  let candidate := Point2d_add pos (Point2d_mul vel fraction) in
  (test_box m candidate size = Some false /\
   s' = mkSweep (s_result s) candidate vel) \/
  (test_box m candidate size = Some true /\
   exists cy cx,
     test_box m (mkPoint2d (x pos) (y candidate)) size = Some cy /\
     test_box m (mkPoint2d (x candidate) (y pos)) size = Some cx /\
     s' = match cy, cx with
          | true, true =>
              mkSweep (set_add Collision_eq_dec X
                         (set_add Collision_eq_dec Y (s_result s)))
                      (mkPoint2d (x pos) (y pos)) (mkPoint2d 0 0)
          | true, false =>
              mkSweep (set_add Collision_eq_dec Y (s_result s))
                      (mkPoint2d (x candidate) (y pos)) (mkPoint2d (x vel) 0)
          | false, true =>
              mkSweep (set_add Collision_eq_dec X (s_result s))
                      (mkPoint2d (x pos) (y candidate)) (mkPoint2d 0 (y vel))
          | false, false =>
              mkSweep (set_add Collision_eq_dec CORNER (s_result s))
                      pos (mkPoint2d 0 0)
          end).
Proof.
  cbv zeta. intros H.
  set (candidate := Point2d_add (s_pos s) (Point2d_mul (s_vel s) fraction)).
  destruct (test_box m candidate size) as [[|]|] eqn:Ec.
  - right. split; [reflexivity|].
    destruct (test_box m (mkPoint2d (x (s_pos s)) (y candidate)) size)
      as [cy|] eqn:Ey.
    + destruct (test_box m (mkPoint2d (x candidate) (y (s_pos s))) size)
        as [cx|] eqn:Ex.
      * exists cy, cx. split; [reflexivity|]. split; [reflexivity|].
        rewrite (move_step_resolved s cy cx Ec Ey Ex) in H.
        injection H as <-. reflexivity.
      * exfalso. revert H. unfold move_step. cbv zeta. fold candidate.
        rewrite Ec. cbn [bind]. rewrite Ey. cbn [bind].
        destruct cy; cbn [x y]; rewrite Ex; discriminate.
    + exfalso. revert H. unfold move_step. cbv zeta. fold candidate.
      rewrite Ec. cbn [bind]. rewrite Ey. discriminate.
  - left. split; [reflexivity|].
    revert H. unfold move_step. cbv zeta. fold candidate.
    rewrite Ec. cbn [bind]. intros H. injection H as <-. reflexivity.
  - exfalso. revert H. unfold move_step. cbv zeta. fold candidate.
    rewrite Ec. discriminate.
Qed.

(** *** Non-penetration *)

Lemma move_step_keeps_clear (s s' : Sweep) :
  move_step m size fraction s = Some s' ->
  test_box m (s_pos s) size = Some false ->
  test_box m (s_pos s') size = Some false.
Proof.
  intros Hstep Hclear. apply move_step_cases in Hstep. cbv zeta in Hstep.
  destruct Hstep as [[Hc ->] | [Hc (cy & cx & Hy & Hx & ->)]]; [exact Hc|].
  destruct cy, cx; simpl.
  - rewrite point_eta. exact Hclear.
  - exact Hx.
  - exact Hy.
  - exact Hclear.
Qed.

Lemma move_loop_keeps_clear {A} (items : list A) (s s' : Sweep) :
  test_box m (s_pos s) size = Some false ->
  for_in items (fun _ => move_step m size fraction) s = Some s' ->
  test_box m (s_pos s') size = Some false.
Proof.
  intros Hclear H. revert Hclear.
  apply (for_in_invariant
           (fun s => test_box m (s_pos s) size = Some false)
           (fun _ => move_step m size fraction)
           (fun _ => move_step_keeps_clear) items s s' H).
Qed.

(** *** The collisions reported *)

Lemma move_step_grows (c : Collision) (s s' : Sweep) :
  move_step m size fraction s = Some s' ->
  set_In c (s_result s) -> set_In c (s_result s').
Proof.
  intros H Hc. apply move_step_cases in H. cbv zeta in H.
  destruct H as [[_ ->] | [_ (cy & cx & _ & _ & ->)]]; [exact Hc|].
  destruct cy, cx; simpl; repeat apply set_add_intro1; exact Hc.
Qed.

Lemma move_loop_grows {A} (items : list A) (s s' : Sweep) (c : Collision) :
  for_in items (fun _ => move_step m size fraction) s = Some s' ->
  set_In c (s_result s) -> set_In c (s_result s').
Proof.
  apply (for_in_invariant (fun s => set_In c (s_result s))
                          (fun _ => move_step m size fraction)
                          (fun _ => move_step_grows c)).
Qed.

Lemma move_step_stopped_by (s s' : Sweep) :
  move_step m size fraction s = Some s' ->
  stopped_by (s_result s) (s_vel s) ->
  stopped_by (s_result s') (s_vel s').
Proof.
  intros H (HX & HY & HC). apply move_step_cases in H. cbv zeta in H.
  destruct H as [[_ ->] | [_ (cy & cx & _ & _ & ->)]];
    [split; [|split]; assumption|].
  destruct cy, cx; simpl; (split; [|split]); simpl; intros Hin;
    try reflexivity.
  - apply set_add_other in Hin; [|discriminate]. exact (HX Hin).
  - apply set_add_other in Hin; [|discriminate]. rewrite (HC Hin). reflexivity.
  - apply set_add_other in Hin; [|discriminate]. exact (HY Hin).
  - apply set_add_other in Hin; [|discriminate]. rewrite (HC Hin). reflexivity.
Qed.

Lemma move_loop_stopped_by {A} (items : list A) (s s' : Sweep) :
  for_in items (fun _ => move_step m size fraction) s = Some s' ->
  stopped_by (s_result s) (s_vel s) ->
  stopped_by (s_result s') (s_vel s').
Proof.
  apply (for_in_invariant (fun s => stopped_by (s_result s) (s_vel s))
                          (fun _ => move_step m size fraction)
                          (fun _ => move_step_stopped_by)).
Qed.

(** *** The axis that is not blocked *)

(** A sub-step that reports neither [Y] nor [CORNER] moved freely in y. *)
Lemma move_step_free_y (s s' : Sweep) :
  move_step m size fraction s = Some s' ->
  ~ set_In Y (s_result s') -> ~ set_In CORNER (s_result s') ->
  y (s_vel s') = y (s_vel s) /\
  y (s_pos s') = (y (s_pos s) + y (s_vel s) * fraction)%float.
Proof.
  intros H HY HC. apply move_step_cases in H. cbv zeta in H.
  destruct H as [[_ ->] | [_ (cy & cx & _ & _ & ->)]]; [split; reflexivity|].
  destruct cy, cx; simpl in *.
  - exfalso. apply HY. in_added.
  - exfalso. apply HY. in_added.
  - split; reflexivity.
  - exfalso. apply HC. in_added.
Qed.

Lemma move_step_free_x (s s' : Sweep) :
  move_step m size fraction s = Some s' ->
  ~ set_In X (s_result s') -> ~ set_In CORNER (s_result s') ->
  x (s_vel s') = x (s_vel s) /\
  x (s_pos s') = (x (s_pos s) + x (s_vel s) * fraction)%float.
Proof.
  intros H HX HC. apply move_step_cases in H. cbv zeta in H.
  destruct H as [[_ ->] | [_ (cy & cx & _ & _ & ->)]]; [split; reflexivity|].
  destruct cy, cx; simpl in *.
  - exfalso. apply HX. in_added.
  - split; reflexivity.
  - exfalso. apply HX. in_added.
  - exfalso. apply HC. in_added.
Qed.

Lemma move_loop_free_y {A} (items : list A) (s s' : Sweep) :
  for_in items (fun _ => move_step m size fraction) s = Some s' ->
  ~ set_In Y (s_result s') -> ~ set_In CORNER (s_result s') ->
  y (s_vel s') = y (s_vel s) /\
  y (s_pos s')
  = glide (y (s_vel s)) fraction (List.length items) (y (s_pos s)).
Proof.
  revert s. induction items as [|i items IH]; simpl; intros s H HY HC.
  - injection H as <-. split; reflexivity.
  - destruct (move_step m size fraction s) as [s1|] eqn:E; cbn [bind] in H;
      [|discriminate].
    destruct (IH s1 H HY HC) as [Hv Hp].
    destruct (move_step_free_y s s1 E) as [Hv1 Hp1].
    + intros C. apply HY. eapply move_loop_grows; eauto.
    + intros C. apply HC. eapply move_loop_grows; eauto.
    + split; [congruence|].
      rewrite Hp, Hv1, Hp1. apply glide_step.
Qed.

Lemma move_loop_free_x {A} (items : list A) (s s' : Sweep) :
  for_in items (fun _ => move_step m size fraction) s = Some s' ->
  ~ set_In X (s_result s') -> ~ set_In CORNER (s_result s') ->
  x (s_vel s') = x (s_vel s) /\
  x (s_pos s')
  = glide (x (s_vel s)) fraction (List.length items) (x (s_pos s)).
Proof.
  revert s. induction items as [|i items IH]; simpl; intros s H HX HC.
  - injection H as <-. split; reflexivity.
  - destruct (move_step m size fraction s) as [s1|] eqn:E; cbn [bind] in H;
      [|discriminate].
    destruct (IH s1 H HX HC) as [Hv Hp].
    destruct (move_step_free_x s s1 E) as [Hv1 Hp1].
    + intros C. apply HX. eapply move_loop_grows; eauto.
    + intros C. apply HC. eapply move_loop_grows; eauto.
    + split; [congruence|].
      rewrite Hp, Hv1, Hp1. apply glide_step.
Qed.

(** *** A body at rest *)

(** With velocity (0, 0) the candidate is the position itself, so a
    sub-step does what the box test at the position says. *)
Lemma move_step_at_rest_eq (s : Sweep) (z : bool) :
  Prim2SF (0 * fraction) = S754_zero z ->
  s_vel s = mkPoint2d 0 0 ->
  move_step m size fraction s
  = match test_box m (s_pos s) size with
    | Some false =>
        Some (mkSweep (s_result s)
                      (Point2d_add (s_pos s)
                                   (Point2d_mul (mkPoint2d 0 0) fraction))
                      (mkPoint2d 0 0))
    | Some true =>
        Some (mkSweep (set_add Collision_eq_dec X
                         (set_add Collision_eq_dec Y (s_result s)))
                      (mkPoint2d (x (s_pos s)) (y (s_pos s)))
                      (mkPoint2d 0 0))
    | None => None
    end.
Proof.
  intros Hz Hv.
  pose proof (candidate_at_rest (s_pos s) fraction z Hz) as [Hx Hy].
  unfold move_step. cbv zeta. rewrite Hv.
  set (candidate :=
         Point2d_add (s_pos s) (Point2d_mul (mkPoint2d 0 0) fraction)) in *.
  rewrite (test_box_same m candidate (s_pos s) size) by (split; assumption).
  destruct (test_box m (s_pos s) size) as [[|]|] eqn:E; cbn [bind];
    try reflexivity.
  rewrite (test_box_same m (mkPoint2d (x (s_pos s)) (y candidate))
                         (s_pos s) size)
    by (split; [apply same_number_refl | exact Hy]).
  rewrite E. cbn [bind x y].
  rewrite (test_box_same m (mkPoint2d (x candidate) (y (s_pos s)))
                         (s_pos s) size)
    by (split; [exact Hx | apply same_number_refl]).
  rewrite E. reflexivity.
Qed.

Lemma move_step_at_rest (s s' : Sweep) :
  move_step m size fraction s = Some s' ->
  s_vel s = mkPoint2d 0 0 ->
  s_vel s' = mkPoint2d 0 0 /\ same_place (s_pos s') (s_pos s).
Proof.
  intros H Hv. destruct (zero_mul fraction) as [[z Hz] | Hnan].
  - rewrite (move_step_at_rest_eq s z Hz Hv) in H.
    destruct (test_box m (s_pos s) size) as [[|]|]; [| |discriminate];
      injection H as <-; (split; [reflexivity|]); cbn [s_pos].
    + rewrite point_eta. apply same_place_refl.
    + apply (candidate_at_rest _ _ z Hz).
  - exfalso. revert H. unfold move_step. cbv zeta. rewrite Hv.
    unfold Point2d_add, Point2d_mul. cbn [x y].
    rewrite (test_box_nan m (s_pos s) _ _ size Hnan). discriminate.
Qed.

Lemma move_loop_at_rest {A} (items : list A) (s s' : Sweep) :
  s_vel s = mkPoint2d 0 0 ->
  for_in items (fun _ => move_step m size fraction) s = Some s' ->
  same_place (s_pos s') (s_pos s) /\ s_vel s' = mkPoint2d 0 0 /\
  forall c, set_In c (s_result s) -> set_In c (s_result s').
Proof.
  intros Hv H.
  assert (s_vel s' = mkPoint2d 0 0 /\ same_place (s_pos s') (s_pos s))
    as [V P].
  { apply (for_in_invariant
             (fun t => s_vel t = mkPoint2d 0 0 /\
                       same_place (s_pos t) (s_pos s))
             (fun _ : A => move_step m size fraction)) with (2 := H).
    - intros _ t t' Ht [Vt Pt].
      destruct (move_step_at_rest t t' Ht Vt) as [V' P'].
      split; [exact V' | eapply same_place_trans; eauto].
    - split; [exact Hv | apply same_place_refl]. }
  split; [exact P|]. split; [exact V|].
  intros c. apply (move_loop_grows items s s' c H).
Qed.

Lemma move_loop_at_rest_returns {A} (items : list A) (s : Sweep) :
  value fraction <> None ->
  test_box m (s_pos s) size <> None ->
  s_vel s = mkPoint2d 0 0 ->
  for_in items (fun _ => move_step m size fraction) s <> None.
Proof.
  intros Hf. destruct (zero_mul_finite fraction Hf) as [z Hz].
  revert s. induction items as [|i items IH]; simpl; intros s Hdef Hv.
  - discriminate.
  - destruct (move_step m size fraction s) as [s1|] eqn:E; cbn [bind].
    + destruct (move_step_at_rest s s1 E Hv) as [V1 P1].
      apply IH; [|exact V1].
      rewrite (test_box_same m (s_pos s1) (s_pos s) size P1). exact Hdef.
    + exfalso. rewrite (move_step_at_rest_eq s z Hz Hv) in E.
      destruct (test_box m (s_pos s) size) as [[|]|];
        [discriminate E | discriminate E | apply Hdef; reflexivity].
Qed.

End SubSteps.

(** [move_box] never takes its [distance < 0] exit. *)
Lemma move_box_inv (m : Map) (pos vel size : Point2d) (r : MoveResult) :
  move_box m pos vel size = Some r ->
  exists maximum d fraction s,
    int (Point2d_len vel) = Some maximum /\
    float_of_int (maximum + 1) = Some d /\
    truediv 1 d = Some fraction /\
    for_in (range 0 (maximum + 1)) (fun _ => move_step m size fraction)
           (mkSweep (empty_set Collision) pos vel) = Some s /\
    r = Moved (s_result s) (s_pos s) (s_vel s).
Proof.
  unfold move_box. cbv zeta. unfold Point2d_len at 2.
  rewrite sqrt_not_negative.
  destruct (int (Point2d_len vel)) as [maximum|] eqn:E1; cbn [bind];
    [|discriminate].
  destruct (float_of_int (maximum + 1)) as [d|] eqn:E2; cbn [bind];
    [|discriminate].
  destruct (truediv 1 d) as [fraction|] eqn:E3; cbn [bind]; [|discriminate].
  destruct (for_in _ _ _) as [s|] eqn:E4; cbn [bind]; [|discriminate].
  intros H; injection H as <-.
  exists maximum, d, fraction, s. auto.
Qed.

Lemma sub_stepping_runs (m : Map) (pos vel size : Point2d) (maximum : Z)
      (fraction : float) :
  sub_stepping vel maximum fraction ->
  move_box m pos vel size
  = (s <- for_in (range 0 (maximum + 1)) (fun _ => move_step m size fraction)
                 (mkSweep (empty_set Collision) pos vel) ;;
     Some (Moved (s_result s) (s_pos s) (s_vel s))).
Proof.
  intros (Hi & d & Hd & Hf). unfold move_box. cbv zeta.
  unfold Point2d_len at 2. rewrite sqrt_not_negative.
  rewrite Hi. cbn [bind]. rewrite Hd. cbn [bind]. rewrite Hf. reflexivity.
Qed.

(** What [move_box] returns when its loop, at sub-step [k], is in [s]. *)
Lemma move_box_from_sub_step (m : Map) (size : Vector2d) (fraction : float)
      (pos0 vel0 : Point2d) (maximum k : Z) (s s1 : Sweep)
      (result : set Collision) (pos' vel' : Point2d) :
  sub_stepping vel0 maximum fraction -> (0 <= k <= maximum)%Z ->
  for_in (range 0 k) (fun _ => move_step m size fraction)
         (mkSweep (empty_set Collision) pos0 vel0) = Some s ->
  move_step m size fraction s = Some s1 ->
  move_box m pos0 vel0 size = Some (Moved result pos' vel') ->
  exists s',
    for_in (range (k + 1) (maximum + 1)) (fun _ => move_step m size fraction) s1
    = Some s' /\
    result = s_result s' /\ pos' = s_pos s' /\ vel' = s_vel s' /\
    stopped_by result vel'.
Proof.
  intros Hsub Hk Hs Hstep Hbox.
  rewrite (sub_stepping_runs m pos0 vel0 size maximum fraction Hsub) in Hbox.
  destruct (for_in (range 0 (maximum + 1)) _ _) as [s'|] eqn:Hloop;
    cbn [bind] in Hbox; [|discriminate].
  injection Hbox as <- <- <-.
  pose proof (move_loop_stopped_by m size fraction _ _ _ Hloop) as St.
  rewrite (for_in_sub_step (move_step m size fraction) maximum k _ Hk) in Hloop.
  rewrite Hs in Hloop. cbn [bind] in Hloop. rewrite Hstep in Hloop.
  cbn [bind] in Hloop.
  exists s'. split; [exact Hloop|]. do 3 (split; [reflexivity|]).
  apply St. repeat split; intros [].
Qed.

(** ** tilemap.py: one sub-step and the loop, on any basic2d *)

Section Tilemap.

Context {basic2d : tilemap.Basic2d}.
Variables (m : Map) (size : Vector2d) (fraction : float).

Lemma tilemap_sub_stepping_runs (pos vel : Point2d) (maximum : Z) :
  tilemap_sub_stepping vel maximum fraction ->
  tilemap.move_box m pos vel size
  = for_in (range 0 (maximum + 1)) (fun _ => tilemap.move_step m size fraction)
           (pos, vel).
Proof.
  intros (Hi & Hn & d & Hd & Hf). unfold tilemap.move_box. cbv zeta.
  rewrite Hi, Hn. cbn [bind]. rewrite Hd. cbn [bind]. rewrite Hf. reflexivity.
Qed.

Lemma tilemap_test_box_same (p q : Point2d) :
  same_place p q -> tilemap.test_box m p size = tilemap.test_box m q size.
Proof.
  intros [Hx Hy]. unfold tilemap.test_box. cbv zeta.
  set (h := tilemap.mul size 0.5).
  rewrite (is_solid_same m _ _ _ _ (same_number_sub _ _ (x h) Hx)
                                   (same_number_sub _ _ (y h) Hy)).
  rewrite (is_solid_same m _ _ _ _ (same_number_add _ _ (x h) Hx)
                                   (same_number_sub _ _ (y h) Hy)).
  rewrite (is_solid_same m _ _ _ _ (same_number_sub _ _ (x h) Hx)
                                   (same_number_add _ _ (y h) Hy)).
  rewrite (is_solid_same m _ _ _ _ (same_number_add _ _ (x h) Hx)
                                   (same_number_add _ _ (y h) Hy)).
  reflexivity.
Qed.

(** One sub-step of tilemap.py, by the three box tests it makes. *)
Lemma tilemap_move_step_resolved (pos vel : Point2d) (cy cx : bool) :
  let candidate := tilemap.add pos (tilemap.mul vel fraction) in
  tilemap.test_box m candidate size = Some true ->
  tilemap.test_box m (mkPoint2d (x pos) (y candidate)) size = Some cy ->
  tilemap.test_box m (mkPoint2d (x candidate) (y pos)) size = Some cx ->
  tilemap.move_step m size fraction (pos, vel)
  = Some match cy, cx with
         | true, true => (mkPoint2d (x pos) (y pos), mkPoint2d 0 0)
         | true, false => (mkPoint2d (x candidate) (y pos), mkPoint2d (x vel) 0)
         | false, true => (mkPoint2d (x pos) (y candidate), mkPoint2d 0 (y vel))
         | false, false => (pos, mkPoint2d 0 0)
         end.
Proof.
  cbv zeta. intros Hc Hy Hx. unfold tilemap.move_step. cbv zeta.
  rewrite Hc. cbn [bind]. rewrite Hy. cbn [bind].
  destruct cy; cbn [x y]; rewrite Hx; cbn [bind]; destruct cx; reflexivity.
Qed.

Lemma tilemap_move_step_cases (pos vel : Point2d) (s' : Point2d * Vector2d) :
  tilemap.move_step m size fraction (pos, vel) = Some s' ->
  let candidate := tilemap.add pos (tilemap.mul vel fraction) in
  (tilemap.test_box m candidate size = Some false /\ s' = (candidate, vel)) \/
  (tilemap.test_box m candidate size = Some true /\
   exists cy cx,
     tilemap.test_box m (mkPoint2d (x pos) (y candidate)) size = Some cy /\
     tilemap.test_box m (mkPoint2d (x candidate) (y pos)) size = Some cx /\
     s' = match cy, cx with
          | true, true => (mkPoint2d (x pos) (y pos), mkPoint2d 0 0)
          | true, false =>
              (mkPoint2d (x candidate) (y pos), mkPoint2d (x vel) 0)
          | false, true =>
              (mkPoint2d (x pos) (y candidate), mkPoint2d 0 (y vel))
          | false, false => (pos, mkPoint2d 0 0)
          end).
Proof.
  cbv zeta. intros H.
  set (candidate := tilemap.add pos (tilemap.mul vel fraction)).
  destruct (tilemap.test_box m candidate size) as [[|]|] eqn:Ec.
  - right. split; [reflexivity|].
    destruct (tilemap.test_box m (mkPoint2d (x pos) (y candidate)) size)
      as [cy|] eqn:Ey.
    + destruct (tilemap.test_box m (mkPoint2d (x candidate) (y pos)) size)
        as [cx|] eqn:Ex.
      * exists cy, cx. split; [reflexivity|]. split; [reflexivity|].
        rewrite (tilemap_move_step_resolved pos vel cy cx Ec Ey Ex) in H.
        injection H as <-. reflexivity.
      * exfalso. revert H. unfold tilemap.move_step. cbv zeta. fold candidate.
        rewrite Ec. cbn [bind]. rewrite Ey. cbn [bind].
        destruct cy; cbn [x y]; rewrite Ex; discriminate.
    + exfalso. revert H. unfold tilemap.move_step. cbv zeta. fold candidate.
      rewrite Ec. cbn [bind]. rewrite Ey. discriminate.
  - left. split; [reflexivity|].
    revert H. unfold tilemap.move_step. cbv zeta. fold candidate.
    rewrite Ec. cbn [bind]. intros H. injection H as <-. reflexivity.
  - exfalso. revert H. unfold tilemap.move_step. cbv zeta. fold candidate.
    rewrite Ec. discriminate.
Qed.

Lemma tilemap_move_step_keeps_clear (s s' : Point2d * Vector2d) :
  tilemap.move_step m size fraction s = Some s' ->
  tilemap.test_box m (fst s) size = Some false ->
  tilemap.test_box m (fst s') size = Some false.
Proof.
  destruct s as [pos vel]. intros Hstep Hclear.
  apply tilemap_move_step_cases in Hstep. cbv zeta in Hstep.
  destruct Hstep as [[Hc ->] | [Hc (cy & cx & Hy & Hx & ->)]]; [exact Hc|].
  cbn [fst] in Hclear. destruct cy, cx; cbn [fst].
  - rewrite point_eta. exact Hclear.
  - exact Hx.
  - exact Hy.
  - exact Hclear.
Qed.

(** A velocity component that is 0 stays 0. *)
Lemma tilemap_move_step_zero (s s' : Point2d * Vector2d) :
  tilemap.move_step m size fraction s = Some s' ->
  (x (snd s) = 0%float -> x (snd s') = 0%float) /\
  (y (snd s) = 0%float -> y (snd s') = 0%float).
Proof.
  destruct s as [pos vel]. intros Hstep.
  apply tilemap_move_step_cases in Hstep. cbv zeta in Hstep.
  destruct Hstep as [[Hc ->] | [Hc (cy & cx & Hy & Hx & ->)]];
    [split; auto|].
  destruct cy, cx; cbn [snd x y]; split; auto.
Qed.

Lemma tilemap_move_loop_zero {A} (items : list A) (s s' : Point2d * Vector2d) :
  for_in items (fun _ => tilemap.move_step m size fraction) s = Some s' ->
  (x (snd s) = 0%float -> x (snd s') = 0%float) /\
  (y (snd s) = 0%float -> y (snd s') = 0%float).
Proof.
  intros H. split; intros H0; revert H0.
  - apply (for_in_invariant (fun s => x (snd s) = 0%float)
             (fun _ : A => tilemap.move_step m size fraction)) with (2 := H).
    intros _ t t' Ht. apply (tilemap_move_step_zero t t' Ht).
  - apply (for_in_invariant (fun s => y (snd s) = 0%float)
             (fun _ : A => tilemap.move_step m size fraction)) with (2 := H).
    intros _ t t' Ht. apply (tilemap_move_step_zero t t' Ht).
Qed.

Lemma tilemap_move_loop_keeps_clear {A} (items : list A)
      (s s' : Point2d * Vector2d) :
  tilemap.test_box m (fst s) size = Some false ->
  for_in items (fun _ => tilemap.move_step m size fraction) s = Some s' ->
  tilemap.test_box m (fst s') size = Some false.
Proof.
  intros Hclear H. revert Hclear.
  apply (for_in_invariant
           (fun s => tilemap.test_box m (fst s) size = Some false)
           (fun _ : A => tilemap.move_step m size fraction)) with (2 := H).
  intros _ t t'. apply tilemap_move_step_keeps_clear.
Qed.

(** A body at rest stays where it is, when basic2d lets it. *)
Lemma tilemap_move_step_at_rest (s s' : Point2d * Vector2d) :
  rest_is_rest basic2d -> value fraction <> None ->
  tilemap.move_step m size fraction s = Some s' ->
  snd s = mkPoint2d 0 0 ->
  snd s' = mkPoint2d 0 0 /\ same_place (fst s') (fst s).
Proof.
  intros [_ Hrest] Hf. destruct s as [pos vel]. cbn [fst snd].
  intros H ->. pose proof (Hrest pos fraction Hf) as [Hx Hy].
  apply tilemap_move_step_cases in H. cbv zeta in H.
  destruct H as [[_ ->] | [_ (cy & cx & _ & _ & ->)]]; cbn [fst snd].
  - split; [reflexivity | split; assumption].
  - destruct cy, cx; cbn [fst snd x y]; (split; [reflexivity|]).
    + rewrite point_eta. apply same_place_refl.
    + split; [exact Hx | apply same_number_refl].
    + split; [apply same_number_refl | exact Hy].
    + apply same_place_refl.
Qed.

Lemma tilemap_move_loop_at_rest {A} (items : list A)
      (s s' : Point2d * Vector2d) :
  rest_is_rest basic2d -> value fraction <> None ->
  snd s = mkPoint2d 0 0 ->
  for_in items (fun _ => tilemap.move_step m size fraction) s = Some s' ->
  snd s' = mkPoint2d 0 0 /\ same_place (fst s') (fst s).
Proof.
  intros Hrest Hf Hv H.
  apply (for_in_invariant
           (fun t => snd t = mkPoint2d 0 0 /\ same_place (fst t) (fst s))
           (fun _ : A => tilemap.move_step m size fraction)) with (2 := H).
  - intros _ t t' Ht [Vt Pt].
    destruct (tilemap_move_step_at_rest t t' Hrest Hf Ht Vt) as [V' P'].
    split; [exact V' | eapply same_place_trans; eauto].
  - split; [exact Hv | apply same_place_refl].
Qed.

End Tilemap.

Lemma tilemap_move_box_from_sub_step {basic2d : tilemap.Basic2d}
      (m : Map) (size : Vector2d) (fraction : float)
      (pos0 vel0 : Point2d) (maximum k : Z) (s s1 r : Point2d * Vector2d) :
  tilemap_sub_stepping vel0 maximum fraction -> (0 <= k <= maximum)%Z ->
  for_in (range 0 k) (fun _ => tilemap.move_step m size fraction) (pos0, vel0)
  = Some s ->
  tilemap.move_step m size fraction s = Some s1 ->
  tilemap.move_box m pos0 vel0 size = Some r ->
  for_in (range (k + 1) (maximum + 1))
         (fun _ => tilemap.move_step m size fraction) s1 = Some r.
Proof.
  intros Hsub Hk Hs Hstep Hbox.
  rewrite (tilemap_sub_stepping_runs m size fraction pos0 vel0 maximum Hsub)
    in Hbox.
  rewrite (for_in_sub_step (tilemap.move_step m size fraction) maximum k _ Hk)
    in Hbox.
  rewrite Hs in Hbox. cbn [bind] in Hbox. rewrite Hstep in Hbox.
  exact Hbox.
Qed.

(** On the vectors of plat.py, tilemap.py's sub-step is plat.py's with the
    collision set left out. *)
Lemma tilemap_move_step_forgets (m : Map) (size : Vector2d) (fraction : float)
      (s : Sweep) :
  tilemap.move_step (basic2d := plat_vectors) m size fraction (s_pos s, s_vel s)
  = option_map (fun s' => (s_pos s', s_vel s')) (move_step m size fraction s).
Proof.
  unfold tilemap.move_step, move_step. cbv zeta.
  change (@tilemap.test_box plat_vectors) with test_box.
  change (@tilemap.add plat_vectors) with Point2d_add.
  change (@tilemap.mul plat_vectors) with Point2d_mul.
  destruct (test_box m _ size) as [[|]|]; cbn [bind option_map]; try reflexivity.
  destruct (test_box m _ size) as [[|]|]; cbn [bind option_map x y];
    try reflexivity;
    destruct (test_box m _ size) as [[|]|]; cbn [bind option_map negb];
    reflexivity.
Qed.

Lemma tilemap_move_loop_forgets {A} (m : Map) (size : Vector2d)
      (fraction : float) (items : list A) (s : Sweep) :
  for_in items (fun _ => tilemap.move_step (basic2d := plat_vectors) m size fraction)
         (s_pos s, s_vel s)
  = option_map (fun s' => (s_pos s', s_vel s'))
               (for_in items (fun _ => move_step m size fraction) s).
Proof.
  revert s. induction items as [|a items IH]; intros s; [reflexivity|].
  cbn [for_in]. rewrite tilemap_move_step_forgets.
  destruct (move_step m size fraction s) as [s1|]; cbn [bind option_map];
    [apply IH | reflexivity].
Qed.

Lemma rest_is_rest_plat : rest_is_rest plat_vectors.
Proof.
  split; [vm_compute; reflexivity|].
  intros p f Hf. destruct (zero_mul_finite f Hf) as [z Hz].
  apply (candidate_at_rest p f z Hz).
Qed.

(** C10. Non-penetration: from a position whose box touches no solid tile,
    every position the loop of [move_box] commits, after any number of
    sub-steps, and so the position [move_box] returns, is again one whose
    box touches no solid tile. *)
Theorem move_box_keeps_clear (m : Map) (pos vel size : Point2d) :
  test_box m pos size = Some false ->
  (forall (fraction : float) (items : list Z) (s : Sweep),
     for_in items (fun _ => move_step m size fraction)
            (mkSweep (empty_set Collision) pos vel) = Some s ->
     test_box m (s_pos s) size = Some false) /\
  (forall r, move_box m pos vel size = Some r ->
     exists result pos' vel',
       r = Moved result pos' vel' /\ test_box m pos' size = Some false).
Proof.
  intros Hclear. split.
  - intros fraction items s H.
    eapply move_loop_keeps_clear; [|exact H]. exact Hclear.
  - intros r H. apply move_box_inv in H.
    destruct H as (maximum & d & fraction & s & _ & _ & _ & Hloop & ->).
    exists (s_result s), (s_pos s), (s_vel s). split; [reflexivity|].
    eapply move_loop_keeps_clear; [|exact Hloop]. exact Hclear.
Qed.

Lemma move_box_keeps_clear_witness :
  test_box wall (mkPoint2d 58.5 20) (mkPoint2d 8 8) = Some false /\
  exists result pos' vel',
    move_box wall (mkPoint2d 58.5 20) (mkPoint2d 3 0.5) (mkPoint2d 8 8)
    = Some (Moved result pos' vel') /\
    test_box wall pos' (mkPoint2d 8 8) = Some false.
Proof.
  assert (H : test_box wall (mkPoint2d 58.5 20) (mkPoint2d 8 8) = Some false)
    by (vm_compute; reflexivity).
  split; [exact H|].
  destruct (move_box_keeps_clear wall (mkPoint2d 58.5 20) (mkPoint2d 3 0.5)
              (mkPoint2d 8 8) H) as [_ K].
  assert (E0 : move_box wall (mkPoint2d 58.5 20) (mkPoint2d 3 0.5)
                        (mkPoint2d 8 8)
               = Some (Moved [X] (mkPoint2d 59.25 20.5) (mkPoint2d 0 0.5)))
    by (vm_compute; reflexivity).
  destruct (K _ E0) as (result & pos' & vel' & E & C).
  exists result, pos', vel'. split; [|exact C].
  rewrite <- E. exact E0.
Defined.




(** A body that moves diagonally into the wall slides along it. *)
Example diagonal_into_wall_slides :
  move_box wall (mkPoint2d 58.5 20) (mkPoint2d 3 0.5) (mkPoint2d 8 8)
  = Some (Moved [X] (mkPoint2d 59.25 20.5) (mkPoint2d 0 0.5)).
Proof. vm_compute. reflexivity. Qed.

(** C5, as the code has it.  In a sub-step of plat.py's [move_box] whose
    combined move collides while neither single-axis test does, the
    resolver records [CORNER], stays at the old position and sets the
    velocity to (0, 0); the sub-steps that remain then leave the position
    where it is, so that [move_box] returns a set that holds [CORNER], the
    velocity (0, 0) and the position of that sub-step.  tilemap.py's
    [move_box] stops the same way, on any basic2d: the velocity becomes
    (0, 0), stays so and is returned so, and the position stays where it
    is when basic2d leaves a point at rest in place; it keeps no collision
    set and returns [(pos, vel)] alone. *)
Theorem move_step_corner (m : Map) (size : Vector2d) (fraction : float) (s : Sweep) :
  let pos := s_pos s in
  (let candidate := Point2d_add pos (Point2d_mul (s_vel s) fraction) in
   let stopped := mkSweep (set_add Collision_eq_dec CORNER (s_result s))
                          pos (mkPoint2d 0 0) in
   test_box m candidate size = Some true ->
   test_box m (mkPoint2d (x pos) (y candidate)) size = Some false ->
   test_box m (mkPoint2d (x candidate) (y pos)) size = Some false ->
   move_step m size fraction s = Some stopped /\
   (forall (items : list Z) (s' : Sweep),
      for_in items (fun _ => move_step m size fraction) stopped = Some s' ->
      same_place (s_pos s') pos /\ s_vel s' = mkPoint2d 0 0 /\
      set_In CORNER (s_result s')) /\
   (forall items : list Z,
      value fraction <> None -> test_box m pos size <> None ->
      for_in items (fun _ => move_step m size fraction) stopped <> None) /\
   (forall pos0 vel0 result pos' vel',
      move_box m pos0 vel0 size = Some (Moved result pos' vel') ->
      set_In CORNER result -> vel' = mkPoint2d 0 0) /\
   (forall pos0 vel0 maximum k result pos' vel',
      sub_stepping vel0 maximum fraction -> (0 <= k <= maximum)%Z ->
      for_in (range 0 k) (fun _ => move_step m size fraction)
             (mkSweep (empty_set Collision) pos0 vel0) = Some s ->
      move_box m pos0 vel0 size = Some (Moved result pos' vel') ->
      set_In CORNER result /\ vel' = mkPoint2d 0 0 /\ same_place pos' pos)) /\
  (forall basic2d : tilemap.Basic2d,
   let candidate := tilemap.add pos (tilemap.mul (s_vel s) fraction) in
   tilemap.test_box m candidate size = Some true ->
   tilemap.test_box m (mkPoint2d (x pos) (y candidate)) size = Some false ->
   tilemap.test_box m (mkPoint2d (x candidate) (y pos)) size = Some false ->
   tilemap.move_step m size fraction (pos, s_vel s)
   = Some (pos, mkPoint2d 0 0) /\
   (forall (items : list Z) (s' : Point2d * Vector2d),
      for_in items (fun _ => tilemap.move_step m size fraction)
             (pos, mkPoint2d 0 0) = Some s' ->
      snd s' = mkPoint2d 0 0 /\
      (rest_is_rest basic2d -> value fraction <> None ->
       same_place (fst s') pos)) /\
   (forall pos0 vel0 maximum k pos' vel',
      tilemap_sub_stepping vel0 maximum fraction -> (0 <= k <= maximum)%Z ->
      for_in (range 0 k) (fun _ => tilemap.move_step m size fraction)
             (pos0, vel0) = Some (pos, s_vel s) ->
      tilemap.move_box m pos0 vel0 size = Some (pos', vel') ->
      vel' = mkPoint2d 0 0 /\
      (rest_is_rest basic2d -> value fraction <> None ->
       same_place pos' pos))).
Proof.
  cbv zeta. split.
  - intros Hc Hy Hx.
    pose proof (move_step_resolved m size fraction s false false Hc Hy Hx)
      as Hstep.
    assert (Rest : forall (items : list Z) (s' : Sweep),
              for_in items (fun _ => move_step m size fraction)
                     (mkSweep (set_add Collision_eq_dec CORNER (s_result s))
                              (s_pos s) (mkPoint2d 0 0)) = Some s' ->
              same_place (s_pos s') (s_pos s) /\ s_vel s' = mkPoint2d 0 0 /\
              set_In CORNER (s_result s')).
    { intros items s' H.
      destruct (move_loop_at_rest m size fraction items
                  (mkSweep (set_add Collision_eq_dec CORNER (s_result s))
                           (s_pos s) (mkPoint2d 0 0))
                  s' eq_refl H) as (P & V & G).
      split; [exact P|]. split; [exact V|].
      apply G. simpl. apply set_add_intro2. reflexivity. }
    split; [exact Hstep|]. split; [exact Rest|]. split; [|split].
    + intros items Hf Hdef.
      apply move_loop_at_rest_returns; [exact Hf | exact Hdef | reflexivity].
    + intros pos0 vel0 result pos' vel' H Hin.
      apply move_box_inv in H.
      destruct H as (maximum & d & fraction0 & s' & _ & _ & _ & Hloop & E).
      injection E as -> -> ->.
      pose proof (move_loop_stopped_by m size fraction0 _ _ _ Hloop) as St.
      destruct St as (_ & _ & SC).
      { repeat split; intros []. }
      exact (SC Hin).
    + intros pos0 vel0 maximum k result pos' vel' Hsub Hk Hs Hbox.
      destruct (move_box_from_sub_step m size fraction pos0 vel0 maximum k
                  s _ result pos' vel' Hsub Hk Hs Hstep Hbox)
        as (s' & Hrest & -> & -> & -> & _).
      destruct (Rest _ _ Hrest) as (P & V & C).
      split; [exact C|]. split; [exact V | exact P].
  - intros basic2d Hc Hy Hx.
    pose proof (tilemap_move_step_resolved m size fraction _ _ false false
                  Hc Hy Hx) as Hstep.
    assert (Rest : forall (A : Type) (items : list A) (s' : Point2d * Vector2d),
              for_in items (fun _ => tilemap.move_step m size fraction)
                     (s_pos s, mkPoint2d 0 0) = Some s' ->
              snd s' = mkPoint2d 0 0 /\
              (rest_is_rest basic2d -> value fraction <> None ->
               same_place (fst s') (s_pos s))).
    { intros A items s' H. split.
      - destruct (tilemap_move_loop_zero m size fraction items _ _ H)
          as [Zx Zy].
        cbn [snd x y] in Zx, Zy. specialize (Zx eq_refl).
        specialize (Zy eq_refl).
        destruct (snd s') as [vx vy]. cbn [x y] in Zx, Zy. subst. reflexivity.
      - intros Hrest Hf.
        apply (tilemap_move_loop_at_rest m size fraction items
                 (s_pos s, mkPoint2d 0 0) s' Hrest Hf eq_refl H). }
    split; [exact Hstep|]. split; [apply Rest|].
    intros pos0 vel0 maximum k pos' vel' Hsub Hk Hs Hbox.
    pose proof (tilemap_move_box_from_sub_step m size fraction pos0 vel0
                  maximum k _ _ _ Hsub Hk Hs Hstep Hbox) as Hrest.
    apply (Rest _ _ _ Hrest).
Qed.

Lemma move_step_corner_witness :
  let s := mkSweep (empty_set Collision) (mkPoint2d 59 59) (mkPoint2d 1 1) in
  test_box lone (mkPoint2d 59.5 59.5) (mkPoint2d 8 8) = Some true /\
  test_box lone (mkPoint2d 59 59.5) (mkPoint2d 8 8) = Some false /\
  test_box lone (mkPoint2d 59.5 59) (mkPoint2d 8 8) = Some false /\
  move_step lone (mkPoint2d 8 8) 0.5 s
  = Some (mkSweep [CORNER] (mkPoint2d 59 59) (mkPoint2d 0 0)) /\
  (exists result pos' vel',
     move_box lone (mkPoint2d 59 59) (mkPoint2d 1 1) (mkPoint2d 8 8)
     = Some (Moved result pos' vel') /\
     set_In CORNER result /\ vel' = mkPoint2d 0 0 /\
     same_place pos' (mkPoint2d 59 59)) /\
  (exists pos' vel',
     tilemap.move_box (basic2d := plat_vectors)
                      lone (mkPoint2d 59 59) (mkPoint2d 1 1) (mkPoint2d 8 8)
     = Some (pos', vel') /\
     vel' = mkPoint2d 0 0 /\ same_place pos' (mkPoint2d 59 59)).
Proof.
  cbv zeta.
  assert (Hc : test_box lone (mkPoint2d 59.5 59.5) (mkPoint2d 8 8)
               = Some true) by (vm_compute; reflexivity).
  assert (Hy : test_box lone (mkPoint2d 59 59.5) (mkPoint2d 8 8)
               = Some false) by (vm_compute; reflexivity).
  assert (Hx : test_box lone (mkPoint2d 59.5 59) (mkPoint2d 8 8)
               = Some false) by (vm_compute; reflexivity).
  assert (Hsub : sub_stepping (mkPoint2d 1 1) 1 0.5).
  { split; [vm_compute; reflexivity|].
    exists 2%float. split; vm_compute; reflexivity. }
  assert (Hsub' : tilemap_sub_stepping (basic2d := plat_vectors)
                    (mkPoint2d 1 1) 1 0.5).
  { split; [vm_compute; reflexivity|]. split; [vm_compute; reflexivity|].
    exists 2%float. split; vm_compute; reflexivity. }
  assert (Hk : (0 <= 0 <= 1)%Z) by lia.
  assert (Hf : value 0.5 <> None) by (vm_compute; discriminate).
  set (s := mkSweep (empty_set Collision) (mkPoint2d 59 59) (mkPoint2d 1 1)).
  split; [exact Hc|]. split; [exact Hy|]. split; [exact Hx|].
  destruct (move_step_corner lone (mkPoint2d 8 8) 0.5 s) as [Plat Tile].
  destruct (Plat Hc Hy Hx) as (Step & _ & _ & _ & Run).
  split; [exact Step|]. split.
  - destruct (move_box lone (mkPoint2d 59 59) (mkPoint2d 1 1) (mkPoint2d 8 8))
      as [[result pos' vel'|result]|] eqn:E;
      [|vm_compute in E; discriminate E|vm_compute in E; discriminate E].
    exists result, pos', vel'. split; [reflexivity|].
    exact (Run _ _ _ _ _ _ _ Hsub Hk eq_refl E).
  - destruct (tilemap.move_box (basic2d := plat_vectors) lone
                (mkPoint2d 59 59) (mkPoint2d 1 1) (mkPoint2d 8 8))
      as [[pos' vel']|] eqn:E; [|vm_compute in E; discriminate E].
    exists pos', vel'. split; [reflexivity|].
    destruct (Tile plat_vectors Hc Hy Hx) as (_ & _ & Run').
    destruct (Run' _ _ _ _ _ _ Hsub' Hk eq_refl E) as [V P].
    split; [exact V | exact (P rest_is_rest_plat Hf)].
Defined.

(** C5, as the claim has it, fails for tilemap.py: its [move_box] stops at
    the corner of the lone tile, and returns the position and the zero
    velocity alone; no [CORNER] is reported. *)
Lemma tilemap_move_box_reports_no_corner :
  exists r,
    tilemap.move_box (basic2d := plat_vectors)
                     lone (mkPoint2d 59 59) (mkPoint2d 1 1) (mkPoint2d 8 8)
    = Some r /\
    r = (mkPoint2d 59 59, mkPoint2d 0 0) /\
    collisions_in (returned_by_tilemap r) = None /\
    ~ exists result,
        collisions_in (returned_by_tilemap r) = Some result /\
        set_In CORNER result.
Proof.
  eexists. split; [vm_compute; reflexivity|]. split; [reflexivity|].
  split; [reflexivity|]. intros (result & H & _). discriminate H.
Qed.

(** A body that moves diagonally into the corner of a lone tile stops. *)
Example diagonal_into_lone_tile_stops :
  move_box lone (mkPoint2d 59 59) (mkPoint2d 1 1) (mkPoint2d 8 8)
  = Some (Moved [CORNER] (mkPoint2d 59 59) (mkPoint2d 0 0)).
Proof. vm_compute. reflexivity. Qed.

(** A float whose difference with another rounds is finite itself. *)
Lemma value_of_sub (a h : float) : value (a - h) <> None -> value a <> None.
Proof.
  unfold value. rewrite sub_spec.
  destruct (Prim2SF a) as [sa | sa | | sa ma ea]; try discriminate.
  - destruct (Prim2SF h) as [sh | sh | | sh mh eh]; simpl; try congruence;
      destruct sa, sh; simpl; congruence.
  - destruct (Prim2SF h); simpl; congruence.
Qed.

Lemma test_box_finite (m : Map) (pos size : Point2d) (b : bool) :
  test_box m pos size = Some b ->
  value (x pos) <> None /\ value (y pos) <> None.
Proof.
  unfold test_box. cbv zeta. unfold is_solid at 1. cbn [x y].
  unfold round at 1 2.
  destruct (value (x pos - x (Point2d_mul size 0.5))) as [qx|] eqn:Ex;
    [|discriminate].
  destruct (value (y pos - y (Point2d_mul size 0.5))) as [qy|] eqn:Ey;
    [|discriminate].
  intros _. split; eapply value_of_sub; [rewrite Ex | rewrite Ey]; discriminate.
Qed.

Lemma SFcompare_refl (f : spec_float) :
  SF2Q f <> None -> SFcompare f f = Some Eq.
Proof.
  destruct f as [s | s | | s mf ef]; simpl; try congruence; intros _.
  destruct s; rewrite Z.compare_refl; rewrite Pos.compare_cont_refl;
    reflexivity.
Qed.

Lemma add_zero_eqb (a : float) :
  value a <> None -> PrimFloat.eqb (a + 0) a = true.
Proof.
  unfold value. intros H. rewrite FloatAxioms.eqb_spec, add_spec.
  change (Prim2SF 0) with (S754_zero false). unfold SFeqb.
  destruct (Prim2SF a) as [sa | sa | | sa ma ea] eqn:E.
  - destruct sa; reflexivity.
  - exfalso. apply H. reflexivity.
  - exfalso. apply H. reflexivity.
  - change (SF64add (S754_finite sa ma ea) (S754_zero false))
      with (S754_finite sa ma ea).
    rewrite SFcompare_refl; [reflexivity | discriminate].
Qed.

Lemma add_zero_exact (a : float) : a <> neg_zero -> (a + 0)%float = a.
Proof.
  intros H. apply Prim2SF_inj. rewrite add_spec.
  change (Prim2SF 0) with (S754_zero false).
  destruct (Prim2SF a) as [[|] | sa | | sa ma ea] eqn:E; try reflexivity.
  exfalso. apply H. apply Prim2SF_inj. rewrite E. reflexivity.
Qed.

(** C6, as the code has it.  From a position whose box touches no solid
    tile, plat.py's [move_box] with velocity (0, 0) returns an empty
    collision set, velocity (0, 0) and the position it started from: each
    coordinate comes back as [c + 0.0], which is the same number, equal
    under [==], and the very same float unless [c] is the negative zero.
    tilemap.py's [move_box], on a basic2d whose zero vector has norm 0 and
    moves no point, returns velocity (0, 0) and the same position, and
    nothing else: it has no collision set to return. *)
Theorem move_box_zero_velocity (m : Map) (pos size : Point2d) :
  (test_box m pos size = Some false ->
   exists pos',
     move_box m pos (mkPoint2d 0 0) size
     = Some (Moved (empty_set Collision) pos' (mkPoint2d 0 0)) /\
     value (x pos') = value (x pos) /\
     value (y pos') = value (y pos) /\
     PrimFloat.eqb (x pos') (x pos) = true /\
     PrimFloat.eqb (y pos') (y pos) = true /\
     (x pos <> neg_zero -> x pos' = x pos) /\
     (y pos <> neg_zero -> y pos' = y pos)) /\
  (forall basic2d : tilemap.Basic2d,
     rest_is_rest basic2d ->
     tilemap.test_box m pos size = Some false ->
     exists pos',
       tilemap.move_box m pos (mkPoint2d 0 0) size
       = Some (pos', mkPoint2d 0 0) /\
       same_place pos' pos /\
       value (x pos') = value (x pos) /\
       value (y pos') = value (y pos)).
Proof.
  split.
  - intros Hclear.
    exists (Point2d_add pos (Point2d_mul (mkPoint2d 0 0) 1)).
    assert (Hsame : same_place (Point2d_add pos (Point2d_mul (mkPoint2d 0 0) 1)) pos)
      by (apply (candidate_at_rest pos 1 false); reflexivity).
    destruct (test_box_finite m pos size false Hclear) as [Fx Fy].
    split; [|repeat split].
    + unfold move_box. cbv zeta.
      change (Point2d_len (mkPoint2d 0 0)) with 0%float.
      change (int 0) with (Some 0%Z). cbn [bind].
      change (PrimFloat.ltb 0 0) with false. cbv iota.
      change (float_of_int (0 + 1)) with (Some 1%float). cbn [bind].
      change (truediv 1 1) with (Some 1%float). cbn [bind].
      change (range 0 (0 + 1)) with [0%Z]. cbn [for_in].
      unfold move_step. cbv zeta. cbn [s_pos s_vel s_result].
      rewrite (test_box_same m _ pos size Hsame), Hclear. reflexivity.
    + apply same_number_value. apply Hsame.
    + apply same_number_value. apply Hsame.
    + apply add_zero_eqb. exact Fx.
    + apply add_zero_eqb. exact Fy.
    + apply add_zero_exact.
    + apply add_zero_exact.
  - intros basic2d [Hnorm Hrest] Hclear.
    assert (F1 : value 1 <> None) by (vm_compute; discriminate).
    pose proof (Hrest pos 1%float F1) as Hsame.
    exists (tilemap.add pos (tilemap.mul (mkPoint2d 0 0) 1)).
    split; [|split; [exact Hsame|split; apply same_number_value; apply Hsame]].
    unfold tilemap.move_box. cbv zeta. rewrite Hnorm.
    change (int 0) with (Some 0%Z). cbn [bind].
    change (PrimFloat.ltb 0 0) with false. cbv iota.
    change (float_of_int (0 + 1)) with (Some 1%float). cbn [bind].
    change (truediv 1 1) with (Some 1%float). cbn [bind].
    change (range 0 (0 + 1)) with [0%Z]. cbn [for_in].
    unfold tilemap.move_step. cbv zeta.
    rewrite (tilemap_test_box_same m size _ pos Hsame), Hclear. reflexivity.
Qed.

Lemma move_box_zero_velocity_witness :
  test_box wall (mkPoint2d 58.5 20) (mkPoint2d 8 8) = Some false /\
  (exists pos',
     move_box wall (mkPoint2d 58.5 20) (mkPoint2d 0 0) (mkPoint2d 8 8)
     = Some (Moved (empty_set Collision) pos' (mkPoint2d 0 0)) /\
     x pos' = 58.5%float /\ y pos' = 20%float) /\
  (exists pos',
     tilemap.move_box (basic2d := plat_vectors)
                      wall (mkPoint2d 58.5 20) (mkPoint2d 0 0) (mkPoint2d 8 8)
     = Some (pos', mkPoint2d 0 0) /\
     same_place pos' (mkPoint2d 58.5 20)).
Proof.
  assert (H : test_box wall (mkPoint2d 58.5 20) (mkPoint2d 8 8) = Some false)
    by (vm_compute; reflexivity).
  split; [exact H|].
  destruct (move_box_zero_velocity wall (mkPoint2d 58.5 20) (mkPoint2d 8 8))
    as [Plat Tile].
  split.
  - destruct (Plat H) as (pos' & E & _ & _ & _ & _ & Hx & Hy).
    exists pos'. split; [exact E|].
    split; [apply Hx | apply Hy]; intros C; vm_compute in C; discriminate C.
  - destruct (Tile plat_vectors rest_is_rest_plat H) as (pos' & E & P & _).
    exists pos'. split; [exact E | exact P].
Defined.

(** C6, as the claim has it, fails for tilemap.py: with velocity (0, 0)
    its [move_box] returns the position and the velocity, and no collision
    set, empty or not. *)
Lemma tilemap_move_box_returns_no_set :
  exists r,
    tilemap.test_box (basic2d := plat_vectors)
                     wall (mkPoint2d 58.5 20) (mkPoint2d 8 8) = Some false /\
    tilemap.move_box (basic2d := plat_vectors)
                     wall (mkPoint2d 58.5 20) (mkPoint2d 0 0) (mkPoint2d 8 8)
    = Some r /\
    r = (mkPoint2d 58.5 20, mkPoint2d 0 0) /\
    collisions_in (returned_by_tilemap r) <> Some (empty_set Collision).
Proof.
  eexists. split; [vm_compute; reflexivity|].
  split; [vm_compute; reflexivity|]. split; [reflexivity|]. discriminate.
Qed.

(** ** C1: the tick in which restart is set *)

(** C1, as the code has it. In a tick in which restart is set, [physics]
    first puts the player back at the spawn point with zero velocity and
    then runs the rest of the tick from there: the ground test, the jump,
    gravity, the horizontal blend, the clamp and [move_box] all happen, as
    in a tick without restart that starts from the spawn state. *)
Theorem physics_restart_continues (g : Game) :
  inputs g RESTART = true ->
  option_map player (physics g)
  = option_map player
      (physics (mkGame (set_input (inputs g) RESTART false) restart (map g))).
Proof.
  intros H. unfold physics. rewrite H. cbn [inputs player map].
  unfold set_input.
  destruct (Input_eq_dec RESTART RESTART) as [_|C]; [|congruence].
  destruct (Input_eq_dec RESTART JUMP) as [C|_]; [discriminate|].
  destruct (Input_eq_dec RESTART RIGHT) as [C|_]; [discriminate|].
  destruct (Input_eq_dec RESTART LEFT) as [C|_]; [discriminate|].
  destruct (on_ground (map g) (pos restart) PLAYER_SIZE) as [ground|];
    cbn [bind]; [|reflexivity].
  destruct (float_of_int _) as [direction|]; cbn [bind]; [|reflexivity].
  destruct (move_box _ _ _ _) as [[result pos' vel'|result]|]; reflexivity.
Qed.

Lemma physics_restart_continues_witness :
  pressing RESTART RESTART = true /\
  option_map player
    (physics (mkGame (pressing RESTART)
                     (mkPlayer (mkPoint2d 3 4) (mkPoint2d 1 1)) open_air))
  = option_map player (physics (mkGame no_inputs restart open_air)).
Proof.
  split; [reflexivity|].
  rewrite (physics_restart_continues
             (mkGame (pressing RESTART)
                     (mkPlayer (mkPoint2d 3 4) (mkPoint2d 1 1)) open_air)
             eq_refl).
  vm_compute. reflexivity.
Defined.

(** C1, as the claim has it, fails: over open air a restart tick ends with
    the player 0.75 below the spawn point, falling at 0.75 per tick. *)
Lemma restart_tick_applies_gravity :
  pressing RESTART RESTART = true /\
  option_map player
    (physics (mkGame (pressing RESTART)
                     (mkPlayer (mkPoint2d 3 4) (mkPoint2d 1 1)) open_air))
  = Some (mkPlayer (mkPoint2d 170 500.75) (mkPoint2d 0 0.75)) /\
  mkPlayer (mkPoint2d 170 500.75) (mkPoint2d 0 0.75) <> restart.
Proof.
  split; [reflexivity|]. split; [vm_compute; reflexivity|].
  intros C.
  apply (f_equal (fun p => PrimFloat.eqb (y (pos p)) 500)) in C.
  vm_compute in C. discriminate C.
Qed.

(** ** C8: loading the map file *)

Lemma read_words_parsed (max_str_digits : Z) (words : list string)
      (tiles : list Z) (width : Z) :
  (forall w, In w (filter is_word words) ->
             int_of_string max_str_digits w <> None) ->
  exists values,
    read_words max_str_digits words tiles width
    = inr (tiles ++ values,
           (width + Z.of_nat (List.length (filter is_word words)))%Z) /\
    List.length values = List.length (filter is_word words).
Proof.
  revert tiles width.
  induction words as [|word rest IH]; intros tiles width H; simpl.
  - exists []. rewrite app_nil_r, Z.add_0_r. auto.
  - destruct word as [|c w]; simpl in *.
    + apply IH. exact H.
    + destruct (int_of_string max_str_digits (String c w)) as [value|] eqn:E.
      * destruct (IH (tiles ++ [value]) (width + 1)%Z) as (values & Hr & Hl).
        { intros w' Hw'. apply H. right. exact Hw'. }
        exists (value :: values). rewrite Hr. split.
        -- rewrite <- app_assoc. simpl. f_equal. f_equal. lia.
        -- simpl. rewrite Hl. reflexivity.
      * exfalso. apply (H (String c w)); [left; reflexivity | exact E].
Qed.

Lemma last_cons {A} (a : A) (l : list A) (d : A) :
  last (a :: l) d = last l a.
Proof.
  revert a d. induction l as [|b l IH]; intros a d; [reflexivity|].
  change (last (a :: b :: l) d) with (last (b :: l) d).
  rewrite (IH b d), (IH b a). reflexivity.
Qed.

Lemma read_lines_parsed (max_str_digits : Z) (lines : list string) (m : Map) :
  (forall line w, In line lines -> In w (words_of line) ->
                  int_of_string max_str_digits w <> None) ->
  if widths_ok (counts_of lines) (width m) then
    exists values,
      read_lines max_str_digits lines m
      = inr (mkMap (last (counts_of lines) (width m))
                   (height m + Z.of_nat (List.length lines))
                   (tiles m ++ values)) /\
      Z.of_nat (List.length values) = fold_right Z.add 0%Z (counts_of lines)
  else read_lines max_str_digits lines m = inl RuntimeError.
Proof.
  revert m. induction lines as [|line rest IH]; intros m H.
  - simpl. exists []. rewrite app_nil_r, Z.add_0_r. destruct m; auto.
  - cbn [counts_of List.map widths_ok read_lines].
    destruct (read_words_parsed max_str_digits (split_space line) (tiles m) 0) as (vals & Hr & Hl).
    { intros w Hw. apply (H line w); [left; reflexivity | exact Hw]. }
    rewrite Hr. rewrite Z.add_0_l. fold (words_of line).
    destruct ((0 <? width m)%Z && negb (width m =? Z.of_nat (List.length (words_of line)))%Z);
      [reflexivity|].
    specialize (IH (mkMap (Z.of_nat (List.length (words_of line))) (height m + 1) (tiles m ++ vals))).
    cbn [width height tiles] in IH. fold (counts_of rest).
    destruct (widths_ok (counts_of rest) (Z.of_nat (List.length (words_of line)))).
    + destruct IH as (values & Hrest & Hsum).
      { intros l w Hl' Hw. apply (H l w); [right; exact Hl' | exact Hw]. }
      exists (vals ++ values). rewrite Hrest. split.
      * f_equal. f_equal.
        -- symmetry. apply last_cons.
        -- cbn [List.length]. lia.
        -- rewrite app_assoc. reflexivity.
      * rewrite length_app. cbn [fold_right]. fold (words_of line) in Hl. lia.
    + apply IH. intros l w Hl' Hw. apply (H l w); [right; exact Hl' | exact Hw].
Qed.

Lemma all_but_last_map {A B} (f : A -> B) (P : B -> Prop) (l : list A) :
  all_but_last (fun a => P (f a)) l -> all_but_last P (List.map f l).
Proof.
  induction l as [|a rest IH]; simpl; [auto|].
  intros [Ha Hrest]. split; [|apply IH; exact Hrest].
  destruct rest; simpl; auto.
Qed.

Lemma ends_lf_cons (c : ascii) (line : string) :
  ends_lf line = true -> ends_lf (String c line) = true.
Proof. destruct line; simpl; [discriminate | auto]. Qed.

(** Every line that [readlines] gives, but for the last, ends in a line feed. *)
Lemma readlines_ends_lf (text : string) :
  all_but_last (fun line => ends_lf line = true) (readlines text).
Proof.
  induction text as [|c rest IH]; simpl; [exact I|].
  destruct (Ascii.eqb c LF) eqn:E.
  - simpl. split; [|exact IH].
    destruct (readlines rest); [exact I | exact E].
  - destruct (readlines rest) as [|line lines]; simpl; [auto|].
    simpl in IH. destruct IH as [Hl Hrest]. split; [|exact Hrest].
    destruct lines; [exact I|]. apply ends_lf_cons. exact Hl.
Qed.

Lemma split_space_nonempty (line : string) : split_space line <> [].
Proof.
  destruct line as [|c rest]; simpl; [discriminate|].
  destruct (Ascii.eqb c SPACE); [discriminate|].
  destruct (split_space rest); discriminate.
Qed.

(** A line that ends in a line feed has a word. *)
Lemma ends_lf_has_word (line : string) :
  ends_lf line = true ->
  exists w, In w (split_space line) /\ is_word w = true.
Proof.
  induction line as [|c rest IH]; simpl; [discriminate|].
  intros H.
  destruct (Ascii.eqb c SPACE) eqn:Es.
  - destruct rest as [|c' rest'].
    + apply Ascii.eqb_eq in Es. subst c. discriminate H.
    + destruct (IH H) as (w & Hw & Hn). exists w. split; [right; exact Hw | exact Hn].
  - destruct (split_space rest) as [|word words] eqn:Ew.
    + eexists. split; [left; reflexivity | reflexivity].
    + destruct rest as [|c' rest'].
      * eexists. split; [left; reflexivity | reflexivity].
      * destruct (IH H) as (w & [Hw|Hw] & Hn).
        -- eexists. split; [left; reflexivity | reflexivity].
        -- exists w. split; [right; exact Hw | exact Hn].
Qed.

Lemma ends_lf_words (line : string) :
  ends_lf line = true -> (1 <= Z.of_nat (List.length (words_of line)))%Z.
Proof.
  intros H. destruct (ends_lf_has_word line H) as (w & Hw & Hn).
  assert (Hin : In w (words_of line)) by (apply filter_In; auto).
  destruct (words_of line); [destruct Hin | simpl; lia].
Qed.

Lemma widths_ok_from (counts : list Z) (w : Z) :
  (counts = [] \/ 1 <= w)%Z ->
  all_but_last (fun c => 1 <= c)%Z counts ->
  widths_ok counts w = true <-> forall c, In c counts -> c = w.
Proof.
  revert w. induction counts as [|c rest IH]; intros w Hw Hall; simpl.
  - split; [intros _ c [] | reflexivity].
  - destruct Hw as [Hw|Hw]; [discriminate|].
    destruct Hall as [Hc Hrest].
    replace (0 <? w)%Z with true by (symmetry; apply Z.ltb_lt; lia).
    simpl. destruct (w =? c)%Z eqn:E; simpl.
    + apply Z.eqb_eq in E. subst c.
      rewrite (IH w); [|destruct rest; [left; reflexivity | right; exact Hc] | exact Hrest].
      split; [intros H c [<-|Hin]; auto | intros H c Hin; apply H; right; exact Hin].
    + apply Z.eqb_neq in E. split; [discriminate|].
      intros H. exfalso. apply E. symmetry. apply H. left; reflexivity.
Qed.

Lemma widths_ok_uniform (counts : list Z) :
  all_but_last (fun c => 1 <= c)%Z counts ->
  widths_ok counts 0 = true <-> forall c, In c counts -> c = hd 0%Z counts.
Proof.
  destruct counts as [|c rest]; simpl.
  - intros _. split; [intros _ c [] | reflexivity].
  - intros [Hc Hrest].
    rewrite (widths_ok_from rest c);
      [|destruct rest; [left; reflexivity | right; exact Hc] | exact Hrest].
    split; [intros H c' [<-|Hin]; auto | intros H c' Hin; apply H; right; exact Hin].
Qed.

Lemma uniform_sum (counts : list Z) (w : Z) :
  (forall c, In c counts -> c = w) ->
  fold_right Z.add 0%Z counts = (w * Z.of_nat (List.length counts))%Z.
Proof.
  induction counts as [|c rest IH]; intros H; [simpl; lia|].
  cbn [fold_right List.length]. rewrite IH by (intros c' Hc'; apply H; right; exact Hc').
  rewrite (H c) by (left; reflexivity). lia.
Qed.

Lemma uniform_last (counts : list Z) (w : Z) :
  (forall c, In c counts -> c = w) -> last counts w = w.
Proof.
  induction counts as [|c rest IH]; intros H; [reflexivity|].
  rewrite last_cons. rewrite (H c) by (left; reflexivity).
  apply IH. intros c' Hc'. apply H. right; exact Hc'.
Qed.

Lemma counts_of_rows (text : string) :
  counts_of (readlines text)
  = List.map (fun row => Z.of_nat (List.length row)) (rows_of text).
Proof. unfold counts_of, rows_of. rewrite map_map. reflexivity. Qed.

Lemma rows_all_but_last (text : string) :
  all_but_last (fun c => 1 <= c)%Z (counts_of (readlines text)).
Proof.
  unfold counts_of.
  apply (all_but_last_map (fun line => Z.of_nat (List.length (words_of line)))
                          (fun c => (1 <= c)%Z)).
  generalize (readlines_ends_lf text).
  generalize (readlines text) as lines.
  induction lines as [|l rest IH]; simpl; [auto|].
  intros [Hl Hrest]. split; [|apply IH; exact Hrest].
  destruct rest; [exact I|]. apply ends_lf_words. exact Hl.
Qed.

Lemma hd_counts (rows : list (list string)) :
  hd 0%Z (List.map (fun row => Z.of_nat (List.length row)) rows)
  = Z.of_nat (List.length (hd [] rows)).
Proof. destruct rows; reflexivity. Qed.

(** C8, as the code has it. For a file whose every word, cut at single
    spaces, is one [int] accepts, [Map.__init__] raises its format error iff
    some row has another number of words than the first row; otherwise it
    succeeds with [width] the common row length, [height] the number of rows
    and [width * height] tiles; there is no third outcome. *)
Theorem Map_init_outcomes (max_str_digits : Z) (text : string) :
  integers_only max_str_digits text ->
  (Map_init max_str_digits text = inl RuntimeError <-> ragged (rows_of text)) /\
  (forall m, Map_init max_str_digits text = inr m ->
     (forall row, In row (rows_of text) ->
                  Z.of_nat (List.length row) = width m) /\
     height m = Z.of_nat (List.length (rows_of text)) /\
     Z.of_nat (List.length (tiles m)) = (width m * height m)%Z) /\
  (Map_init max_str_digits text = inl RuntimeError \/
   exists m, Map_init max_str_digits text = inr m).
Proof.
  intros Hints.
  pose proof (read_lines_parsed max_str_digits (readlines text)
                (mkMap 0 0 [])) as Hread.
  cbn [width height tiles] in Hread.
  pose proof (widths_ok_uniform _ (rows_all_but_last text)) as Hok.
  rewrite counts_of_rows in Hok, Hread. rewrite hd_counts in Hok.
  set (counts := List.map (fun row => Z.of_nat (List.length row)) (rows_of text)) in *.
  assert (Hlen : List.length (readlines text) = List.length (rows_of text))
    by (unfold rows_of; rewrite length_map; reflexivity).
  unfold Map_init.
  destruct (widths_ok counts 0) eqn:E.
  - destruct Hread as (values & Hr & Hsum).
    { intros line w Hl Hw. apply (Hints (words_of line) w); [|exact Hw].
      unfold rows_of. apply in_map. exact Hl. }
    assert (Hall : forall c, In c counts ->
                             c = Z.of_nat (List.length (hd [] (rows_of text))))
      by (apply Hok; reflexivity).
    rewrite Hr. split; [|split].
    + split; [discriminate|].
      intros (row & Hin & Hne). exfalso. apply Hne.
      apply Nat2Z.inj. apply Hall. unfold counts.
      apply (in_map (fun row => Z.of_nat (List.length row))). exact Hin.
    + intros m Hm. injection Hm as <-. cbn [width height tiles].
      assert (Hw : last counts 0%Z = Z.of_nat (List.length (hd [] (rows_of text)))).
      { destruct (rows_of text) as [|row rows] eqn:Er; [reflexivity|].
        unfold counts. cbn [List.map]. rewrite last_cons.
        cbn [hd]. apply uniform_last.
        intros c Hc. apply Hall. unfold counts. right. exact Hc. }
      split; [|split].
      * intros row Hin. rewrite Hw. apply Hall. unfold counts.
        apply (in_map (fun row => Z.of_nat (List.length row))). exact Hin.
      * rewrite Hlen. lia.
      * cbn [List.length app]. rewrite Hsum, Hw.
        rewrite (uniform_sum counts _ Hall). unfold counts.
        rewrite length_map, Hlen. lia.
    + right. eexists. reflexivity.
  - assert (Hr : read_lines max_str_digits (readlines text) (mkMap 0 0 [])
                 = inl RuntimeError).
    { apply Hread. intros line w Hl Hw. apply (Hints (words_of line) w); [|exact Hw].
      unfold rows_of. apply in_map. exact Hl. }
    rewrite Hr. split; [|split].
    + split; [intros _|reflexivity].
      assert (Hnot : ~ Forall (fun c => c = Z.of_nat (List.length (hd [] (rows_of text)))) counts).
      { intros HF. rewrite Forall_forall in HF.
        apply Hok in HF. congruence. }
      apply neg_Forall_Exists_neg in Hnot; [|intros c; apply Z.eq_dec].
      apply Exists_exists in Hnot. destruct Hnot as (c & Hc & Hne).
      unfold counts in Hc. apply in_map_iff in Hc.
      destruct Hc as (row & <- & Hrow).
      exists row. split; [exact Hrow|]. intros C. apply Hne. rewrite C. reflexivity.
    + intros m Hm. discriminate Hm.
    + left. reflexivity.
Qed.

Lemma Map_init_outcomes_witness :
  integers_only 4300 (text_of ["0"; " "; "0"; " "; "0"; LF; "0"; " "; "0"; LF]%char) /\
  Map_init 4300 (text_of ["0"; " "; "0"; " "; "0"; LF; "0"; " "; "0"; LF]%char)
  = inl RuntimeError.
Proof.
  assert (H : integers_only 4300
                (text_of ["0"; " "; "0"; " "; "0"; LF; "0"; " "; "0"; LF]%char)).
  { intros row word Hrow Hword. vm_compute in Hrow.
    destruct Hrow as [<- | [<- | []]]; vm_compute in Hword;
      repeat (destruct Hword as [<- | Hword]; [vm_compute; discriminate|]);
      destruct Hword. }
  split; [exact H|].
  apply (Map_init_outcomes _ _ H).
  eexists. split; [right; left; reflexivity|]. vm_compute. discriminate.
Defined.

(** The two files of the specification's example. *)
Example three_equal_rows_load :
  Map_init 4300 (text_of ["0"; " "; "0"; " "; "0"; LF;
                     "0"; " "; "1"; " "; "0"; LF;
                     "1"; " "; "1"; " "; "1"; LF]%char)
  = inr (mkMap 3 3 [0; 0; 0; 0; 1; 0; 1; 1; 1]%Z).
Proof. vm_compute. reflexivity. Qed.

(** C8, as the claim has it, fails: two integers separated by a tab, or a
    row that ends in a space, make [int] raise [ValueError], which is
    neither the format error nor a map. *)
Lemma tab_separated_file_raises_ValueError :
  digits_and_blanks (text_of ["0"; TAB; "0"; LF]%char) = true /\
  Map_init 4300 (text_of ["0"; TAB; "0"; LF]%char) = inl ValueError /\
  digits_and_blanks (text_of ["0"; " "; "0"; " "; LF]%char) = true /\
  Map_init 4300 (text_of ["0"; " "; "0"; " "; LF]%char) = inl ValueError.
Proof. vm_compute. repeat split. Qed.

(** To [int] a unit separator (byte 31) is no white space, as it is to
    [str.split()]: a word that ends in one is no integer. *)
Example unit_separator_raises_ValueError :
  Map_init 4300 (text_of ["0"; " "; "8"; "031"; LF]%char) = inl ValueError.
Proof. vm_compute. reflexivity. Qed.

(** A literal of 4301 digits is over the default limit of 4300, and is
    read when the limit is off. *)
Example literal_over_the_limit :
  int_of_string 4300 (ones 4300) <> None /\
  int_of_string 4300 (ones 4301) = None /\
  int_of_string 0 (ones 4301) <> None.
Proof.
  split; [vm_compute; discriminate|].
  split; [vm_compute; reflexivity | vm_compute; discriminate].
Qed.

(** ** Floats: multiplying by 50 keeps the order *)

Section Rounding.
Local Open Scope Z_scope.

Section GridRounding.
(** [f v g]: the rounded quotient of [v] by [2^g] *)
Variable f : Z -> Z -> Z.
Hypothesis f_between : forall v g, 0 <= v -> 0 <= g ->
  v / 2 ^ g <= f v g <= v / 2 ^ g + 1.
Hypothesis f_exact : forall v g, 0 <= v -> 0 <= g ->
  v mod 2 ^ g = 0 -> f v g = v / 2 ^ g.
Hypothesis f_mono : forall v w g, 0 <= v <= w -> 0 <= g -> f v g <= f w g.

(** [floor] is the least grid exponent, [p] the precision. *)
Variable floor p : Z.
Hypothesis floor_nonneg : 0 <= floor.
Hypothesis p_pos : 0 < p.

Lemma grid_nonneg v : 0 <= grid floor p v.
Proof. unfold grid. lia. Qed.

Lemma grid_mono v w : 0 < v <= w -> grid floor p v <= grid floor p w.
Proof.
  intros H. unfold grid.
  assert (Z.log2 v <= Z.log2 w) by (apply Z.log2_le_mono; lia). lia.
Qed.

Lemma to_grid_upper v :
  0 < v -> to_grid f floor p v <= Z.max (2 ^ (Z.log2 v + 1)) (2 ^ grid floor p v).
Proof.
  intros Hv. unfold to_grid.
  pose proof (grid_nonneg v) as Hg.
  pose proof (Z.log2_spec v Hv) as [Hlo Hhi].
  pose proof (Z.log2_nonneg v) as HL.
  replace (Z.succ (Z.log2 v)) with (Z.log2 v + 1) in Hhi by lia.
  assert (Hpg : 0 < 2 ^ grid floor p v) by (apply Z.pow_pos_nonneg; lia).
  destruct (Z_le_gt_dec (grid floor p v) (Z.log2 v + 1)) as [Hle|Hgt].
  - (* 2^(L+1) is on the grid *)
    assert (E : 2 ^ (Z.log2 v + 1) = 2 ^ (Z.log2 v + 1 - grid floor p v) * 2 ^ grid floor p v).
    { rewrite <- Z.pow_add_r by lia. f_equal. lia. }
    assert (Hq : f v (grid floor p v) <= 2 ^ (Z.log2 v + 1 - grid floor p v)).
    { destruct (Z.eq_dec (v mod 2 ^ grid floor p v) 0) as [Hex|Hnex].
      - rewrite (f_exact v (grid floor p v)) by lia.
        apply Z.div_le_upper_bound; [lia|]. rewrite Z.mul_comm. lia.
      - pose proof (f_between v (grid floor p v) ltac:(lia) Hg) as [_ Hub].
        assert (v / 2 ^ grid floor p v < 2 ^ (Z.log2 v + 1 - grid floor p v)).
        { apply Z.div_lt_upper_bound; [lia|]. rewrite Z.mul_comm. lia. }
        lia. }
    apply Z.le_trans with (2 ^ (Z.log2 v + 1)); [|lia].
    rewrite E. apply Z.mul_le_mono_nonneg_r; lia.
  - (* below the grid: the quotient is 0 or 1 *)
    assert (v < 2 ^ grid floor p v).
    { apply Z.lt_le_trans with (2 ^ (Z.log2 v + 1)); [lia|].
      apply Z.pow_le_mono_r; lia. }
    pose proof (f_between v (grid floor p v) ltac:(lia) Hg) as [_ Hub].
    rewrite Z.div_small in Hub by lia.
    apply Z.le_trans with (2 ^ grid floor p v); [|lia].
    nia.
Qed.

Lemma to_grid_lower v :
  0 < v -> grid floor p v <= Z.log2 v -> 2 ^ Z.log2 v <= to_grid f floor p v.
Proof.
  intros Hv Hle. unfold to_grid.
  pose proof (grid_nonneg v) as Hg.
  pose proof (Z.log2_spec v Hv) as [Hlo Hhi].
  assert (Hpg : 0 < 2 ^ grid floor p v) by (apply Z.pow_pos_nonneg; lia).
  assert (E : 2 ^ Z.log2 v = 2 ^ (Z.log2 v - grid floor p v) * 2 ^ grid floor p v).
  { rewrite <- Z.pow_add_r by lia. f_equal. lia. }
  pose proof (f_between v (grid floor p v) ltac:(lia) Hg) as [Hlb _].
  assert (2 ^ (Z.log2 v - grid floor p v) <= v / 2 ^ grid floor p v).
  { apply Z.div_le_lower_bound; [lia|]. rewrite Z.mul_comm. lia. }
  rewrite E. apply Z.mul_le_mono_nonneg_r; lia.
Qed.

Theorem to_grid_mono v w : 0 < v <= w -> to_grid f floor p v <= to_grid f floor p w.
Proof.
  intros [Hv Hvw].
  pose proof (grid_mono v w ltac:(lia)) as Hg.
  destruct (Z.eq_dec (grid floor p v) (grid floor p w)) as [E|NE].
  - unfold to_grid. rewrite E.
    apply Z.mul_le_mono_nonneg_r.
    + apply Z.pow_nonneg; lia.
    + apply f_mono; [lia | apply grid_nonneg].
  - assert (Hlt : grid floor p v < grid floor p w) by lia.
    assert (HL : Z.log2 v < Z.log2 w) by (unfold grid in *; lia).
    assert (Hgw : grid floor p w <= Z.log2 w) by (unfold grid in *; lia).
    apply Z.le_trans with (Z.max (2 ^ (Z.log2 v + 1)) (2 ^ grid floor p v));
      [apply to_grid_upper; lia|].
    apply Z.le_trans with (2 ^ Z.log2 w); [|apply to_grid_lower; lia].
    pose proof (Z.log2_nonneg v). pose proof (grid_nonneg v).
    apply Z.max_lub; apply Z.pow_le_mono_r; lia.
Qed.
End GridRounding.

Lemma rne_between v g : 0 <= v -> 0 <= g -> v / 2 ^ g <= rne v g <= v / 2 ^ g + 1.
Proof.
  intros _ _. unfold rne.
  destruct (2 * (v mod 2 ^ g) ?= 2 ^ g); [destruct (Z.even _)| |]; lia.
Qed.

Lemma rne_exact v g : 0 <= v -> 0 <= g -> v mod 2 ^ g = 0 -> rne v g = v / 2 ^ g.
Proof.
  intros _ Hg H. unfold rne. rewrite H.
  assert (0 < 2 ^ g) by (apply Z.pow_pos_nonneg; lia).
  assert (C : (2 * 0 ?= 2 ^ g) = Lt) by (apply Z.compare_lt_iff; lia).
  rewrite C. reflexivity.
Qed.

Lemma rne_mono v w g : 0 <= v <= w -> 0 <= g -> rne v g <= rne w g.
Proof.
  intros [Hv Hvw] Hg.
  assert (Hp : 0 < 2 ^ g) by (apply Z.pow_pos_nonneg; lia).
  pose proof (Z.div_le_mono v w (2 ^ g) Hp Hvw) as Hq.
  pose proof (rne_between v g Hv Hg) as [_ Hu].
  pose proof (rne_between w g ltac:(lia) Hg) as [Hl _].
  destruct (Z.eq_dec (v / 2 ^ g) (w / 2 ^ g)) as [E|NE]; [|lia].
  assert (Hr : v mod 2 ^ g <= w mod 2 ^ g).
  { pose proof (Z.div_mod v (2 ^ g) ltac:(lia)).
    pose proof (Z.div_mod w (2 ^ g) ltac:(lia)). nia. }
  unfold rne. rewrite E.
  destruct (Z.compare_spec (2 * (v mod 2 ^ g)) (2 ^ g)) as [Cv|Cv|Cv];
    destruct (Z.compare_spec (2 * (w mod 2 ^ g)) (2 ^ g)) as [Cw|Cw|Cw];
    try (destruct (Z.even (w / 2 ^ g))); lia.
Qed.

Lemma rdn_between v g : 0 <= v -> 0 <= g -> v / 2 ^ g <= rdn v g <= v / 2 ^ g + 1.
Proof. unfold rdn. lia. Qed.

Lemma rdn_exact v g : 0 <= v -> 0 <= g -> v mod 2 ^ g = 0 -> rdn v g = v / 2 ^ g.
Proof. reflexivity. Qed.

Lemma rdn_mono v w g : 0 <= v <= w -> 0 <= g -> rdn v g <= rdn w g.
Proof.
  intros [Hv Hvw] Hg. unfold rdn. apply Z.div_le_mono; [|lia].
  apply Z.pow_pos_nonneg; lia.
Qed.

(** Scaling numerator and grid together changes nothing. *)
Lemma rne_scale m n j : 0 <= n -> 0 <= j -> rne (m * 2 ^ j) (n + j) = rne m n.
Proof.
  intros Hn Hj. unfold rne.
  assert (0 < 2 ^ n) by (apply Z.pow_pos_nonneg; lia).
  assert (0 < 2 ^ j) by (apply Z.pow_pos_nonneg; lia).
  rewrite Z.pow_add_r by lia.
  rewrite Z.div_mul_cancel_r by lia.
  rewrite Z.mul_mod_distr_r by lia.
  assert (C : (2 * (m mod 2 ^ n * 2 ^ j) ?= 2 ^ n * 2 ^ j)
              = (2 * (m mod 2 ^ n) ?= 2 ^ n)).
  { destruct (Z.compare_spec (2 * (m mod 2 ^ n)) (2 ^ n)) as [C|C|C].
    - apply Z.compare_eq_iff. nia.
    - apply Z.compare_lt_iff. nia.
    - apply Z.compare_gt_iff. nia. }
  rewrite C. reflexivity.
Qed.

Lemma rdn_scale m n j : 0 <= n -> 0 <= j -> rdn (m * 2 ^ j) (n + j) = rdn m n.
Proof.
  intros Hn Hj. unfold rdn.
  assert (0 < 2 ^ n) by (apply Z.pow_pos_nonneg; lia).
  assert (0 < 2 ^ j) by (apply Z.pow_pos_nonneg; lia).
  rewrite Z.pow_add_r by lia.
  rewrite Z.div_mul_cancel_r by lia. reflexivity.
Qed.

Lemma iter_pos_nat {A} (f : A -> A) (p : positive) (a : A) :
  iter_pos f p a = Nat.iter (Pos.to_nat p) f a.
Proof.
  revert a. induction p as [p IH|p IH|]; intros a; cbn [iter_pos].
  - rewrite !IH, Pos2Nat.inj_xI.
    replace (S (2 * Pos.to_nat p))%nat
      with (Pos.to_nat p + (Pos.to_nat p + 1))%nat by lia.
    rewrite !Nat.iter_add. reflexivity.
  - rewrite !IH, Pos2Nat.inj_xO.
    replace (2 * Pos.to_nat p)%nat
      with (Pos.to_nat p + Pos.to_nat p)%nat by lia.
    rewrite Nat.iter_add. reflexivity.
  - reflexivity.
Qed.

Lemma shr_1_nonneg (m : Z) (r s : bool) :
  0 <= m ->
  shr_1 (Build_shr_record m r s)
  = Build_shr_record (Z.div2 m) (Z.odd m) (r || s).
Proof.
  intros Hm. destruct m as [|[p|p|]|p]; try reflexivity; lia.
Qed.

Lemma mod_pow2_succ (m k : Z) :
  0 <= k ->
  m mod 2 ^ (k + 1) = m mod 2 ^ k + 2 ^ k * ((m / 2 ^ k) mod 2).
Proof.
  intros Hk. rewrite Z.pow_add_r by lia. change (2 ^ 1) with 2.
  apply Z.rem_mul_r; [|lia].
  assert (0 < 2 ^ k) by (apply Z.pow_pos_nonneg; lia). lia.
Qed.

Lemma testbit_div (m k : Z) :
  0 <= k -> Z.testbit m k = Z.odd (m / 2 ^ k).
Proof.
  intros Hk. rewrite Z.testbit_odd, Z.shiftr_div_pow2 by lia. reflexivity.
Qed.

Lemma iter_shr_1 (m : Z) (k : nat) :
  0 <= m ->
  Nat.iter (S k) shr_1 (Build_shr_record m false false)
  = Build_shr_record (m / 2 ^ (Z.of_nat k + 1))
                     (Z.testbit m (Z.of_nat k))
                     (negb (m mod 2 ^ Z.of_nat k =? 0)).
Proof.
  intros Hm. induction k as [|k IH].
  - change (Nat.iter 1 shr_1 ?a) with (shr_1 a).
    rewrite shr_1_nonneg by lia. change (Z.of_nat 0) with 0.
    rewrite Z.div2_div, Z.bit0_odd. change (2 ^ (0 + 1)) with 2.
    change (2 ^ 0) with 1. rewrite Z.mod_1_r. reflexivity.
  - change (Nat.iter (S (S k)) shr_1 ?a) with (shr_1 (Nat.iter (S k) shr_1 a)).
    rewrite IH.
    assert (Hp : 0 < 2 ^ (Z.of_nat k + 1)) by (apply Z.pow_pos_nonneg; lia).
    assert (Hp' : 0 < 2 ^ Z.of_nat k) by (apply Z.pow_pos_nonneg; lia).
    rewrite shr_1_nonneg by (apply Z.div_pos; lia).
    replace (Z.of_nat (S k)) with (Z.of_nat k + 1) by lia.
    f_equal.
    + rewrite Z.div2_div, Z.div_div by lia.
      rewrite (Z.pow_add_r 2 (Z.of_nat k + 1) 1) by lia. reflexivity.
    + rewrite <- testbit_div by lia. reflexivity.
    + rewrite (mod_pow2_succ m (Z.of_nat k)) by lia.
      rewrite (testbit_div m (Z.of_nat k)) by lia.
      pose proof (Z.mod_pos_bound m (2 ^ Z.of_nat k) Hp') as Hb.
      rewrite <- Z.negb_even, Zeven_mod.
      pose proof (Z.mod_pos_bound (m / 2 ^ Z.of_nat k) 2 ltac:(lia)) as Hb2.
      destruct (Z.eqb_spec ((m / 2 ^ Z.of_nat k) mod 2) 0) as [E0|E0];
        destruct (Z.eqb_spec (m mod 2 ^ Z.of_nat k) 0) as [E1|E1];
        destruct (Z.eqb_spec (m mod 2 ^ Z.of_nat k
                              + 2 ^ Z.of_nat k * ((m / 2 ^ Z.of_nat k) mod 2)) 0)
          as [E2|E2];
        simpl; try reflexivity; exfalso; nia.
Qed.

(** The mantissa after [n >= 1] right shifts, rounded to nearest even. *)
Lemma odd_mod2 (a : Z) : (a mod 2 = if Z.odd a then 1 else 0).
Proof.
  rewrite Zodd_mod. pose proof (Z.mod_pos_bound a 2 ltac:(lia)).
  destruct (Z.eqb_spec (a mod 2) 1); lia.
Qed.

Lemma round_shifted (m : Z) (k : nat) :
  0 <= m ->
  let mrs := Nat.iter (S k) shr_1 (Build_shr_record m false false) in
  round_nearest_even (shr_m mrs) (loc_of_shr_record mrs)
  = rne m (Z.of_nat k + 1) /\
  shr_m mrs = rdn m (Z.of_nat k + 1).
Proof.
  intros Hm. cbv zeta. rewrite iter_shr_1 by lia. split; [|reflexivity].
  cbn [shr_m]. unfold rne.
  assert (Hp' : 0 < 2 ^ Z.of_nat k) by (apply Z.pow_pos_nonneg; lia).
  rewrite (mod_pow2_succ m (Z.of_nat k)) by lia.
  rewrite (testbit_div m (Z.of_nat k)) by lia.
  rewrite (Z.pow_add_r 2 (Z.of_nat k) 1) by lia. change (2 ^ 1) with 2.
  pose proof (Z.mod_pos_bound m (2 ^ Z.of_nat k) Hp') as Hb.
  rewrite (odd_mod2 (m / 2 ^ Z.of_nat k)).
  destruct (Z.odd (m / 2 ^ Z.of_nat k));
    destruct (Z.eqb_spec (m mod 2 ^ Z.of_nat k) 0) as [E1|E1];
    unfold loc_of_shr_record, round_nearest_even; cbn [negb];
    match goal with
    | |- context [?a ?= ?b] => destruct (Z.compare_spec a b)
    end; try reflexivity; exfalso; lia.
Qed.

Lemma digits2_size (p : positive) : digits2_pos p = Pos.size p.
Proof. induction p; simpl; congruence. Qed.

Lemma Zdigits2_log2 (m : Z) : 0 < m -> Zdigits2 m = Z.log2 m + 1.
Proof.
  destruct m as [|p|p]; try lia. intros _. simpl Zdigits2.
  rewrite digits2_size. destruct p; simpl; lia.
Qed.

Lemma shr_fexp_exact (m e : Z) :
  0 <= m ->
  shr_fexp prec emax m e loc_Exact
  = if shift_of m e <=? 0 then (Build_shr_record m false false, e)
    else (Nat.iter (Z.to_nat (shift_of m e)) shr_1
                   (Build_shr_record m false false),
          e + shift_of m e).
Proof.
  intros Hm. unfold shr_fexp, shr. fold (shift_of m e).
  cbn [shr_record_of_loc].
  destruct (shift_of m e) as [|p|p] eqn:E; try reflexivity.
  replace (Z.pos p <=? 0) with false by (symmetry; apply Z.leb_gt; lia).
  rewrite iter_pos_nat. reflexivity.
Qed.

Section Scaled.
(** All values are read as integers, scaled by [2^K]. *)
Variable K : Z.
Hypothesis K_large : 0 <= emin + K.

Lemma grid_shift (m e : Z) :
  0 < m -> 0 <= e + K ->
  grid (emin + K) prec (m * 2 ^ (e + K)) = shift_of m e + (e + K).
Proof.
  intros Hm He. unfold grid, shift_of, fexp.
  rewrite Z.log2_mul_pow2 by lia.
  rewrite Zdigits2_log2 by lia. lia.
Qed.

(** One stage of [binary_round_aux]: shift onto the grid, round by [f]. *)
Lemma stage_value (f : Z -> Z -> Z) (m e : Z) :
  (forall v g, 0 <= v -> 0 <= g -> v mod 2 ^ g = 0 -> f v g = v / 2 ^ g) ->
  (forall m n j, 0 <= n -> 0 <= j -> f (m * 2 ^ j) (n + j) = f m n) ->
  0 < m -> 0 <= e + K ->
  (if shift_of m e <=? 0 then m else f m (shift_of m e))
  * 2 ^ ((if shift_of m e <=? 0 then e else e + shift_of m e) + K)
  = to_grid f (emin + K) prec (m * 2 ^ (e + K)).
Proof.
  intros f_exact f_scale Hm He. unfold to_grid.
  rewrite grid_shift by lia.
  assert (Hp : 0 < 2 ^ (e + K)) by (apply Z.pow_pos_nonneg; lia).
  destruct (Z.leb_spec (shift_of m e) 0) as [Hn|Hn].
  - assert (Hg : 0 <= shift_of m e + (e + K)).
    { rewrite <- grid_shift by lia. apply grid_nonneg. exact K_large. }
    assert (Hg' : 0 < 2 ^ (shift_of m e + (e + K)))
      by (apply Z.pow_pos_nonneg; lia).
    assert (E : m * 2 ^ (e + K)
                = m * 2 ^ (- shift_of m e) * 2 ^ (shift_of m e + (e + K))).
    { rewrite <- Z.mul_assoc, <- Z.pow_add_r by lia. do 2 f_equal. lia. }
    assert (Hmod : (m * 2 ^ (e + K)) mod 2 ^ (shift_of m e + (e + K)) = 0)
      by (rewrite E; apply Z.mod_mul; lia).
    rewrite f_exact by (try exact Hmod; nia).
    apply Z.div_exact in Hmod; [|lia]. lia.
  - rewrite f_scale by lia.
    f_equal. f_equal. lia.
Qed.

Lemma rounded_mono (v w : Z) : 0 < v <= w -> rounded K v <= rounded K w.
Proof.
  intros H. unfold rounded.
  assert (Hw : to_grid rne (emin + K) prec v <= to_grid rne (emin + K) prec w).
  { apply to_grid_mono; auto using rne_between, rne_exact, rne_mono.
    reflexivity. }
  assert (H0 : forall u, 0 <= u -> 0 <= to_grid rne (emin + K) prec u).
  { intros u Hu. unfold to_grid.
    pose proof (grid_nonneg (emin + K) prec K_large u) as Hg.
    pose proof (rne_between u _ Hu Hg) as [Hl _].
    assert (0 <= u / 2 ^ grid (emin + K) prec u)
      by (apply Z.div_pos; [lia | apply Z.pow_pos_nonneg; lia]).
    apply Z.mul_nonneg_nonneg; [lia | apply Z.pow_nonneg; lia]. }
  pose proof (H0 v ltac:(lia)) as Hv0.
  destruct (Z.eq_dec (to_grid rne (emin + K) prec v) 0) as [E|NE].
  - rewrite E.
    assert (Z0' : to_grid rdn (emin + K) prec 0 = 0) by reflexivity.
    rewrite Z0'.
    pose proof (H0 w ltac:(lia)) as Hw0.
    set (u := to_grid rne (emin + K) prec w) in *.
    pose proof (grid_nonneg (emin + K) prec K_large u) as Hg.
    unfold to_grid, rdn.
    apply Z.mul_nonneg_nonneg; [|apply Z.pow_nonneg; lia].
    apply Z.div_pos; [lia | apply Z.pow_pos_nonneg; lia].
  - apply to_grid_mono; auto using rdn_between, rdn_exact, rdn_mono.
    + reflexivity.
    + lia.
Qed.

(** What [binary_round_aux] makes of an exact positive [m * 2^e]. *)
Lemma binary_round_aux_exact (m : positive) (e : Z) :
  0 <= e + K ->
  match binary_round_aux prec emax false (Z.pos m) e loc_Exact with
  | S754_zero s => s = false /\ rounded K (Z.pos m * 2 ^ (e + K)) = 0
  | S754_finite s m' e' =>
      s = false /\ 0 <= e' + K /\
      Z.pos m' * 2 ^ (e' + K) = rounded K (Z.pos m * 2 ^ (e + K))
  | S754_infinity s => s = false
  | S754_nan => False
  end.
Proof.
  intros He. unfold binary_round_aux.
  rewrite shr_fexp_exact by lia.
  pose proof (stage_value rne (Z.pos m) e rne_exact rne_scale ltac:(lia) He)
    as S1.
  set (n1 := shift_of (Z.pos m) e) in *.
  set (v1 := to_grid rne (emin + K) prec (Z.pos m * 2 ^ (e + K))) in *.
  destruct (Z.leb_spec n1 0) as [Hn1|Hn1].
  - (* no shift: the mantissa is kept *)
    cbn [shr_m loc_of_shr_record round_nearest_even].
    rewrite shr_fexp_exact by lia. fold n1.
    replace (n1 <=? 0) with true by (symmetry; apply Z.leb_le; lia).
    cbn [shr_m].
    assert (Hv : rounded K (Z.pos m * 2 ^ (e + K)) = Z.pos m * 2 ^ (e + K)).
    { unfold rounded. fold v1. rewrite <- S1.
      pose proof (stage_value rdn (Z.pos m) e rdn_exact rdn_scale
                    ltac:(lia) He) as S2.
      fold n1 in S2.
      replace (n1 <=? 0) with true in S2 by (symmetry; apply Z.leb_le; lia).
      symmetry. exact S2. }
    destruct (e <=? emax - prec); auto.
  - (* shifted by n1 >= 1 and rounded K to nearest even *)
    destruct (round_shifted (Z.pos m) (Z.to_nat (n1 - 1)) ltac:(lia))
      as [Hr _].
    replace (S (Z.to_nat (n1 - 1))) with (Z.to_nat n1) in Hr by lia.
    replace (Z.of_nat (Z.to_nat (n1 - 1)) + 1) with n1 in Hr by lia.
    rewrite Hr. clear Hr.
    set (m1 := rne (Z.pos m) n1) in *.
    assert (Hm1 : 0 <= m1).
    { pose proof (rne_between (Z.pos m) n1 ltac:(lia) ltac:(lia)) as [Hl _].
      assert (0 <= Z.pos m / 2 ^ n1)
        by (apply Z.div_pos; [lia | apply Z.pow_pos_nonneg; lia]).
      unfold m1. lia. }
    assert (He1 : emin <= e + n1).
    { unfold n1, shift_of, fexp. lia. }
    rewrite shr_fexp_exact by lia.
    destruct (Z.eq_dec m1 0) as [Z1|NZ1].
    + (* rounded K to zero *)
      rewrite Z1 in *.
      assert (Hs : shift_of 0 (e + n1) <= 0).
      { assert (0 < prec) by reflexivity.
        unfold shift_of, fexp. simpl Zdigits2. lia. }
      replace (shift_of 0 (e + n1) <=? 0) with true
        by (symmetry; apply Z.leb_le; lia).
      cbn [shr_m]. split; [reflexivity|].
      unfold rounded. fold v1. rewrite <- S1. reflexivity.
    + pose proof (stage_value rdn m1 (e + n1) rdn_exact rdn_scale
                    ltac:(lia) ltac:(lia)) as S2.
      rewrite S1 in S2.
      set (n2 := shift_of m1 (e + n1)) in *.
      revert S2. destruct (Z.leb_spec n2 0) as [Hn2|Hn2]; intros S2.
      * cbn [shr_m]. destruct m1 as [|m1'|m1']; try lia.
        destruct (e + n1 <=? emax - prec); auto.
        split; [reflexivity|]. split; [lia|].
        unfold rounded. fold v1. exact S2.
      * destruct (round_shifted m1 (Z.to_nat (n2 - 1)) ltac:(lia))
          as [_ Hr].
        replace (S (Z.to_nat (n2 - 1))) with (Z.to_nat n2) in Hr by lia.
        replace (Z.of_nat (Z.to_nat (n2 - 1)) + 1) with n2 in Hr by lia.
        rewrite Hr.
        assert (0 <= rdn m1 n2)
          by (apply Z.div_pos; [lia | apply Z.pow_pos_nonneg; lia]).
        destruct (rdn m1 n2) as [|m2|m2] eqn:E2; try lia;
          rewrite ?E2 in S2.
        -- split; [reflexivity|]. unfold rounded. fold v1.
           rewrite <- S2. reflexivity.
        -- destruct (e + n1 + n2 <=? emax - prec); auto.
           split; [reflexivity|]. split; [lia|].
           unfold rounded. fold v1. exact S2.
Qed.
End Scaled.

(** A valid mantissa has at most 53 bits, and 53 above the least exponent. *)
Lemma bounded_facts (m : positive) (e : Z) :
  bounded prec emax m e = true ->
  emin <= e /\ Z.pos m < 2 ^ 53 /\ (emin < e -> 2 ^ 52 <= Z.pos m).
Proof.
  unfold bounded, canonical_mantissa. intros H.
  apply andb_true_iff in H. destruct H as [H _].
  apply Z.eqb_eq in H. unfold fexp in H.
  change (Z.pos (digits2_pos m)) with (Zdigits2 (Z.pos m)) in H.
  rewrite Zdigits2_log2 in H by lia.
  pose proof (Z.log2_spec (Z.pos m) ltac:(lia)) as [Hlo Hhi].
  pose proof (Z.log2_nonneg (Z.pos m)) as HL.
  assert (Hprec : prec = 53) by reflexivity.
  split; [lia|]. split.
  - apply Z.lt_le_trans with (2 ^ Z.succ (Z.log2 (Z.pos m))); [lia|].
    apply Z.pow_le_mono_r; lia.
  - intros He. apply Z.le_trans with (2 ^ Z.log2 (Z.pos m)); [|lia].
    apply Z.pow_le_mono_r; lia.
Qed.

(** The order of valid positive floats is the order of their values. *)
Lemma SFleb_scaled (ma mb : positive) (ea eb k : Z) :
  bounded prec emax ma ea = true ->
  bounded prec emax mb eb = true ->
  0 <= emin + k ->
  SFleb (S754_finite false ma ea) (S754_finite false mb eb) = true ->
  Z.pos ma * 2 ^ (ea + k) <= Z.pos mb * 2 ^ (eb + k).
Proof.
  intros Ha Hb Hk. unfold SFleb, SFcompare.
  destruct (bounded_facts ma ea Ha) as (Hea & Hma & _).
  destruct (bounded_facts mb eb Hb) as (Heb & _ & Hmb).
  destruct (Z.compare_spec ea eb) as [E|L|G].
  - subst eb. rewrite Pos.compare_cont_spec. unfold Pos.switch_Eq.
    assert (Hp : 0 < 2 ^ (ea + k)) by (apply Z.pow_pos_nonneg; lia).
    destruct (Pos.compare_spec ma mb) as [E|L|G]; intros H;
      try discriminate H.
    + subst. lia.
    + nia.
  - intros _.
    assert (Hp : 0 < 2 ^ (ea + k)) by (apply Z.pow_pos_nonneg; lia).
    assert (E : 2 ^ (eb + k) = 2 ^ (eb - ea - 1) * 2 * 2 ^ (ea + k)).
    { replace (eb + k) with ((eb - ea - 1) + 1 + (ea + k)) by lia.
      rewrite !Z.pow_add_r by lia. reflexivity. }
    assert (1 <= 2 ^ (eb - ea - 1))
      by (apply (Z.pow_le_mono_r 2 0); lia).
    specialize (Hmb ltac:(lia)). rewrite E.
    change (2 ^ 53) with (2 * 2 ^ 52) in Hma. nia.
  - discriminate.
Qed.

Lemma truncate_nonneg (q : Q) : (0 <= q)%Q -> truncate q = Qfloor q.
Proof.
  unfold truncate, Qfloor, Qle. destruct q as [n d]. simpl.
  intros H. apply Z.quot_div_nonneg; lia.
Qed.

Lemma value_scaled (m : positive) (e K : Z) :
  0 <= K -> 0 <= e + K ->
  (inject_Z (Z.pos m) * Qpower 2 e
   == inject_Z (Z.pos m * 2 ^ (e + K)) / inject_Z (2 ^ K))%Q.
Proof.
  intros HK He.
  rewrite inject_Z_mult.
  rewrite !Zpower_Qpower by lia.
  change (inject_Z 2) with 2%Q.
  rewrite Qpower_plus by discriminate.
  assert (~ (2 ^ K == 0)%Q).
  { intros C. apply Qpower_not_0 in C; [exact C | discriminate]. }
  field. assumption.
Qed.

Lemma truncate_scaled (m : positive) (e K : Z) :
  0 <= K -> 0 <= e + K ->
  truncate (inject_Z (Z.pos m) * Qpower 2 e) = (Z.pos m * 2 ^ (e + K)) / 2 ^ K.
Proof.
  intros HK He. rewrite truncate_nonneg.
  - rewrite (value_scaled m e K HK He). symmetry. apply Zdiv_Qdiv.
  - apply Qmult_le_0_compat; [unfold Qle; simpl; lia|].
    apply Qpower_0_le. discriminate.
Qed.

Lemma K50_large : 0 <= emin + K50.
Proof. vm_compute. discriminate. Qed.

Lemma rounded_nonneg (v : Z) : 0 <= v -> 0 <= rounded K50 v.
Proof.
  intros Hv.
  assert (H0 : forall f u,
             (forall v g, 0 <= v -> 0 <= g -> v / 2 ^ g <= f v g <= v / 2 ^ g + 1) ->
             0 <= u -> 0 <= to_grid f (emin + K50) prec u).
  { intros f u Hf Hu. unfold to_grid.
    pose proof (grid_nonneg (emin + K50) prec K50_large u) as Hg.
    pose proof (Hf u _ Hu Hg) as [Hl _].
    assert (0 <= u / 2 ^ grid (emin + K50) prec u)
      by (apply Z.div_pos; [lia | apply Z.pow_pos_nonneg; lia]).
    apply Z.mul_nonneg_nonneg; [lia | apply Z.pow_nonneg; lia]. }
  unfold rounded. apply H0; [apply rdn_between|].
  apply H0; [apply rne_between | exact Hv].
Qed.

Lemma mul50_spec (a : float) :
  Prim2SF (a * 50)
  = SFmul prec emax (Prim2SF a) (S754_finite false fifty_m fifty_e).
Proof. rewrite mul_spec. reflexivity. Qed.

(** [int(a * 50)] for a float [a >= 0], in scaled integers. *)
Lemma int_mul50 (a : float) (t : Z) :
  PrimFloat.leb 0 a = true ->
  int (a * 50) = Some t ->
  t = scaled_tick (Prim2SF a) / 2 ^ K50 /\
  (exists s, Prim2SF a = S754_zero s) \/
  t = scaled_tick (Prim2SF a) / 2 ^ K50 /\
  (exists m e, Prim2SF a = S754_finite false m e).
Proof.
  rewrite leb_spec. change (Prim2SF 0) with (S754_zero false).
  unfold int, value. rewrite mul50_spec.
  pose proof (Prim2SF_valid a) as Hvalid.
  destruct (Prim2SF a) as [s | s | | s m e]; simpl SFmul.
  - intros _ H. injection H as <-. left. split; [reflexivity | eauto].
  - intros _ H. discriminate H.
  - intros _ H. discriminate H.
  - intros Hs. destruct s; [discriminate Hs|]. clear Hs.
    simpl xorb. intros H. right. split; [|eauto].
    simpl in Hvalid. destruct (bounded_facts m e Hvalid) as (He & _ & _).
    assert (HeK : 0 <= e + fifty_e + K50).
    { unfold fifty_e, K50. unfold emin, SpecFloat.emin, emax, prec in He. lia. }
    pose proof (binary_round_aux_exact K50 K50_large (m * fifty_m)
                  (e + fifty_e) HeK) as Hr.
    unfold scaled_tick.
    destruct (binary_round_aux prec emax false (Z.pos (m * fifty_m))
                               (e + fifty_e) loc_Exact)
      as [s' | s' | | s' m' e']; simpl in H.
    + destruct Hr as [_ Hr]. rewrite Hr. injection H as <-. reflexivity.
    + discriminate H.
    + discriminate H.
    + destruct Hr as (-> & He' & Hr). rewrite <- Hr.
      injection H as <-. simpl cond_Zopp.
      apply truncate_scaled; [unfold K50; lia | exact He'].
Qed.

(** IEEE multiplication by 50 and truncation keep the order. *)
Lemma tick_mono (a b : float) (ta tb : Z) :
  PrimFloat.leb 0 a = true ->
  PrimFloat.leb a b = true ->
  int (a * 50) = Some ta ->
  int (b * 50) = Some tb ->
  0 <= ta <= tb.
Proof.
  intros H0a Hab Ha Hb.
  assert (H0b : PrimFloat.leb 0 b = true).
  { revert H0a Hab Hb. rewrite !leb_spec.
    unfold int, value. rewrite mul50_spec.
    change (Prim2SF 0) with (S754_zero false).
    destruct (Prim2SF a) as [sa | sa | | sa ma ea];
      destruct (Prim2SF b) as [sb | sb | | sb mb eb];
      simpl; try discriminate; try reflexivity;
      destruct sa, sb; simpl; try discriminate; try reflexivity. }
  pose proof (Prim2SF_valid a) as Va. pose proof (Prim2SF_valid b) as Vb.
  assert (Hp : 0 < 2 ^ K50) by (apply Z.pow_pos_nonneg; unfold K50; lia).
  assert (Hmono : 0 <= scaled_tick (Prim2SF a) <= scaled_tick (Prim2SF b)).
  { rewrite leb_spec in Hab.
    destruct (int_mul50 a ta H0a Ha) as [[_ [sa Ea]] | [_ (ma & ea & Ea)]];
      destruct (int_mul50 b tb H0b Hb) as [[_ [sb Eb]] | [_ (mb & eb & Eb)]];
      rewrite Ea, Eb in *; cbn [scaled_tick].
    - lia.
    - split; [lia|]. apply rounded_nonneg.
      apply Z.mul_nonneg_nonneg; [lia | apply Z.pow_nonneg; lia].
    - discriminate Hab.
    - simpl in Va, Vb.
      destruct (bounded_facts ma ea Va) as (Hea & _ & _).
      assert (HeK : 0 <= ea + fifty_e + K50).
      { unfold fifty_e, K50. unfold emin, SpecFloat.emin, emax, prec in Hea. lia. }
      pose proof (SFleb_scaled ma mb ea eb (fifty_e + K50) Va Vb
                    ltac:(vm_compute; discriminate) Hab) as Hle.
      assert (0 < 2 ^ (ea + fifty_e + K50)) by (apply Z.pow_pos_nonneg; lia).
      split; [apply rounded_nonneg; nia|].
      apply rounded_mono; [exact K50_large|].
      rewrite !Pos2Z.inj_mul.
      rewrite <- !Z.add_assoc in *. 
      split; [lia|].
      rewrite <- !(Z.mul_assoc _ (Z.pos fifty_m)).
      rewrite !(Z.mul_comm (Z.pos fifty_m)).
      rewrite !Z.mul_assoc.
      apply Z.mul_le_mono_nonneg_r; [lia | exact Hle]. }
  destruct (int_mul50 a ta H0a Ha) as [[-> _] | [-> _]];
    destruct (int_mul50 b tb H0b Hb) as [[-> _] | [-> _]];
    (split; [apply Z.div_pos; lia | apply Z.div_le_mono; lia]).
Qed.

End Rounding.

(** ** Floats: the quotient of an int by the tile size *)

Section Quotient.
Local Open Scope Z_scope.

(** [binary_round_aux] keeps a value that lies on the grid already. *)
Lemma binary_round_aux_on_grid (s : bool) (q : positive) (e : Z) :
  let n := shift_of (Z.pos q) e in
  0 <= n -> Z.pos q mod 2 ^ n = 0 -> e + n <= emax - prec ->
  exists m : positive,
    Z.pos m * 2 ^ n = Z.pos q /\
    binary_round_aux prec emax s (Z.pos q) e loc_Exact
    = S754_finite s m (e + n) /\
    bounded prec emax m (e + n) = true.
Proof.
  cbv zeta. intros Hn Hmod He.
  remember (shift_of (Z.pos q) e) as n eqn:En.
  assert (Hp : 0 < 2 ^ n) by (apply Z.pow_pos_nonneg; lia).
  apply Z.div_exact in Hmod; [|lia].
  assert (Hq : 0 < Z.pos q / 2 ^ n) by nia.
  destruct (Z.pos q / 2 ^ n) as [|m|m] eqn:Em; try lia.
  exists m. split; [lia|].
  assert (Hd : Zdigits2 (Z.pos m) + (e + n) = Zdigits2 (Z.pos q) + e).
  { rewrite !Zdigits2_log2 by lia.
    rewrite Hmod, (Z.mul_comm (2 ^ n)), Z.log2_mul_pow2 by lia. lia. }
  assert (Hs : shift_of (Z.pos m) (e + n) = 0).
  { unfold shift_of in En |- *. rewrite Hd. lia. }
  split.
  - unfold binary_round_aux. rewrite shr_fexp_exact by lia. rewrite <- ?En.
    destruct (Z.leb_spec n 0) as [H0|H0].
    + assert (n = 0) by lia.
      assert (Z.pos m = Z.pos q)
        by (rewrite Hmod; replace n with 0 by lia; lia).
      cbn [shr_m loc_of_shr_record round_nearest_even].
      rewrite shr_fexp_exact by lia. rewrite <- ?En.
      replace (n <=? 0) with true by (symmetry; apply Z.leb_le; lia).
      cbn [shr_m].
      replace (e <=? emax - prec) with true by (symmetry; apply Z.leb_le; lia).
      f_equal; [congruence | lia].
    + destruct (round_shifted (Z.pos q) (Z.to_nat (n - 1)) ltac:(lia))
        as [Hr _].
      replace (S (Z.to_nat (n - 1))) with (Z.to_nat n) in Hr by lia.
      replace (Z.of_nat (Z.to_nat (n - 1)) + 1) with n in Hr by lia.
      rewrite Hr.
      rewrite rne_exact
        by (try lia; rewrite Hmod, Z.mul_comm; apply Z.mod_mul; lia).
      rewrite Em. rewrite shr_fexp_exact by lia. rewrite Hs.
      cbn [Z.leb Z.compare shr_m].
      replace (e + n <=? emax - prec) with true
        by (symmetry; apply Z.leb_le; lia).
      reflexivity.
  - unfold bounded, canonical_mantissa.
    change (Z.pos (digits2_pos m)) with (Zdigits2 (Z.pos m)).
    unfold shift_of in Hs.
    apply andb_true_iff. split; [apply Z.eqb_eq; lia | apply Z.leb_le; lia].
Qed.


(** The quotient and exponent that the division of a positive int by 64
    hands to the rounding. *)
Lemma SFdiv_core_64 (a : Z) :
  let s := Z.max (59 - Z.log2 a) 0 in
  0 < a -> (a * 2 ^ s) mod 64 = 0 ->
  SFdiv_core_binary prec emax a 0 64 0 = (a * 2 ^ s / 64, - s, loc_Exact).
Proof.
  cbv zeta. intros Ha Hmod.
  pose proof (Z.log2_nonneg a) as HL.
  assert (Hprec : prec = 53) by reflexivity.
  assert (Hemin : emin = -1074) by reflexivity.
  unfold SFdiv_core_binary. rewrite Zdigits2_log2 by lia.
  change (Zdigits2 64) with 7.
  replace (Z.min (fexp prec emax (Z.log2 a + 1 + 0 - (7 + 0))) (0 - 0))
    with (- Z.max (59 - Z.log2 a) 0) by (unfold fexp; lia).
  replace (0 - 0 - - Z.max (59 - Z.log2 a) 0) with (Z.max (59 - Z.log2 a) 0)
    by lia.
  remember (Z.max (59 - Z.log2 a) 0) as s eqn:Es.
  assert (Hm : match s with
               | Z.pos _ => Z.shiftl a s
               | 0 => a
               | Z.neg _ => 0
               end = a * 2 ^ s).
  { destruct s as [|p|p]; try lia.
    rewrite Z.shiftl_mul_pow2 by lia. reflexivity. }
  rewrite Hm.
  pose proof (Z.mod_eq (a * 2 ^ s) 64 ltac:(lia)) as Hr.
  unfold Z.modulo, Z.div in *.
  destruct (Z.div_eucl (a * 2 ^ s) 64) as [q r].
  subst r. reflexivity.
Qed.

(** [int(c / 64)] is the quotient truncated toward zero on every int that
    a float holds. *)
Lemma tile_cell_exact (c : Z) :
  is_float_int c = true -> tile_cell c 64 = Some (Z.quot c 64).
Proof.
  unfold is_float_int. cbv zeta. intros H.
  apply andb_true_iff in H. destruct H as [HL Hg].
  apply Z.ltb_lt in HL. apply Z.eqb_eq in Hg.
  destruct (Z.eq_dec c 0) as [->|Hc]; [reflexivity|].
  set (a := Z.abs c) in *.
  assert (Ha : 0 < a) by (unfold a; lia).
  pose proof (Z.log2_nonneg a) as HL0.
  set (L := Z.log2 a) in *.
  set (s := Z.max (59 - L) 0).
  set (g := Z.max 0 (L - 52)) in *.
  assert (Hprec : prec = 53) by reflexivity.
  assert (Hemin : emin = -1074) by reflexivity.
  assert (Hemax : emax = 1024) by reflexivity.
  (* a = m * 2^g *)
  assert (Hp : 0 < 2 ^ g) by (apply Z.pow_pos_nonneg; lia).
  apply Z.div_exact in Hg; [|lia].
  set (m := a / 2 ^ g) in *.
  (* the quotient handed to the rounding *)
  assert (Hs6 : a * 2 ^ s = m * 2 ^ (g + s - 6) * 64).
  { rewrite Hg. change 64 with (2 ^ 6).
    rewrite <- (Z.mul_assoc m), <- Z.pow_add_r by lia.
    rewrite (Z.mul_comm (2 ^ g)), <- Z.mul_assoc, <- Z.pow_add_r by lia.
    do 2 f_equal. lia. }
  assert (Hmod : (a * 2 ^ s) mod 64 = 0)
    by (rewrite Hs6; apply Z.mod_mul; lia).
  pose proof (SFdiv_core_64 a Ha Hmod) as Hcore.
  fold L in Hcore. fold s in Hcore.
  assert (Hq : a * 2 ^ s / 64 = m * 2 ^ (g + s - 6))
    by (rewrite Hs6; apply Z.div_mul; lia).
  rewrite Hq in Hcore.
  assert (Hm : 0 < m) by (unfold m; nia).
  assert (Hpq : 0 < m * 2 ^ (g + s - 6)).
  { apply Z.mul_pos_pos; [lia | apply Z.pow_pos_nonneg; lia]. }
  destruct (m * 2 ^ (g + s - 6)) as [|q|q] eqn:Eq; try lia.
  (* the rounding leaves it as it is *)
  assert (HLm : Z.log2 (Z.pos q) = L + s - 6).
  { rewrite <- Eq, Z.log2_mul_pow2 by lia.
    unfold L. rewrite Hg, Z.mul_comm, Z.log2_mul_pow2 by lia. lia. }
  assert (Hn : shift_of (Z.pos q) (- s) = L - 58 + s).
  { unfold shift_of, fexp. rewrite Zdigits2_log2, HLm by lia. lia. }
  destruct (binary_round_aux_on_grid (c <? 0) q (- s)) as (M & HM & Hr & Hb).
  - rewrite Hn. lia.
  - rewrite Hn, <- Eq.
    replace (g + s - 6) with ((g - (L - 52)) + (L - 58 + s)) by lia.
    rewrite Z.pow_add_r, Z.mul_assoc by lia. apply Z.mod_mul.
    apply Z.pow_nonzero; lia.
  - rewrite Hn. lia.
  - rewrite Hn in HM, Hr, Hb.
    replace (- s + (L - 58 + s)) with (L - 58) in Hr, Hb by lia.
    assert (HML : Z.pos M * 2 ^ L = a * 2 ^ 52).
    { apply (Z.mul_reg_r _ _ (2 ^ s)); [apply Z.pow_nonzero; lia|].
      assert (E1 : Z.pos M * 2 ^ L * 2 ^ s
                   = Z.pos M * 2 ^ (L - 58 + s) * 2 ^ 58).
      { rewrite <- !Z.mul_assoc, <- !Z.pow_add_r by lia.
        do 2 f_equal. lia. }
      assert (E2 : 2 ^ (g + s - 6) * 2 ^ 58 = 2 ^ g * 2 ^ 52 * 2 ^ s).
      { rewrite <- !Z.pow_add_r by lia. f_equal. lia. }
      rewrite E1, HM, <- Eq, Hg. nia. }
    unfold tile_cell, int_truediv.
    replace (c =? 0) with false by (symmetry; apply Z.eqb_neq; exact Hc).
    change (64 =? 0) with false. change (64 <? 0) with false.
    change (Z.abs 64) with 64. fold a. cbv iota.
    rewrite Hcore, xorb_false_r, Hr. cbn [bind].
    unfold int, value. rewrite Prim2SF_SF2Prim by exact Hb.
    cbn [SF2Q option_map]. f_equal.
    assert (Ht : truncate (inject_Z (Z.pos M) * Qpower 2 (L - 58)) = a / 64).
    { rewrite (truncate_scaled M (L - 58) 58) by lia.
      replace (L - 58 + 58) with L by lia. rewrite HML.
      change (2 ^ 58) with (64 * 2 ^ 52).
      apply Z.div_mul_cancel_r; [lia | apply Z.pow_nonzero; lia]. }
    rewrite Z.quot_div by lia.
    change (Z.sgn 64) with 1. change (Z.abs 64) with 64. fold a.
    destruct (Z.ltb_spec c 0) as [Hneg|Hpos]; cbn [cond_Zopp].
    + replace (truncate (inject_Z (- Z.pos M) * Qpower 2 (L - 58)))
        with (- truncate (inject_Z (Z.pos M) * Qpower 2 (L - 58))).
      * rewrite Ht. rewrite Z.sgn_neg by lia. lia.
      * unfold truncate, Qmult, inject_Z. cbn [Qnum Qden].
        rewrite Z.mul_opp_l, Z.quot_opp_l by lia. reflexivity.
    + rewrite Ht. rewrite Z.sgn_pos by lia. lia.
Qed.

End Quotient.

Lemma is_float_int_small (r : Z) :
  (Z.abs r <= 2 ^ 53)%Z -> is_float_int r = true.
Proof.
  intros H. unfold is_float_int. cbv zeta.
  destruct (Z.eq_dec (Z.abs r) (2 ^ 53)) as [->|Hne]; [reflexivity|].
  assert (HL : (Z.log2 (Z.abs r) <= 52)%Z).
  { destruct (Z.eq_dec (Z.abs r) 0) as [->|H0]; [simpl; lia|].
    assert (Z.log2 (Z.abs r) < 53)%Z; [|lia].
    apply Z.log2_lt_pow2; lia. }
  apply andb_true_iff. split; [apply Z.ltb_lt; lia|].
  apply Z.eqb_eq.
  replace (Z.max 0 (Z.log2 (Z.abs r) - 52)) with 0%Z by lia.
  apply Z.mod_1_r.
Qed.

Lemma is_float_int_scaled (s : bool) (M : positive) (E : Z) :
  (0 <= E)%Z -> bounded prec emax M E = true ->
  is_float_int (cond_Zopp s (Z.pos M) * 2 ^ E) = true.
Proof.
  intros HE Hb.
  destruct (bounded_facts M E Hb) as (_ & HM & _).
  unfold bounded in Hb. apply andb_true_iff in Hb. destruct Hb as [_ Hmax].
  apply Z.leb_le in Hmax. change (emax - prec)%Z with 971%Z in Hmax.
  assert (Hp : (0 < 2 ^ E)%Z) by (apply Z.pow_pos_nonneg; lia).
  assert (Ha : Z.abs (cond_Zopp s (Z.pos M) * 2 ^ E) = (Z.pos M * 2 ^ E)%Z).
  { rewrite Z.abs_mul, (Z.abs_eq (2 ^ E)) by lia. destruct s; reflexivity. }
  unfold is_float_int. cbv zeta. rewrite Ha.
  rewrite Z.log2_mul_pow2 by lia.
  assert (HL : (Z.log2 (Z.pos M) <= 52)%Z).
  { assert (Z.log2 (Z.pos M) < 53)%Z; [|lia].
    apply Z.log2_lt_pow2; lia. }
  pose proof (Z.log2_nonneg (Z.pos M)) as HL0.
  apply andb_true_iff. split; [apply Z.ltb_lt; lia|].
  apply Z.eqb_eq.
  set (g := Z.max 0 (E + Z.log2 (Z.pos M) - 52)).
  replace E with ((E - g) + g)%Z at 1 by lia.
  rewrite Z.pow_add_r, Z.mul_assoc by lia.
  apply Z.mod_mul. apply Z.pow_nonzero; lia.
Qed.

(** An integer within a half of a float's value is an int that a float
    holds: a float too large to have a fraction is such an int itself. *)
Lemma near_float_int (f : float) (q : Q) (r : Z) :
  value f = Some q ->
  (Qabs (inject_Z r - q) <= 1 # 2)%Q ->
  is_float_int r = true.
Proof.
  unfold value. pose proof (Prim2SF_valid f) as V.
  destruct (Prim2SF f) as [s | s | | s M E]; cbn [SF2Q valid_binary] in *;
    try discriminate.
  - intros [= <-] H. apply Qabs_Qle_condition in H.
    apply is_float_int_small.
    assert (-1 < r < 1)%Z; [|change (2 ^ 53)%Z with 9007199254740992%Z; lia].
    rewrite !Zlt_Qlt. unfold inject_Z at 1 4. lra.
  - intros [= <-] H.
    destruct (Z.le_gt_cases 0 E) as [HE|HE].
    + assert (Hq : (inject_Z (cond_Zopp s (Z.pos M)) * Qpower 2 E
                    == inject_Z (cond_Zopp s (Z.pos M) * 2 ^ E))%Q).
      { rewrite inject_Z_mult, Zpower_Qpower by lia. reflexivity. }
      rewrite Hq in H. apply Qabs_Qle_condition in H.
      assert (Hr : r = (cond_Zopp s (Z.pos M) * 2 ^ E)%Z).
      { set (n := (cond_Zopp s (Z.pos M) * 2 ^ E)%Z) in *.
        assert (r < n + 1 /\ n < r + 1)%Z; [|lia].
        rewrite !Zlt_Qlt, !inject_Z_plus. change (inject_Z 1) with 1%Q.
        lra. }
      rewrite Hr. apply is_float_int_scaled; assumption.
    + destruct (bounded_facts M E V) as (_ & HM & _).
      apply is_float_int_small.
      assert (HP : (0 < Qpower 2 E <= 1 # 2)%Q).
      { split; [apply Qpower_0_lt; reflexivity|].
        change (1 # 2)%Q with (Qpower 2 (-1)).
        apply Qpower_le_compat_l; [lia | discriminate]. }
      assert (HMq : (0 < inject_Z (Z.pos M) < 9007199254740992 # 1)%Q).
      { split.
        - change 0%Q with (inject_Z 0). rewrite <- Zlt_Qlt. lia.
        - change (9007199254740992 # 1)%Q with (inject_Z (2 ^ 53)).
          rewrite <- Zlt_Qlt. exact HM. }
      apply Qabs_Qle_condition in H.
      assert (-4503599627370497 < r < 4503599627370497)%Z;
        [|change (2 ^ 53)%Z with 9007199254740992%Z; lia].
      rewrite !Zlt_Qlt. unfold inject_Z at 1 4.
      set (P := Qpower 2 E) in *. set (Mq := inject_Z (Z.pos M)) in *.
      assert (HMP : (0 <= Mq * P <= Mq * (1 # 2))%Q) by nra.
      destruct s; cbn [cond_Zopp] in H;
        rewrite ?inject_Z_opp in H; fold Mq in H; lra.
Qed.

Lemma round_half_away_nearest (q : Q) :
  (Qabs (inject_Z (round_half_away q) - q) <= 1 # 2)%Q.
Proof.
  unfold round_half_away.
  pose proof (Qfloor_le q) as Hlo. pose proof (Qlt_floor q) as Hhi.
  set (f := Qfloor q) in *.
  rewrite inject_Z_plus in Hhi. change (inject_Z 1) with 1%Q in Hhi.
  apply Qabs_Qle_condition.
  destruct (q - inject_Z f ?= 1 # 2)%Q eqn:E;
    [apply Qeq_alt in E; destruct (Qle_bool 0 q)
    |apply Qlt_alt in E|apply Qgt_alt in E];
    rewrite ?inject_Z_plus; change (inject_Z 1) with 1%Q; lra.
Qed.

(** Every int that [round] gives back from a float is one that a float
    holds. *)
Lemma round_float_int (f : float) (r : Z) :
  round f = Some r -> is_float_int r = true.
Proof.
  unfold round. destruct (value f) as [q|] eqn:E; [|discriminate].
  intros [= <-]. apply (near_float_int f q _ E).
  apply round_half_even_nearest.
Qed.

(** ** C7: the clamping law of [get_tile] *)

Lemma quot_truncates (c : Z) :
  Z.quot c 64 = (Z.sgn c * (Z.abs c / 64))%Z.
Proof.
  rewrite Z.quot_div by lia.
  change (Z.sgn 64) with 1%Z. change (Z.abs 64) with 64%Z. ring.
Qed.

Lemma get_tile_reads (m : Map) (px py : Z) :
  well_formed m ->
  is_float_int px = true -> is_float_int py = true ->
  let nx := Z.min (Z.max (Z.quot px 64) 0) (width m - 1) in
  let ny := Z.min (Z.max (Z.quot py 64) 0) (height m - 1) in
  (0 <= ny * width m + nx < width m * height m)%Z /\
  exists t, get_tile m px py = Some t /\
            nth_error (tiles m) (Z.to_nat (ny * width m + nx)) = Some t.
Proof.
  intros (Hw & Hh & Hlen) Hx Hy. cbv zeta.
  set (nx := Z.min (Z.max (Z.quot px 64) 0) (width m - 1)).
  set (ny := Z.min (Z.max (Z.quot py 64) 0) (height m - 1)).
  assert (Hi : (0 <= ny * width m + nx < width m * height m)%Z)
    by (unfold nx, ny; nia).
  split; [exact Hi|].
  unfold get_tile, TILE_WIDTH, TILE_HEIGHT.
  rewrite (tile_cell_exact px Hx), (tile_cell_exact py Hy). cbn [bind].
  apply getitem_in_range. fold nx ny. lia.
Qed.

(** On a well-formed grid [is_solid] answers at every point with finite
    coordinates. *)
Lemma is_solid_defined (m : Map) (p : Point2d) :
  well_formed m ->
  value (x p) <> None -> value (y p) <> None -> is_solid m p <> None.
Proof.
  intros W Hx Hy. unfold is_solid.
  destruct (round (x p)) as [rx|] eqn:Ex;
    [|unfold round in Ex; destruct (value (x p)); [discriminate | congruence]].
  destruct (round (y p)) as [ry|] eqn:Ey;
    [|unfold round in Ey; destruct (value (y p)); [discriminate | congruence]].
  cbn [bind]. unfold is_tile_solid.
  destruct (get_tile_reads m rx ry W (round_float_int _ _ Ex)
              (round_float_int _ _ Ey)) as (_ & t & -> & _).
  discriminate.
Qed.

(** C7, as the code has it. On a well-formed grid, for query coordinates
    that are ints a float holds (every int up to 2^53 in magnitude and
    every int that [round] gives back, so every coordinate that [is_solid]
    hands over), however far out of bounds, [get_tile] divides each by 64
    truncating toward zero, clamps the column into [0, width-1] and the row
    into [0, height-1], and so reads the tile at [row * width + column], an
    index inside [0, width * height): the read never fails, and [is_solid]
    answers at every point with finite coordinates. *)
Theorem get_tile_clamps (m : Map) (px py : Z) :
  well_formed m ->
  is_float_int px = true -> is_float_int py = true ->
  let cx := (Z.sgn px * (Z.abs px / 64))%Z in
  let cy := (Z.sgn py * (Z.abs py / 64))%Z in
  let nx := Z.min (Z.max cx 0) (width m - 1) in
  let ny := Z.min (Z.max cy 0) (height m - 1) in
  tile_cell px TILE_WIDTH = Some cx /\
  tile_cell py TILE_HEIGHT = Some cy /\
  (0 <= nx <= width m - 1)%Z /\
  (0 <= ny <= height m - 1)%Z /\
  (0 <= ny * width m + nx < width m * height m)%Z /\
  (exists t, get_tile m px py = Some t /\
             nth_error (tiles m) (Z.to_nat (ny * width m + nx)) = Some t) /\
  (forall c, (Z.abs c <= 2 ^ 53)%Z -> is_float_int c = true) /\
  (forall f r, round f = Some r -> is_float_int r = true) /\
  (forall p, value (x p) <> None -> value (y p) <> None ->
             is_solid m p <> None).
Proof.
  intros W Hx Hy. cbv zeta. rewrite <- !quot_truncates.
  pose proof (get_tile_reads m px py W Hx Hy) as [Hi Ht].
  destruct W as (Hw & Hh & Hlen).
  split; [apply tile_cell_exact; exact Hx|].
  split; [apply tile_cell_exact; exact Hy|].
  split; [lia|]. split; [lia|]. split; [exact Hi|]. split; [exact Ht|].
  split; [apply is_float_int_small|].
  split; [apply round_float_int|].
  intros p. apply is_solid_defined. repeat split; assumption.
Qed.

Lemma get_tile_clamps_witness :
  well_formed (mkMap 2 1 [0; 1]%Z) /\
  is_float_int 100000 = true /\ is_float_int (-7) = true /\
  tile_cell 100000 TILE_WIDTH = Some 1562%Z /\
  tile_cell (-7) TILE_HEIGHT = Some 0%Z /\
  exists t, get_tile (mkMap 2 1 [0; 1]%Z) 100000 (-7) = Some t /\
            nth_error [0; 1]%Z 1 = Some t.
Proof.
  assert (W : well_formed (mkMap 2 1 [0; 1]%Z))
    by (unfold well_formed; simpl; lia).
  split; [exact W|]. split; [reflexivity|]. split; [reflexivity|].
  destruct (get_tile_clamps (mkMap 2 1 [0; 1]%Z) 100000 (-7) W
              eq_refl eq_refl)
    as (Hx & Hy & _ & _ & _ & Ht & _).
  split; [exact Hx|]. split; [exact Hy|]. exact Ht.
Defined.

(** C7, as the claim has it, fails far enough out: at x = 2^1100 the
    quotient x / 64 is too large for a float and the division raises
    [OverflowError]; at x = 2^59 + 64 the quotient 2^53 + 1 is rounded to
    the float 2^53 before [int] sees it. *)
Lemma get_tile_fails_far_out :
  well_formed wall /\
  get_tile wall (2 ^ 1100) 0 = None /\
  tile_cell (2 ^ 59 + 64) TILE_WIDTH = Some (2 ^ 53)%Z /\
  Z.quot (2 ^ 59 + 64) 64 = (2 ^ 53 + 1)%Z.
Proof.
  split; [unfold well_formed; simpl; lia|].
  split; [vm_compute; reflexivity|].
  split; vm_compute; reflexivity.
Qed.

(** ** C2: the tile is the same under both tie rules *)

(** A tie that the two rules break differently lies strictly inside one
    tile, or left of (above) the grid. *)
Lemma rounding_mode_same_cell (q : Q) :
  Z.max (Z.quot (round_half_even q) 64) 0
  = Z.max (Z.quot (round_half_away q) 64) 0.
Proof.
  unfold round_half_even, round_half_away.
  pose proof (Qfloor_le q) as Hlo. pose proof (Qlt_floor q) as Hhi.
  set (f := Qfloor q) in *.
  destruct (q - inject_Z f ?= 1 # 2)%Q eqn:E; try reflexivity.
  destruct (Z.even f) eqn:Ev, (Qle_bool 0 q) eqn:Hq; try reflexivity.
  - apply Qle_bool_iff in Hq.
    assert (0 <= f)%Z.
    { change 0%Z with (Qfloor 0). apply Qfloor_resp_le. exact Hq. }
    apply Z.even_spec in Ev. destruct Ev as [k Hk].
    Z.to_euclidean_division_equations. lia.
  - assert (Hneg : (q < 0)%Q).
    { apply Qnot_le_lt. intros C. apply Qle_bool_iff in C. congruence. }
    assert (f < 0)%Z.
    { rewrite Zlt_Qlt. change (inject_Z 0) with 0%Q. lra. }
    Z.to_euclidean_division_equations. lia.
Qed.

Lemma rounding_mode_same_tile (m : Map) (fx fy : float) (qx qy : Q) :
  value fx = Some qx -> value fy = Some qy ->
  is_tile_solid m (round_half_even qx) (round_half_even qy)
  = is_tile_solid m (round_half_away qx) (round_half_away qy).
Proof.
  intros Hx Hy.
  pose proof (near_float_int fx qx _ Hx (round_half_even_nearest qx)) as Ex.
  pose proof (near_float_int fy qy _ Hy (round_half_even_nearest qy)) as Ey.
  pose proof (near_float_int fx qx _ Hx (round_half_away_nearest qx)) as Ax.
  pose proof (near_float_int fy qy _ Hy (round_half_away_nearest qy)) as Ay.
  unfold is_tile_solid, get_tile, TILE_WIDTH, TILE_HEIGHT.
  rewrite !tile_cell_exact by assumption. cbn [bind].
  rewrite (rounding_mode_same_cell qx), (rounding_mode_same_cell qy).
  reflexivity.
Qed.

(** ** C9: the fixed-step loop *)

Lemma leb_nonneg_trans (a b : float) :
  PrimFloat.leb 0 a = true -> PrimFloat.leb a b = true ->
  PrimFloat.leb 0 b = true.
Proof.
  rewrite !leb_spec. change (Prim2SF 0) with (S754_zero false).
  destruct (Prim2SF a) as [sa | sa | | sa ma ea];
    destruct (Prim2SF b) as [sb | sb | | sb mb eb];
    simpl; try discriminate; try reflexivity;
    destruct sa, sb; simpl; try discriminate; try reflexivity.
Qed.

Lemma In_range (a b t : Z) : In t (range a b) <-> (a <= t < b)%Z.
Proof.
  unfold range. rewrite in_map_iff. split.
  - intros (i & <- & Hi). apply in_seq in Hi. lia.
  - intros H. exists (Z.to_nat (t - a)). split; [lia|].
    apply in_seq. lia.
Qed.

Lemma NoDup_range (a b : Z) : NoDup (range a b).
Proof.
  unfold range. apply Injective_map_NoDup; [|apply seq_NoDup].
  intros i j H. lia.
Qed.

(** The ticks one frame runs are logged in order. *)
Lemma for_in_physics_log (ticks : list Z) (g : Game) (log : list Z)
      (s : Game * list Z) :
  for_in ticks
         (fun tick s => g' <- physics (fst s) ;; Some (g', snd s ++ [tick]))
         (g, log) = Some s ->
  snd s = log ++ ticks.
Proof.
  revert g log. induction ticks as [|tick rest IH]; intros g log H.
  - injection H as <-. simpl. rewrite app_nil_r. reflexivity.
  - cbn [for_in fst snd] in H.
    destruct (physics g) as [g'|]; cbn [bind] in H; [|discriminate].
    rewrite (IH _ _ H). rewrite <- app_assoc. reflexivity.
Qed.

Lemma int_floor (f : float) (q : Q) :
  value f = Some q -> (0 <= q)%Q -> int f = Some (Qfloor q).
Proof.
  intros Hv Hq. unfold int. rewrite Hv. simpl.
  rewrite truncate_nonneg by exact Hq. reflexivity.
Qed.

Lemma frame_runs (start_time : float) (f : Frame) (l1 l2 : Loop) :
  frame start_time f l1 = Some l2 ->
  exists new_tick,
    int (elapsed start_time f * 50) = Some new_tick /\
    last_tick l2 = new_tick /\
    ran l2 = ran l1 ++ range (last_tick l1) new_tick.
Proof.
  unfold frame, new_tick_at. fold (elapsed start_time f).
  destruct (int (elapsed start_time f * 50)) as [new_tick|]; cbn [bind];
    [|discriminate].
  destruct (for_in _ _ _) as [s|] eqn:E; cbn [bind]; [|discriminate].
  intros H. injection H as <-. exists new_tick.
  split; [reflexivity|]. split; [reflexivity|].
  cbn [ran]. apply (for_in_physics_log _ _ _ _ E).
Qed.

Lemma leb_refl_tick (prev : float) (t : Z) :
  int (prev * 50) = Some t -> PrimFloat.leb prev prev = true.
Proof.
  rewrite leb_spec. unfold int, value, SFleb. rewrite mul50_spec.
  intros H. rewrite SFcompare_refl; [reflexivity|].
  destruct (Prim2SF prev); simpl in *; congruence.
Qed.

Lemma main_loop_invariant (start_time : float) (frames : list Frame)
      (prev : float) (l0 l1 : Loop) :
  PrimFloat.leb 0 prev = true ->
  int (prev * 50) = Some (last_tick l0) ->
  ran l0 = range 0 (last_tick l0) ->
  nondecreasing prev (List.map (elapsed start_time) frames) ->
  main_loop start_time frames l0 = Some l1 ->
  ran l1 = range 0 (last_tick l1) /\ (0 <= last_tick l1)%Z.
Proof.
  revert prev l0.
  induction frames as [|f rest IH]; intros prev l0 H0 Ht Hran Hs H.
  - injection H as <-. split; [exact Hran|].
    pose proof (leb_refl_tick prev _ Ht) as Hpp.
    destruct (tick_mono prev prev _ _ H0 Hpp Ht Ht) as [Hz _]. exact Hz.
  - cbn [main_loop] in H.
    pose proof (leb_refl_tick prev _ Ht) as Hpp.
    destruct (tick_mono prev prev _ _ H0 Hpp Ht Ht) as [Hz _].
    destruct (inputs (game l0) QUIT).
    + injection H as <-. split; [exact Hran | exact Hz].
    + destruct (frame start_time f l0) as [l2|] eqn:E; cbn [bind] in H;
        [|discriminate].
      destruct (frame_runs _ _ _ _ E) as (new_tick & Hnew & Hlast & Hlog).
      cbn [List.map nondecreasing] in Hs. destruct Hs as [Hle Hrest].
      destruct (tick_mono _ _ _ _ H0 Hle Ht Hnew) as [_ Hmono].
      apply (IH (elapsed start_time f) l2); [ | | | exact Hrest | exact H].
      * apply (leb_nonneg_trans prev); assumption.
      * rewrite Hlast. exact Hnew.
      * rewrite Hlog, Hran, Hlast. apply range_app. lia.
Qed.

(** The game a frame leaves is [physics] applied once per tick it ran. *)
Lemma for_in_physics_times (ticks : list Z) (g : Game) (log : list Z) :
  option_map fst
    (for_in ticks
       (fun tick s => g' <- physics (fst s) ;; Some (g', snd s ++ [tick]))
       (g, log))
  = physics_times (List.length ticks) g.
Proof.
  revert g log. induction ticks as [|tick rest IH]; intros g log;
    [reflexivity|].
  cbn [for_in fst snd List.length physics_times].
  destruct (physics g) as [g'|]; cbn [bind]; [apply IH | reflexivity].
Qed.

Lemma frame_physics_times (start_time : float) (f : Frame) (l1 l2 : Loop) :
  frame start_time f l1 = Some l2 ->
  exists new_tick,
    new_tick_at start_time (clock f) = Some new_tick /\
    last_tick l2 = new_tick /\
    physics_times (Z.to_nat (new_tick - last_tick l1))
                  (handle_input (game l1) (events f)) = Some (game l2).
Proof.
  unfold frame.
  destruct (new_tick_at start_time (clock f)) as [new_tick|]; cbn [bind];
    [|discriminate].
  pose proof (for_in_physics_times (range (last_tick l1) new_tick)
                (handle_input (game l1) (events f)) (ran l1)) as Hn.
  destruct (for_in _ _ _) as [s|]; cbn [bind]; [|discriminate].
  intros H. injection H as <-. exists new_tick.
  split; [reflexivity|]. split; [reflexivity|].
  cbn [game]. rewrite range_length in Hn. rewrite <- Hn. reflexivity.
Qed.

Lemma main_loop_fixed_step (start_time : float) (frames : list Frame)
      (l0 l : Loop) :
  main_loop start_time frames l0 = Some l ->
  fixed_step_run start_time frames (last_tick l0) (game l0)
  = Some (last_tick l, game l).
Proof.
  revert l0. induction frames as [|f rest IH]; intros l0 H;
    cbn [main_loop fixed_step_run] in *.
  - injection H as <-. reflexivity.
  - destruct (inputs (game l0) QUIT).
    + injection H as <-. reflexivity.
    + destruct (frame start_time f l0) as [l1|] eqn:E; cbn [bind] in H;
        [|discriminate].
      destruct (frame_physics_times _ _ _ _ E) as (new_tick & Hn & Hl & Hp).
      rewrite Hn. cbn [bind]. rewrite Hp. cbn [bind].
      rewrite <- Hl. apply IH. exact H.
Qed.

(** C9. Let the elapsed-seconds samples of the frames start at or after 0
    and never decrease. Each frame computes the tick [int(elapsed * 50)],
    the floor of that product, and runs [physics] once for every tick from
    [last_tick] up to it: the game it leaves is the game after the input
    was handled, with [physics] applied (new tick - last tick) times.  At
    the end of the run the game and the last tick are those of the
    fixed-step schedule, and the ticks [physics] ran for are exactly 0, 1,
    ..., [last_tick - 1], each once. *)
Theorem main_runs_every_tick_once (m : Map) (start_time : float)
        (frames : list Frame) (l : Loop) :
  nondecreasing 0 (List.map (elapsed start_time) frames) ->
  main m start_time frames = Some l ->
  (ran l = range 0 (last_tick l) /\
   (0 <= last_tick l)%Z /\
   NoDup (ran l) /\
   (forall t, In t (ran l) <-> (0 <= t < last_tick l)%Z) /\
   fixed_step_run start_time frames 0 (mkGame no_inputs restart m)
   = Some (last_tick l, game l)) /\
  (forall f l1 l2,
     frame start_time f l1 = Some l2 ->
     exists new_tick,
       new_tick_at start_time (clock f) = Some new_tick /\
       last_tick l2 = new_tick /\
       ran l2 = ran l1 ++ range (last_tick l1) new_tick /\
       List.length (range (last_tick l1) new_tick)
       = Z.to_nat (new_tick - last_tick l1) /\
       (forall q, value (elapsed start_time f * 50) = Some q ->
                  (0 <= q)%Q -> new_tick = Qfloor q) /\
       physics_times (Z.to_nat (new_tick - last_tick l1))
                     (handle_input (game l1) (events f)) = Some (game l2)).
Proof.
  intros Hs Hmain. split.
  - unfold main in Hmain.
    destruct (main_loop_invariant start_time frames 0
                (mkLoop (mkGame no_inputs restart m) 0 []) l
                eq_refl eq_refl eq_refl Hs Hmain) as [Hran Hz].
    split; [exact Hran|]. split; [exact Hz|]. split; [|split].
    + rewrite Hran. apply NoDup_range.
    + intros t. rewrite Hran. apply In_range.
    + apply (main_loop_fixed_step _ _ _ _ Hmain).
  - intros f l1 l2 Hf.
    destruct (frame_runs _ _ _ _ Hf) as (new_tick & Hnew & Hlast & Hlog).
    destruct (frame_physics_times _ _ _ _ Hf) as (new_tick' & Hnew' & _ & Hp).
    assert (new_tick' = new_tick)
      by (unfold new_tick_at in Hnew'; fold (elapsed start_time f) in Hnew';
          congruence).
    subst new_tick'.
    exists new_tick. split; [exact Hnew|]. split; [exact Hlast|].
    split; [exact Hlog|]. split; [apply range_length|]. split; [|exact Hp].
    intros q Hq Hq0. rewrite (int_floor _ _ Hq Hq0) in Hnew.
    injection Hnew as <-. reflexivity.
Qed.

Lemma main_runs_every_tick_once_witness :
  nondecreasing 0 (List.map (elapsed 0) five_frames) /\
  exists l, main open_air 0 five_frames = Some l /\
            last_tick l = 2%Z /\ ran l = [0; 1]%Z /\
            player (game l)
            = mkPlayer (mkPoint2d 170 502.25) (mkPoint2d 0 1.5).
Proof.
  assert (H : nondecreasing 0 (List.map (elapsed 0) five_frames))
    by (vm_compute; repeat split).
  split; [exact H|].
  destruct (main open_air 0 five_frames) as [l|] eqn:E;
    [|vm_compute in E; discriminate E].
  exists l. split; [reflexivity|].
  destruct (main_runs_every_tick_once open_air 0 five_frames l H E)
    as [(Hran & _ & _ & _ & Hrun) _].
  assert (Hf : fixed_step_run 0 five_frames 0 (mkGame no_inputs restart open_air)
               = Some (2%Z, mkGame no_inputs
                              (mkPlayer (mkPoint2d 170 502.25) (mkPoint2d 0 1.5))
                              open_air)).
  { unfold five_frames. cbn [fixed_step_run no_inputs inputs].
    vm_compute. reflexivity. }
  rewrite Hf in Hrun. injection Hrun as Hl Hg.
  split; [symmetry; exact Hl|]. split; [rewrite Hran, <- Hl; reflexivity|].
  rewrite <- Hg. reflexivity.
Defined.

(** The specification's example: tick boundaries 0, 0, 1, 1, 2. *)
Example ticks_0_0_1_1_2 :
  List.map (fun f => new_tick_at 0 (clock f)) five_frames
  = [Some 0; Some 0; Some 1; Some 1; Some 2]%Z /\
  option_map (fun l => (last_tick l, ran l)) (main open_air 0 five_frames)
  = Some (2, [0; 1])%Z.
Proof. vm_compute. split; reflexivity. Qed.

(** ** The physics tick: what it hands to [move_box] and what comes back *)

(** [move_box] gives each velocity component back as it got it, or zeroed. *)
Lemma move_box_velocity (m : Map) (pos vel size : Point2d)
      (result : set Collision) (pos' vel' : Point2d) :
  move_box m pos vel size = Some (Moved result pos' vel') ->
  (x vel' = x vel \/ x vel' = 0%float) /\
  (y vel' = y vel \/ y vel' = 0%float).
Proof.
  intros H. apply move_box_inv in H.
  destruct H as (maximum & d & fraction & s & _ & _ & _ & Hloop & E).
  injection E as -> -> ->.
  destruct (move_loop_stopped_by m size fraction _ _ _ Hloop)
    as (SX & SY & SC).
  { repeat split; intros []. }
  destruct (set_In_dec Collision_eq_dec CORNER (s_result s)) as [C|NC].
  { rewrite (SC C). split; right; reflexivity. }
  split.
  - destruct (set_In_dec Collision_eq_dec X (s_result s)) as [HX|NX].
    + right. exact (SX HX).
    + left. exact (proj1 (move_loop_free_x m size fraction _ _ _ Hloop NX NC)).
  - destruct (set_In_dec Collision_eq_dec Y (s_result s)) as [HY|NY].
    + right. exact (SY HY).
    + left. exact (proj1 (move_loop_free_y m size fraction _ _ _ Hloop NY NC)).
Qed.

(** [move_box] raises on a velocity whose x is not a number. *)
Lemma move_box_nan (m : Map) (pos vel size : Point2d) :
  Prim2SF (x vel) = S754_nan -> move_box m pos vel size = None.
Proof.
  intros H. unfold move_box. cbv zeta.
  assert (E : int (Point2d_len vel) = None).
  { unfold int, value, Point2d_len.
    rewrite sqrt_spec, add_spec, mul_spec, H. reflexivity. }
  rewrite E. reflexivity.
Qed.

(** The steering keys as a number, as [physics] converts it to a float. *)
Lemma direction_float (right left : bool) :
  float_of_int ((if right then 1 else 0) - (if left then 1 else 0))
  = Some (match right, left with
          | true, false => 1
          | false, true => -1
          | _, _ => 0
          end)%float.
Proof. destruct right, left; reflexivity. Qed.

(** [physics], step by step. *)
Lemma physics_inv (g g' : Game) :
  physics g = Some g' ->
  let p := if inputs g RESTART then restart else player g in
  let direction := match inputs g RIGHT, inputs g LEFT with
                   | true, false => 1
                   | false, true => -1
                   | _, _ => 0
                   end%float in
  exists ground result,
    on_ground (map g) (pos p) PLAYER_SIZE = Some ground /\
    let vel_y := ((if inputs g JUMP && ground then -21 else y (vel p))
                  + 0.75)%float in
    let vel_x := (if ground then 0.5 * x (vel p) + 4 * direction
                  else 0x1.e666666666666p-1 * x (vel p)
                       + 2 * direction)%float in
    move_box (map g) (pos p) (mkPoint2d (min (max vel_x (-8)) 8) vel_y)
             PLAYER_SIZE
    = Some (Moved result (pos (player g')) (vel (player g'))) /\
    inputs g' = inputs g /\ map g' = map g.
Proof.
  unfold physics. cbv zeta.
  set (p := if inputs g RESTART then restart else player g).
  destruct (on_ground (map g) (pos p) PLAYER_SIZE) as [ground|];
    cbn [bind]; [|discriminate].
  rewrite direction_float. cbn [bind].
  destruct (move_box _ _ _ _) as [[result pos' vel'|result]|] eqn:E;
    cbn [bind]; try discriminate.
  intros H. injection H as <-. exists ground, result.
  split; [reflexivity|]. cbn [player pos vel inputs map].
  split; [|split; reflexivity].
  rewrite <- E. f_equal. f_equal.
  destruct (inputs g JUMP), ground; reflexivity.
Qed.

(** *** Comparisons of floats *)

Lemma SFcompare_antisym (a b : spec_float) (c : comparison) :
  SFcompare a b = Some c -> SFcompare b a = Some (CompOpp c).
Proof.
  destruct a as [sa | sa | | sa ma ea], b as [sb | sb | | sb mb eb];
    cbn [SFcompare]; try discriminate;
    intros [= <-]; try (destruct sa; reflexivity);
    try (destruct sb; reflexivity);
    try (destruct sa, sb; reflexivity).
  f_equal. rewrite (Z.compare_antisym ea eb).
  assert (P : Pos.compare_cont Eq mb ma
              = CompOpp (Pos.compare_cont Eq ma mb))
    by (rewrite Pos.compare_cont_antisym; reflexivity).
  rewrite P.
  destruct sa, sb; try reflexivity;
    destruct (ea ?= eb)%Z; cbn [CompOpp]; try reflexivity.
Qed.

(** A number that is not below [lo] is at or above it. *)
Lemma not_ltb_leb (a lo : float) :
  Prim2SF a <> S754_nan -> Prim2SF lo <> S754_nan ->
  PrimFloat.ltb a lo = false -> PrimFloat.leb lo a = true.
Proof.
  rewrite ltb_spec, leb_spec. unfold SFltb, SFleb. intros Ha Hlo.
  destruct (SFcompare (Prim2SF a) (Prim2SF lo)) as [c|] eqn:E.
  - rewrite (SFcompare_antisym _ _ _ E).
    destruct c; cbn [CompOpp]; congruence.
  - exfalso. destruct (Prim2SF a), (Prim2SF lo); cbn [SFcompare] in E;
      congruence.
Qed.

(** What [min(max(v, -8), 8)] gives: a number from -8 to 8, or not a
    number when [v] is none. *)
Lemma clamp_range (v : float) :
  let c := min (max v (-8)) 8 in
  Prim2SF c = S754_nan \/
  (PrimFloat.leb (-8) c = true /\ PrimFloat.leb c 8 = true).
Proof.
  cbv zeta. unfold min, max.
  destruct (PrimFloat.ltb v (-8)) eqn:Elo.
  - right. split; reflexivity.
  - destruct (PrimFloat.ltb 8 v) eqn:Ehi.
    + right. split; reflexivity.
    + destruct (Prim2SF v) eqn:Ev; [| |left; reflexivity|];
        (right; split; apply not_ltb_leb; rewrite ?Ev;
         try discriminate; assumption).
Qed.

(** A tick keeps a clear box clear. *)
Lemma physics_clear_step (m : Map) (g g' : Game) :
  map g = m ->
  test_box m (pos restart) PLAYER_SIZE = Some false ->
  test_box m (pos (player g)) PLAYER_SIZE = Some false ->
  physics g = Some g' ->
  map g' = m /\ inputs g' = inputs g /\
  test_box m (pos (player g')) PLAYER_SIZE = Some false.
Proof.
  intros Hm Hspawn Hclear H.
  destruct (physics_inv g g' H) as (ground & result & _ & Hmove & Hi & Hmap).
  cbv zeta in Hmove. rewrite Hm in *.
  split; [congruence|]. split; [exact Hi|].
  apply move_box_inv in Hmove.
  destruct Hmove as (maximum & d & fraction & s & _ & _ & _ & Hloop & E).
  injection E as _ Hp _. rewrite Hp.
  apply (move_loop_keeps_clear m PLAYER_SIZE fraction _ _ _) with (2 := Hloop).
  cbn [s_pos]. destruct (inputs g RESTART); assumption.
Qed.

(** X1. [move_box] never takes its [distance < 0] exit: the length of a
    vector is never below zero, so what comes back is always the triple
    [result, pos, vel], never the bare set. *)
Theorem move_box_never_bare (m : Map) (pos vel size : Point2d)
        (result : set Collision) :
  move_box m pos vel size <> Some (Bare result).
Proof.
  intros H. apply move_box_inv in H.
  destruct H as (maximum & d & fraction & s & _ & _ & _ & _ & E).
  discriminate E.
Qed.

(** X2. After every tick that returns, the player's horizontal speed is a
    number from -8 to 8: it is the blend of the old speed with the
    steering keys, clamped, or 0 where a collision stopped it. *)
Theorem physics_clamps_speed (g g' : Game) :
  physics g = Some g' ->
  let p := if inputs g RESTART then restart else player g in
  let direction := match inputs g RIGHT, inputs g LEFT with
                   | true, false => 1
                   | false, true => -1
                   | _, _ => 0
                   end%float in
  PrimFloat.leb (-8) (x (vel (player g'))) = true /\
  PrimFloat.leb (x (vel (player g'))) 8 = true /\
  exists ground,
    on_ground (map g) (pos p) PLAYER_SIZE = Some ground /\
    (x (vel (player g')) = 0%float \/
     x (vel (player g'))
     = min (max (if ground then 0.5 * x (vel p) + 4 * direction
                 else 0x1.e666666666666p-1 * x (vel p) + 2 * direction)
                (-8)) 8)%float.
Proof.
  intros H. cbv zeta.
  destruct (physics_inv g g' H) as (ground & result & Hg & Hmove & _).
  cbv zeta in Hmove.
  destruct (move_box_velocity _ _ _ _ _ _ _ Hmove) as [[Hx|Hx] _];
    cbn [x] in Hx.
  - match type of Hx with
    | _ = min (max ?v (-8)) 8 =>
        destruct (clamp_range v) as [Hnan|[Hlo Hhi]]
    end.
    + rewrite (move_box_nan _ _ (mkPoint2d _ _) _ Hnan) in Hmove.
      discriminate Hmove.
    + rewrite Hx.
      split; [exact Hlo|]. split; [exact Hhi|].
      exists ground. split; [exact Hg|]. right. reflexivity.
  - rewrite Hx. split; [reflexivity|]. split; [reflexivity|].
    exists ground. split; [exact Hg|]. left. reflexivity.
Qed.

Lemma physics_clamps_speed_witness :
  exists g',
    physics (mkGame (pressing RIGHT)
                    (mkPlayer (mkPoint2d 170 500) (mkPoint2d 100 0))
                    open_air) = Some g' /\
    PrimFloat.leb (x (vel (player g'))) 8 = true.
Proof.
  destruct (physics (mkGame (pressing RIGHT)
                            (mkPlayer (mkPoint2d 170 500) (mkPoint2d 100 0))
                            open_air)) as [g'|] eqn:E;
    [|vm_compute in E; discriminate E].
  exists g'. split; [reflexivity|].
  exact (proj1 (proj2 (physics_clamps_speed _ g' E))).
Defined.

(** X3. After every tick that returns, the player's vertical speed is the
    old one plus the gravity 0.75, or -21 plus the gravity when the jump
    key is down and the player stands on the ground, or 0 where a collision
    stopped it: there is no jump in mid-air. *)
Theorem physics_gravity_and_jump (g g' : Game) :
  physics g = Some g' ->
  let p := if inputs g RESTART then restart else player g in
  exists ground,
    on_ground (map g) (pos p) PLAYER_SIZE = Some ground /\
    (y (vel (player g')) = 0%float \/
     y (vel (player g'))
     = ((if inputs g JUMP && ground then -21 else y (vel p)) + 0.75)%float).
Proof.
  intros H. cbv zeta.
  destruct (physics_inv g g' H) as (ground & result & Hg & Hmove & _).
  cbv zeta in Hmove.
  destruct (move_box_velocity _ _ _ _ _ _ _ Hmove) as [_ [Hy|Hy]];
    cbn [y] in Hy; exists ground; (split; [exact Hg|]);
    [right | left]; exact Hy.
Qed.

Lemma physics_gravity_and_jump_witness :
  exists g',
    physics (mkGame (pressing JUMP) restart open_air) = Some g' /\
    on_ground open_air (pos restart) PLAYER_SIZE = Some false /\
    y (vel (player g')) = 0.75%float.
Proof.
  destruct (physics (mkGame (pressing JUMP) restart open_air))
    as [g'|] eqn:E; [|vm_compute in E; discriminate E].
  exists g'. split; [reflexivity|].
  destruct (physics_gravity_and_jump _ g' E) as (ground & Hg & Hy).
  assert (Hair : on_ground open_air (pos restart) PLAYER_SIZE = Some false)
    by (vm_compute; reflexivity).
  split; [exact Hair|].
  cbn [inputs player map] in Hg, Hy.
  change (pressing JUMP RESTART) with false in Hg, Hy. cbv iota in Hg, Hy.
  rewrite Hair in Hg. injection Hg as <-.
  vm_compute in E. injection E as <-. reflexivity.
Defined.

(** X4. A tick never moves the player into a wall: if the box of the player
    the tick starts from (the spawn point when restart is down) touches no
    solid tile, neither does the box of the player it ends with; the tick
    changes neither the keys nor the map. *)
Theorem physics_keeps_clear (g g' : Game) :
  let p := if inputs g RESTART then restart else player g in
  test_box (map g) (pos p) PLAYER_SIZE = Some false ->
  physics g = Some g' ->
  test_box (map g') (pos (player g')) PLAYER_SIZE = Some false /\
  map g' = map g /\ inputs g' = inputs g.
Proof.
  cbv zeta. intros Hclear H.
  destruct (physics_inv g g' H) as (ground & result & _ & Hmove & Hi & Hmap).
  cbv zeta in Hmove. rewrite Hmap.
  split; [|split; [reflexivity | exact Hi]].
  apply move_box_inv in Hmove.
  destruct Hmove as (maximum & d & fraction & s & _ & _ & _ & Hloop & E).
  injection E as _ Hp _. rewrite Hp.
  apply (move_loop_keeps_clear (map g) PLAYER_SIZE fraction _ _ _)
    with (2 := Hloop).
  exact Hclear.
Qed.

Lemma physics_keeps_clear_witness :
  test_box wall (mkPoint2d 20 20) PLAYER_SIZE = Some false /\
  exists g',
    physics (mkGame (pressing RIGHT)
                    (mkPlayer (mkPoint2d 20 20) (mkPoint2d 8 0)) wall)
    = Some g' /\
    test_box wall (pos (player g')) PLAYER_SIZE = Some false.
Proof.
  assert (Hclear : test_box wall (mkPoint2d 20 20) PLAYER_SIZE = Some false)
    by (vm_compute; reflexivity).
  split; [exact Hclear|].
  set (G := mkGame (pressing RIGHT)
                   (mkPlayer (mkPoint2d 20 20) (mkPoint2d 8 0)) wall).
  assert (Hstart : test_box (map G)
                     (pos (if inputs G RESTART then restart else player G))
                     PLAYER_SIZE = Some false)
    by (vm_compute; reflexivity).
  destruct (physics G) as [g'|] eqn:E; [|vm_compute in E; discriminate E].
  exists g'. split; [reflexivity|].
  destruct (physics_keeps_clear G g' Hstart E) as (Hc & Hm & _).
  rewrite Hm in Hc. exact Hc.
Defined.

(** One frame keeps a clear box clear. *)
Lemma frame_keeps_clear (m : Map) (start_time : float) (f : Frame)
      (l l' : Loop) :
  test_box m (pos restart) PLAYER_SIZE = Some false ->
  map (game l) = m ->
  test_box m (pos (player (game l))) PLAYER_SIZE = Some false ->
  frame start_time f l = Some l' ->
  map (game l') = m /\
  test_box m (pos (player (game l'))) PLAYER_SIZE = Some false.
Proof.
  intros Hspawn Hm Hclear. unfold frame.
  destruct (new_tick_at start_time (clock f)) as [new_tick|]; cbn [bind];
    [|discriminate].
  destruct (for_in _ _ _) as [s|] eqn:E; cbn [bind]; [|discriminate].
  intros H. injection H as <-. cbn [game].
  apply (for_in_invariant
           (fun s : Game * list Z =>
              map (fst s) = m /\
              test_box m (pos (player (fst s))) PLAYER_SIZE = Some false)
           (fun tick s => g' <- physics (fst s) ;; Some (g', snd s ++ [tick])))
    with (2 := E).
  - intros tick [g log] s'. cbn [fst snd].
    destruct (physics g) as [g'|] eqn:Ep; cbn [bind]; [|discriminate].
    intros H [Hg Hc]. injection H as <-. cbn [fst].
    destruct (physics_clear_step m g g' Hg Hspawn Hc Ep) as (A & _ & B).
    split; assumption.
  - cbn [fst handle_input map player]. split; assumption.
Qed.

(** X5. Through the whole game loop the player never ends a frame inside a
    wall: if the box at the spawn point touches no solid tile, neither does
    the player's box after any number of frames, whatever the events and
    the clock readings; the map stays the one that was loaded. *)
Theorem main_keeps_clear (m : Map) (start_time : float)
        (frames : list Frame) (l : Loop) :
  test_box m (pos restart) PLAYER_SIZE = Some false ->
  main m start_time frames = Some l ->
  test_box m (pos (player (game l))) PLAYER_SIZE = Some false /\
  map (game l) = m.
Proof.
  intros Hspawn. unfold main.
  assert (Inv : forall l0,
             map (game l0) = m ->
             test_box m (pos (player (game l0))) PLAYER_SIZE = Some false ->
             main_loop start_time frames l0 = Some l ->
             test_box m (pos (player (game l))) PLAYER_SIZE = Some false /\
             map (game l) = m).
  { induction frames as [|f rest IH]; intros l0 Hm Hc H; cbn [main_loop] in H.
    - injection H as <-. split; assumption.
    - destruct (inputs (game l0) QUIT).
      + injection H as <-. split; assumption.
      + destruct (frame start_time f l0) as [l1|] eqn:E; cbn [bind] in H;
          [|discriminate].
        destruct (frame_keeps_clear m _ _ _ _ Hspawn Hm Hc E) as [Hm1 Hc1].
        exact (IH l1 Hm1 Hc1 H). }
  apply Inv; [reflexivity | exact Hspawn].
Qed.

Lemma main_keeps_clear_witness :
  test_box arena (pos restart) PLAYER_SIZE = Some false /\
  exists l,
    main arena 0 run_right = Some l /\
    last_tick l = 50%Z /\
    inputs (game l) RIGHT = true /\
    vel (player (game l)) = mkPoint2d 0 0 /\
    test_box arena (pos (player (game l))) PLAYER_SIZE = Some false.
Proof.
  assert (Hspawn : test_box arena (pos restart) PLAYER_SIZE = Some false)
    by (vm_compute; reflexivity).
  split; [exact Hspawn|].
  destruct (main arena 0 run_right) as [l|] eqn:E;
    [|vm_compute in E; discriminate E].
  exists l. split; [reflexivity|].
  pose proof (proj1 (main_keeps_clear arena 0 run_right l Hspawn E)) as Hclear.
  vm_compute in E. injection E as El.
  split; [rewrite <- El; reflexivity|].
  split; [rewrite <- El; reflexivity|].
  split; [rewrite <- El; reflexivity | exact Hclear].
Defined.

(** ** The tick keeps the numbers finite *)

Lemma value_of_add (a h : float) : value (a + h) <> None -> value a <> None.
Proof.
  unfold value. rewrite add_spec.
  destruct (Prim2SF a) as [sa | sa | | sa ma ea]; try discriminate.
  - destruct (Prim2SF h) as [sh | sh | | sh mh eh]; simpl; try congruence;
      destruct sa, sh; simpl; congruence.
  - destruct (Prim2SF h); simpl; congruence.
Qed.

Lemma is_solid_finite (m : Map) (p : Point2d) :
  is_solid m p <> None -> value (x p) <> None /\ value (y p) <> None.
Proof.
  unfold is_solid, round.
  destruct (value (x p)); [|intros C; exfalso; apply C; reflexivity].
  destruct (value (y p)); [|intros C; exfalso; apply C; reflexivity].
  intros _. split; discriminate.
Qed.

Lemma on_ground_finite (m : Map) (pos size : Point2d) (b : bool) :
  on_ground m pos size = Some b ->
  value (x pos) <> None /\ value (y pos) <> None.
Proof.
  unfold on_ground. cbv zeta. intros H.
  assert (Hs : is_solid m
                 (mkPoint2d (x pos - x (Point2d_mul size 0.5))
                            (y pos + y (Point2d_mul size 0.5) + 1)) <> None).
  { intros C. rewrite C in H. discriminate H. }
  apply is_solid_finite in Hs. cbn [x y] in Hs. destruct Hs as [Hx Hy].
  split.
  - apply (value_of_sub _ _ Hx).
  - apply (value_of_add _ _ (value_of_add _ _ Hy)).
Qed.

(** A sub-step commits finite coordinates only. *)
Lemma move_step_finite (m : Map) (size : Vector2d) (fraction : float)
      (s s' : Sweep) :
  move_step m size fraction s = Some s' ->
  value (x (s_pos s)) <> None /\ value (y (s_pos s)) <> None ->
  value (x (s_pos s')) <> None /\ value (y (s_pos s')) <> None.
Proof.
  intros H [Fx Fy]. apply move_step_cases in H. cbv zeta in H.
  destruct H as [[Hc ->] | [Hc (cy & cx & Hy & Hx & ->)]].
  - exact (test_box_finite _ _ _ _ Hc).
  - apply test_box_finite in Hy, Hx. cbn [x y] in Hy, Hx.
    destruct cy, cx; cbn [s_pos x y]; split; tauto.
Qed.

(** A velocity that has a length has finite components. *)
Lemma len_finite (v : Vector2d) :
  value (Point2d_len v) <> None ->
  value (x v) <> None /\ value (y v) <> None.
Proof.
  unfold value, Point2d_len. rewrite sqrt_spec, add_spec, !mul_spec.
  unfold SF64sqrt, SF64add, SF64mul. intros H.
  split; intros C; apply H; clear H.
  - destruct (Prim2SF (x v)) as [sa | sa | | sa ma ea]; try discriminate C;
      cbn [SFmul];
      destruct (SFmul prec emax (Prim2SF (y v)) (Prim2SF (y v)))
        as [sb | sb | | sb mb eb];
      try destruct sa; try destruct sb; reflexivity.
  - destruct (Prim2SF (y v)) as [sa | sa | | sa ma ea]; try discriminate C;
      cbn [SFmul];
      destruct (SFmul prec emax (Prim2SF (x v)) (Prim2SF (x v)))
        as [sb | sb | | sb mb eb];
      try destruct sa; try destruct sb; reflexivity.
Qed.

(** X14. A tick that returns leaves finite numbers only: it started from a
    finite position, and the position and the velocity it ends with are
    finite; so a tick that starts from a position with an infinite or NaN
    coordinate raises. *)
Theorem physics_stays_finite (g g' : Game) :
  physics g = Some g' ->
  let p := if inputs g RESTART then restart else player g in
  (value (x (pos p)) <> None /\ value (y (pos p)) <> None) /\
  (value (x (pos (player g'))) <> None /\
   value (y (pos (player g'))) <> None) /\
  (value (x (vel (player g'))) <> None /\
   value (y (vel (player g'))) <> None).
Proof.
  intros H. cbv zeta.
  destruct (physics_inv g g' H) as (ground & result & Hg & Hmove & _).
  cbv zeta in Hmove.
  pose proof (on_ground_finite _ _ _ _ Hg) as Hstart.
  split; [exact Hstart|].
  pose proof (move_box_velocity _ _ _ _ _ _ _ Hmove) as [Hvx Hvy].
  cbn [x y] in Hvx, Hvy.
  apply move_box_inv in Hmove.
  destruct Hmove as (maximum & d & fraction & s & Hint & _ & _ & Hloop & E).
  injection E as _ Hp Hv.
  match type of Hint with
  | int (Point2d_len ?v) = _ =>
      assert (Hlen : value (Point2d_len v) <> None)
        by (unfold int in Hint; intros C; rewrite C in Hint;
            discriminate Hint)
  end.
  apply len_finite in Hlen. cbn [x y] in Hlen.
  split.
  - rewrite Hp.
    apply (for_in_invariant
             (fun s => value (x (s_pos s)) <> None /\
                       value (y (s_pos s)) <> None)
             (fun _ : Z => move_step (map g) PLAYER_SIZE fraction)
             (fun _ => move_step_finite (map g) PLAYER_SIZE fraction))
      with (1 := Hloop).
    exact Hstart.
  - assert (Z0 : value 0 <> None) by discriminate.
    destruct Hvx as [-> | ->], Hvy as [-> | ->]; tauto.
Qed.

Lemma physics_stays_finite_witness :
  exists g',
    physics (mkGame (pressing RIGHT) restart open_air) = Some g' /\
    value (x (pos (player g'))) <> None.
Proof.
  destruct (physics (mkGame (pressing RIGHT) restart open_air))
    as [g'|] eqn:E; [|vm_compute in E; discriminate E].
  exists g'. split; [reflexivity|].
  exact (proj1 (proj1 (proj2 (physics_stays_finite _ g' E)))).
Defined.

(** A velocity that is not finite need not make the tick raise: an
    infinite horizontal speed is clamped to 8, and the tick goes on. *)
Example infinite_speed_is_clamped :
  option_map (fun g => vel (player g))
    (physics (mkGame no_inputs
                     (mkPlayer (mkPoint2d 170 500) (mkPoint2d infinity 0))
                     open_air))
  = Some (mkPoint2d 8 0.75).
Proof. vm_compute. reflexivity. Qed.

(** ** The keyboard: [handle_input] and the end of the loop *)

Lemma handle_event_about (inputs : Input -> bool) (event : Event) (i : Input) :
  handle_event inputs event i
  = if about event i
    then match event with SDL_KEYUP _ => false | _ => true end
    else inputs i.
Proof.
  destruct event as [|sym|sym|]; cbn [handle_event about]; unfold set_input;
    try destruct (Input_eq_dec _ i); reflexivity.
Qed.

Lemma handle_events_untouched (events : list Event) (inputs : Input -> bool)
      (i : Input) :
  (forall event, In event events -> about event i = false) ->
  fold_left handle_event events inputs i = inputs i.
Proof.
  revert inputs. induction events as [|e rest IH]; intros inputs H;
    [reflexivity|].
  cbn [fold_left]. rewrite IH by (intros e' He'; apply H; right; exact He').
  rewrite handle_event_about, (H e) by (left; reflexivity). reflexivity.
Qed.

(** X6. [handle_input] lets the last event about an input decide it: after
    a batch of events an input is down if the last event about it was its
    key going down (or, for QUIT, the window being closed), up if that was
    its key going up, and as before if no event was about it.  A key with
    no input of its own touches [NONE] only; the player and the map are
    left alone. *)
Theorem handle_input_last_event_wins (g : Game) (before after : list Event)
        (event : Event) (i : Input) :
  about event i = true ->
  (forall e, In e after -> about e i = false) ->
  inputs (handle_input g (before ++ event :: after)) i
  = match event with SDL_KEYUP _ => false | _ => true end /\
  (forall events j,
     (forall e, In e events -> about e j = false) ->
     inputs (handle_input g events) j = inputs g j) /\
  (forall j, j <> NONE -> about (SDL_KEYDOWN SDLK_other) j = false /\
                          about (SDL_KEYUP SDLK_other) j = false /\
                          about SDL_OTHER j = false) /\
  (forall events, player (handle_input g events) = player g /\
                  map (handle_input g events) = map g).
Proof.
  intros He Hafter. split; [|split; [|split]].
  - unfold handle_input. cbn [inputs].
    rewrite fold_left_app. cbn [fold_left].
    rewrite (handle_events_untouched after _ i Hafter).
    rewrite handle_event_about, He. reflexivity.
  - intros events j H. unfold handle_input. cbn [inputs].
    apply handle_events_untouched. exact H.
  - intros j Hj. cbn [about to_input].
    destruct (Input_eq_dec NONE j) as [E|_]; [congruence|]. auto.
  - intros events. split; reflexivity.
Qed.

Lemma handle_input_last_event_wins_witness :
  inputs (handle_input (mkGame no_inputs restart open_air)
            ([SDL_KEYDOWN SDLK_a; SDL_QUIT] ++ SDL_KEYUP SDLK_q
               :: [SDL_KEYDOWN SDLK_d; SDL_KEYDOWN SDLK_other]))
         QUIT = false.
Proof.
  refine (proj1 (handle_input_last_event_wins
                   (mkGame no_inputs restart open_air)
                   [SDL_KEYDOWN SDLK_a; SDL_QUIT]
                   [SDL_KEYDOWN SDLK_d; SDL_KEYDOWN SDLK_other]
                   (SDL_KEYUP SDLK_q) QUIT eq_refl _)).
  intros e [<- | [<- | []]]; reflexivity.
Defined.

(** A frame leaves the keys as [handle_input] set them. *)
Lemma frame_inputs (start_time : float) (f : Frame) (l l' : Loop) :
  frame start_time f l = Some l' ->
  inputs (game l') = inputs (handle_input (game l) (events f)).
Proof.
  unfold frame.
  destruct (new_tick_at start_time (clock f)) as [new_tick|]; cbn [bind];
    [|discriminate].
  destruct (for_in _ _ _) as [s|] eqn:E; cbn [bind]; [|discriminate].
  intros H. injection H as <-. cbn [game].
  apply (for_in_invariant
           (fun s : Game * list Z =>
              inputs (fst s) = inputs (handle_input (game l) (events f)))
           (fun tick s => g' <- physics (fst s) ;; Some (g', snd s ++ [tick])))
    with (2 := E).
  - intros tick [g log] s'. cbn [fst snd].
    destruct (physics g) as [g'|] eqn:Ep; cbn [bind]; [|discriminate].
    intros H Hi. injection H as <-. cbn [fst].
    destruct (physics_inv g g' Ep) as (_ & _ & _ & _ & Hg & _).
    congruence.
  - reflexivity.
Qed.

(** X7. The frame in which QUIT comes down is the last one: its events are
    handled and the ticks it owes are run, and no later frame is looked
    at; once QUIT is down at the top of the loop nothing changes any more. *)
Theorem quit_ends_the_loop (start_time : float) (f : Frame)
        (rest : list Frame) (l : Loop) :
  inputs (game l) QUIT = false ->
  inputs (handle_input (game l) (events f)) QUIT = true ->
  main_loop start_time (f :: rest) l = frame start_time f l /\
  (forall frames l',
     inputs (game l') QUIT = true ->
     main_loop start_time frames l' = Some l').
Proof.
  intros H0 H1.
  assert (Stop : forall frames l',
             inputs (game l') QUIT = true ->
             main_loop start_time frames l' = Some l').
  { intros [|f' frames] l' H; cbn [main_loop]; [|rewrite H]; reflexivity. }
  split; [|exact Stop].
  cbn [main_loop]. rewrite H0.
  destruct (frame start_time f l) as [l1|] eqn:E; cbn [bind]; [|reflexivity].
  apply Stop. rewrite (frame_inputs _ _ _ _ E). exact H1.
Qed.

Lemma quit_ends_the_loop_witness :
  main_loop 0 (mkFrame [SDL_QUIT] 0.03125 :: five_frames)
            (mkLoop (mkGame no_inputs restart open_air) 0 [])
  = frame 0 (mkFrame [SDL_QUIT] 0.03125)
          (mkLoop (mkGame no_inputs restart open_air) 0 []).
Proof.
  exact (proj1 (quit_ends_the_loop 0 (mkFrame [SDL_QUIT] 0.03125) five_frames
                  (mkLoop (mkGame no_inputs restart open_air) 0 [])
                  eq_refl eq_refl)).
Defined.

(** X12. The ticks of a frame use the keys without using them up: after a
    frame the inputs are what [handle_input] made of the frame's events,
    however many ticks ran, so a key stays down from frame to frame until
    its key-up event comes; the map is never changed. *)
Theorem frame_keeps_keys (start_time : float) (f : Frame) (l l' : Loop) :
  frame start_time f l = Some l' ->
  inputs (game l') = inputs (handle_input (game l) (events f)) /\
  (events f = [] -> inputs (game l') = inputs (game l)) /\
  map (game l') = map (game l).
Proof.
  intros H. pose proof (frame_inputs _ _ _ _ H) as Hi.
  split; [exact Hi|]. split.
  - intros E. rewrite Hi, E. reflexivity.
  - revert H. unfold frame.
    destruct (new_tick_at start_time (clock f)) as [new_tick|]; cbn [bind];
      [|discriminate].
    destruct (for_in _ _ _) as [s|] eqn:E; cbn [bind]; [|discriminate].
    intros H. injection H as <-. cbn [game].
    apply (for_in_invariant
             (fun s : Game * list Z => map (fst s) = map (game l))
             (fun tick s =>
                g' <- physics (fst s) ;; Some (g', snd s ++ [tick])))
      with (2 := E).
    + intros tick [g log] s'. cbn [fst snd].
      destruct (physics g) as [g'|] eqn:Ep; cbn [bind]; [|discriminate].
      intros H Hm. injection H as <-. cbn [fst].
      destruct (physics_inv g g' Ep) as (_ & _ & _ & _ & _ & Hg).
      congruence.
    + reflexivity.
Qed.

Lemma frame_keeps_keys_witness :
  exists l',
    frame 0 (mkFrame [] 0.046875)
          (mkLoop (mkGame (pressing RIGHT) restart open_air) 0 []) = Some l' /\
    inputs (game l') = pressing RIGHT.
Proof.
  destruct (frame 0 (mkFrame [] 0.046875)
                  (mkLoop (mkGame (pressing RIGHT) restart open_air) 0 []))
    as [l'|] eqn:E; [|vm_compute in E; discriminate E].
  exists l'. split; [reflexivity|].
  exact (proj1 (proj2 (frame_keeps_keys _ _ _ _ E)) eq_refl).
Defined.

(** A frame whose tick is not above the last one only handles its
    events. *)
Lemma frame_no_tick (start_time : float) (f : Frame) (l l' : Loop) :
  frame start_time f l = Some l' ->
  (last_tick l' <= last_tick l)%Z ->
  game l' = handle_input (game l) (events f) /\ ran l' = ran l.
Proof.
  unfold frame.
  destruct (new_tick_at start_time (clock f)) as [new_tick|]; cbn [bind];
    [|discriminate].
  destruct (Z.le_gt_cases new_tick (last_tick l)) as [Hle|Hgt].
  - unfold range.
    replace (Z.to_nat (new_tick - last_tick l)) with 0%nat by lia.
    cbn [seq List.map for_in bind fst snd].
    intros H _. injection H as <-. split; reflexivity.
  - destruct (for_in _ _ _) as [s|]; cbn [bind]; [|discriminate].
    intros H. injection H as <-. cbn [last_tick]. lia.
Qed.

(** X13. The loop trusts the clock: a frame whose tick is not above the
    last one runs no physics and only handles its events, but it moves
    [last_tick] back to the lower tick, so the next frame runs the ticks
    from there again: a tick between the two that was run before is run a
    second time. *)
Theorem clock_back_reruns_ticks (start_time : float) (f2 f3 : Frame)
        (l l2 l3 : Loop) :
  frame start_time f2 l = Some l2 ->
  frame start_time f3 l2 = Some l3 ->
  (last_tick l2 <= last_tick l)%Z ->
  game l2 = handle_input (game l) (events f2) /\
  ran l2 = ran l /\
  ran l3 = ran l ++ range (last_tick l2) (last_tick l3) /\
  (forall t, In t (ran l) ->
             (last_tick l2 <= t < last_tick l3)%Z ->
             exists before after,
               ran l3 = before ++ t :: after /\ In t before).
Proof.
  intros H2 H3 Hle.
  destruct (frame_no_tick _ _ _ _ H2 Hle) as [Hg Hr].
  destruct (frame_runs _ _ _ _ H3) as (new_tick & _ & Hlast & Hlog).
  rewrite Hr, <- Hlast in Hlog.
  split; [exact Hg|]. split; [exact Hr|]. split; [exact Hlog|].
  intros t Hin Ht.
  assert (Hin' : In t (range (last_tick l2) (last_tick l3)))
    by (apply In_range; exact Ht).
  apply in_split in Hin'. destruct Hin' as (r1 & r2 & Er).
  exists (ran l ++ r1), r2. split.
  - rewrite Hlog, Er, <- app_assoc. reflexivity.
  - apply in_or_app. left. exact Hin.
Qed.

Lemma clock_back_reruns_ticks_witness :
  exists l2 l3,
    frame 0 (mkFrame [] 0)
          (mkLoop (mkGame no_inputs restart open_air) 2 [0; 1]%Z) = Some l2 /\
    frame 0 (mkFrame [] 0.046875) l2 = Some l3 /\
    ran l3 = ([0; 1] ++ range 0 2)%Z.
Proof.
  destruct (frame 0 (mkFrame [] 0)
                  (mkLoop (mkGame no_inputs restart open_air) 2 [0; 1]%Z))
    as [l2|] eqn:E2; [|vm_compute in E2; discriminate E2].
  destruct (frame 0 (mkFrame [] 0.046875) l2) as [l3|] eqn:E3.
  - exists l2, l3. split; [reflexivity|]. split; [exact E3|].
    assert (H2 : last_tick l2 = 0%Z)
      by (vm_compute in E2; injection E2 as <-; reflexivity).
    assert (H3 : last_tick l3 = 2%Z).
    { destruct (frame_runs _ _ _ _ E3) as (n & Hn & Hl & _).
      vm_compute in Hn. injection Hn as <-. exact Hl. }
    destruct (clock_back_reruns_ticks 0 _ _ _ l2 l3 E2 E3)
      as (_ & _ & Hlog & _).
    + rewrite H2. cbn [last_tick]. lia.
    + rewrite Hlog, H2, H3. reflexivity.
  - exfalso. vm_compute in E2. injection E2 as <-.
    vm_compute in E3. discriminate E3.
Defined.

(** ** The loaded map: what the file's integers become *)

Lemma read_words_success (max_str_digits : Z) (words : list string)
      (tiles tiles' : list Z) (width width' : Z) :
  read_words max_str_digits words tiles width = inr (tiles', width') ->
  exists values,
    tiles' = tiles ++ values /\
    List.map Some values
    = List.map (int_of_string max_str_digits) (filter is_word words) /\
    width' = (width + Z.of_nat (List.length (filter is_word words)))%Z.
Proof.
  revert tiles width.
  induction words as [|word rest IH]; intros tiles width H.
  - injection H as <- <-. exists []. rewrite app_nil_r.
    repeat split. simpl. lia.
  - destruct word as [|c w].
    + cbn [read_words] in H. destruct (IH _ _ H) as (values & A & B & C).
      exists values. cbn [filter is_word]. auto.
    + cbn [read_words] in H.
      destruct (int_of_string max_str_digits (String c w)) as [value|] eqn:E;
        [|discriminate].
      destruct (IH _ _ H) as (values & A & B & C).
      exists (value :: values). cbn [filter is_word List.map List.length].
      split; [rewrite A, <- app_assoc; reflexivity|].
      split; [rewrite E, B; reflexivity | lia].
Qed.

Lemma read_lines_success (max_str_digits : Z) (lines : list string)
      (m m' : Map) :
  read_lines max_str_digits lines m = inr m' ->
  exists values,
    tiles m' = tiles m ++ values /\
    List.map Some values
    = List.map (int_of_string max_str_digits)
               (List.concat (List.map words_of lines)) /\
    height m' = (height m + Z.of_nat (List.length lines))%Z /\
    width m' = last (counts_of lines) (width m) /\
    widths_ok (counts_of lines) (width m) = true.
Proof.
  revert m. induction lines as [|line rest IH]; intros m H.
  - injection H as <-. exists []. rewrite app_nil_r.
    repeat split. simpl. lia.
  - cbn [read_lines] in H.
    destruct (read_words max_str_digits (split_space line) (tiles m) 0)
      as [e|[tiles1 width1]] eqn:E; [discriminate|].
    destruct (read_words_success _ _ _ _ _ _ E) as (vals & A & B & C).
    fold (words_of line) in B, C. rewrite Z.add_0_l in C.
    destruct ((0 <? width m)%Z && negb (width m =? width1)%Z) eqn:Ew;
      [discriminate|].
    destruct (IH _ H) as (values & A' & B' & C' & D' & E').
    cbn [width height tiles] in A', C', D', E'.
    exists (vals ++ values).
    cbn [List.map List.concat counts_of List.length widths_ok].
    fold (counts_of rest). rewrite <- C, Ew.
    split; [rewrite A', A, app_assoc; reflexivity|].
    split; [rewrite !map_app, B, B'; reflexivity|].
    split; [lia|]. split; [|exact E'].
    rewrite D'. symmetry. apply last_cons.
Qed.

(** The rows of a file that loads all have the width of the map. *)
Lemma loaded_rows (max_str_digits : Z) (text : string) (m : Map) :
  Map_init max_str_digits text = inr m ->
  List.map Some (tiles m)
  = List.map (int_of_string max_str_digits) (List.concat (rows_of text)) /\
  height m = Z.of_nat (List.length (rows_of text)) /\
  (forall row, In row (rows_of text) ->
               Z.of_nat (List.length row) = width m).
Proof.
  unfold Map_init. intros H.
  destruct (read_lines_success _ _ _ _ H) as (values & A & B & C & D & E).
  cbn [width height tiles app] in A, C, D, E.
  rewrite A. split; [exact B|].
  split; [unfold rows_of; rewrite length_map; lia|].
  pose proof (proj1 (widths_ok_uniform _ (rows_all_but_last text)) E) as U.
  assert (Hw : width m = hd 0%Z (counts_of (readlines text))).
  { rewrite D. destruct (counts_of (readlines text)) as [|c cs] eqn:Ec;
      [reflexivity|].
    rewrite last_cons. cbn [hd]. apply uniform_last.
    intros c' Hc'. apply (U c'). right. exact Hc'. }
  intros row Hrow. rewrite Hw. apply U.
  rewrite counts_of_rows.
  apply (in_map (fun row => Z.of_nat (List.length row))). exact Hrow.
Qed.

Lemma concat_uniform_length {A} (rows : list (list A)) (w : nat) :
  (forall row, In row rows -> List.length row = w) ->
  List.length (List.concat rows) = (List.length rows * w)%nat.
Proof.
  induction rows as [|row rest IH]; intros H; [reflexivity|].
  cbn [List.concat List.length]. rewrite length_app, (H row), IH.
  - reflexivity.
  - intros r Hr. apply H. right. exact Hr.
  - left. reflexivity.
Qed.

(** Entry [c] of row [r] is entry [r * w + c] of the rows put end to end. *)
Lemma concat_uniform_nth {A} (rows : list (list A)) (w r c : nat) (d : A) :
  (forall row, In row rows -> List.length row = w) ->
  (r < List.length rows)%nat -> (c < w)%nat ->
  nth_error (List.concat rows) (r * w + c) = Some (nth c (nth r rows []) d).
Proof.
  revert r. induction rows as [|row rest IH]; intros r H Hr Hc;
    [simpl in Hr; lia|].
  assert (Hrow : List.length row = w) by (apply H; left; reflexivity).
  cbn [List.concat]. destruct r as [|r].
  - cbn [nth Nat.mul Nat.add]. rewrite nth_error_app1 by lia.
    apply nth_error_nth'. lia.
  - cbn [nth]. rewrite nth_error_app2 by (rewrite Hrow; simpl; lia).
    replace (S r * w + c - List.length row)%nat with (r * w + c)%nat
      by (rewrite Hrow; simpl; lia).
    apply IH; [intros row' Hr'; apply H; right; exact Hr' | simpl in Hr; lia
              | exact Hc].
Qed.

(** X8. [Map.__init__] keeps the file's integers in reading order, and
    [get_tile] finds them where the file has them: on a map that loaded,
    every point of the 64 by 64 cell in column [c] of row [r] reads the
    [c]-th integer of the [r]-th line of the file. *)
Theorem loaded_tile_lookup (max_str_digits : Z) (text : string) (m : Map)
        (r c dx dy : Z) :
  Map_init max_str_digits text = inr m ->
  (0 <= r < height m)%Z -> (0 <= c < width m)%Z ->
  (64 * width m <= 2 ^ 53)%Z -> (64 * height m <= 2 ^ 53)%Z ->
  (0 <= dx < 64)%Z -> (0 <= dy < 64)%Z ->
  List.map Some (tiles m)
  = List.map (int_of_string max_str_digits) (List.concat (rows_of text)) /\
  exists t,
    get_tile m (64 * c + dx) (64 * r + dy) = Some t /\
    int_of_string max_str_digits
      (nth (Z.to_nat c) (nth (Z.to_nat r) (rows_of text) []) EmptyString)
    = Some t.
Proof.
  intros H Hr Hc Hw Hh Hdx Hdy.
  destruct (loaded_rows max_str_digits text m H) as (Ht & Hheight & Hrows).
  split; [exact Ht|].
  set (rows := rows_of text) in *.
  assert (Hu : forall row, In row rows ->
                           List.length row = Z.to_nat (width m))
    by (intros row Hrow; specialize (Hrows row Hrow); lia).
  pose proof (concat_uniform_nth rows (Z.to_nat (width m)) (Z.to_nat r)
                (Z.to_nat c) EmptyString Hu ltac:(lia) ltac:(lia)) as Hnth.
  pose proof (concat_uniform_length rows _ Hu) as Hlen.
  assert (Hlt : (Z.of_nat (List.length (tiles m)) = width m * height m)%Z).
  { rewrite <- (length_map Some), Ht, length_map, Hlen. nia. }
  unfold get_tile, TILE_WIDTH, TILE_HEIGHT.
  rewrite !tile_cell_exact
    by (apply is_float_int_small; nia).
  cbn [bind].
  replace (Z.quot (64 * c + dx) 64) with c
    by (rewrite Z.quot_div_nonneg by lia;
        Z.to_euclidean_division_equations; lia).
  replace (Z.quot (64 * r + dy) 64) with r
    by (rewrite Z.quot_div_nonneg by lia;
        Z.to_euclidean_division_equations; lia).
  replace (Z.min (Z.max c 0) (width m - 1)) with c by lia.
  replace (Z.min (Z.max r 0) (height m - 1)) with r by lia.
  unfold getitem.
  replace ((0 <=? r * width m + c) && (r * width m + c
             <? Z.of_nat (List.length (tiles m))))%Z with true
    by (symmetry; apply andb_true_iff; split;
        [apply Z.leb_le | apply Z.ltb_lt]; nia).
  replace (Z.to_nat (r * width m + c))
    with (Z.to_nat r * Z.to_nat (width m) + Z.to_nat c)%nat by nia.
  destruct (nth_error (tiles m)
              (Z.to_nat r * Z.to_nat (width m) + Z.to_nat c)) as [t|] eqn:E.
  - exists t. split; [reflexivity|].
    apply (map_nth_error Some) in E. rewrite Ht in E.
    rewrite (map_nth_error (int_of_string max_str_digits) _ _ Hnth) in E.
    injection E as E. exact E.
  - exfalso. apply nth_error_None in E. nia.
Qed.

Lemma loaded_tile_lookup_witness :
  exists t,
    get_tile (mkMap 3 3 [0; 0; 0; 0; 1; 0; 1; 1; 1]%Z)
             (64 * 1 + 5) (64 * 1 + 63) = Some t /\
    int_of_string 4300
      (nth 1 (nth 1 (rows_of (text_of ["0"; " "; "0"; " "; "0"; LF;
                                       "0"; " "; "1"; " "; "0"; LF;
                                       "1"; " "; "1"; " "; "1"; LF]%char))
                    []) EmptyString)
    = Some t.
Proof.
  assert (H : Map_init 4300 (text_of ["0"; " "; "0"; " "; "0"; LF;
                                 "0"; " "; "1"; " "; "0"; LF;
                                 "1"; " "; "1"; " "; "1"; LF]%char)
              = inr (mkMap 3 3 [0; 0; 0; 0; 1; 0; 1; 1; 1]%Z))
    by (vm_compute; reflexivity).
  refine (proj2 (loaded_tile_lookup _ _ _ 1 1 5 63 H _ _ _ _ _ _));
    cbn [width height]; lia.
Defined.

(** X9. A map that loads with at least one tile is a well-formed grid: its
    width and height are at least 1 and it holds width times height tiles;
    so on a loaded map [is_solid] has an answer at every point with finite
    coordinates. *)
Theorem loaded_map_well_formed (max_str_digits : Z) (text : string) (m : Map) :
  Map_init max_str_digits text = inr m -> tiles m <> [] ->
  well_formed m /\
  (forall p, value (x p) <> None -> value (y p) <> None ->
             is_solid m p <> None).
Proof.
  intros H Hne.
  destruct (loaded_rows max_str_digits text m H) as (Ht & Hheight & Hrows).
  assert (Hu : forall row, In row (rows_of text) ->
                           List.length row = Z.to_nat (width m))
    by (intros row Hrow; specialize (Hrows row Hrow); lia).
  pose proof (concat_uniform_length _ _ Hu) as Hlen.
  assert (Hl : List.length (tiles m)
               = (List.length (rows_of text) * Z.to_nat (width m))%nat)
    by (rewrite <- (length_map Some), Ht, length_map; exact Hlen).
  assert (Hpos : (0 < List.length (tiles m))%nat)
    by (destruct (tiles m); [congruence | simpl; lia]).
  assert (W : well_formed m).
  { unfold well_formed. split; [nia|]. split; [nia|]. nia. }
  split; [exact W|]. intros p. apply is_solid_defined. exact W.
Qed.

Lemma loaded_map_well_formed_witness :
  well_formed (mkMap 3 3 [0; 0; 0; 0; 1; 0; 1; 1; 1]%Z).
Proof.
  assert (H : Map_init 4300 (text_of ["0"; " "; "0"; " "; "0"; LF;
                                 "0"; " "; "1"; " "; "0"; LF;
                                 "1"; " "; "1"; " "; "1"; LF]%char)
              = inr (mkMap 3 3 [0; 0; 0; 0; 1; 0; 1; 1; 1]%Z))
    by (vm_compute; reflexivity).
  refine (proj1 (loaded_map_well_formed _ _ _ H _)).
  cbn [tiles]. discriminate.
Defined.

(** X10. An empty file loads, as a map without tiles; on a map without
    tiles every lookup raises (there is no tile to clamp to), so that
    [is_solid] has no answer anywhere and every tick fails. *)
Theorem no_tiles_every_lookup_fails (max_str_digits : Z) (m : Map) :
  tiles m = [] ->
  Map_init max_str_digits EmptyString = inr (mkMap 0 0 []) /\
  (forall px py, get_tile m px py = None) /\
  (forall p, is_solid m p = None) /\
  (forall g, map g = m -> physics g = None).
Proof.
  intros Ht. split; [reflexivity|].
  assert (G : forall px py, get_tile m px py = None).
  { intros px py. unfold get_tile. rewrite Ht.
    destruct (tile_cell px TILE_WIDTH) as [cx|]; cbn [bind]; [|reflexivity].
    destruct (tile_cell py TILE_HEIGHT) as [cy|]; cbn [bind]; [|reflexivity].
    unfold getitem. cbn [List.length Z.of_nat].
    destruct ((0 <=? _) && (_ <? 0))%Z eqn:E1.
    - apply andb_true_iff in E1. destruct E1 as [A B].
      apply Z.leb_le in A. apply Z.ltb_lt in B. lia.
    - destruct ((- 0 <=? _) && (_ <? 0))%Z eqn:E2; [|reflexivity].
      apply andb_true_iff in E2. destruct E2 as [A B].
      apply Z.leb_le in A. apply Z.ltb_lt in B. lia. }
  assert (S : forall p, is_solid m p = None).
  { intros p. unfold is_solid, is_tile_solid.
    destruct (round (x p)) as [rx|]; cbn [bind]; [|reflexivity].
    destruct (round (y p)) as [ry|]; cbn [bind]; [|reflexivity].
    rewrite G. reflexivity. }
  split; [exact G|]. split; [exact S|].
  intros g <-. unfold physics, on_ground. cbv zeta. rewrite S. reflexivity.
Qed.

Lemma no_tiles_every_lookup_fails_witness :
  physics (mkGame no_inputs restart (mkMap 0 0 [])) = None.
Proof.
  exact (proj2 (proj2 (proj2 (no_tiles_every_lookup_fails
                                4300 (mkMap 0 0 []) eq_refl)))
           (mkGame no_inputs restart (mkMap 0 0 [])) eq_refl).
Defined.

(** X15. Whatever the limit on digits, a file loads only if [int] accepts
    every word of it: one word that is no integer literal and the map is
    never built.  A blank line is such a word, since its line feed is a
    word of its own. *)
Theorem bad_word_never_loads (max_str_digits : Z) (text : string) (m : Map) :
  Map_init max_str_digits text = inr m ->
  integers_only max_str_digits text /\
  ~ In (String LF EmptyString) (readlines text).
Proof.
  intros H. destruct (loaded_rows max_str_digits text m H) as (Ht & _ & _).
  assert (Hint : integers_only max_str_digits text).
  { intros row word Hrow Hword C.
    assert (Hin : In (int_of_string max_str_digits word)
                     (List.map (int_of_string max_str_digits) (List.concat (rows_of text)))).
    { apply in_map. apply in_concat. exists row. split; assumption. }
    rewrite <- Ht, C in Hin. apply in_map_iff in Hin.
    destruct Hin as (t & Hc & _). discriminate Hc. }
  split; [exact Hint|].
  intros Hblank.
  apply (Hint (words_of (String LF EmptyString)) (String LF EmptyString)).
  - unfold rows_of. apply in_map. exact Hblank.
  - left. reflexivity.
  - reflexivity.
Qed.

Lemma bad_word_never_loads_witness :
  integers_only 4300 (text_of ["0"; " "; "1"; LF]%char).
Proof.
  assert (H : Map_init 4300 (text_of ["0"; " "; "1"; LF]%char)
              = inr (mkMap 2 1 [0; 1]%Z)) by (vm_compute; reflexivity).
  exact (proj1 (bad_word_never_loads _ _ _ H)).
Defined.

(** ** Floats: the quotient of two ints below 2^53 *)

Section SmallQuotient.
Local Open Scope Z_scope.

(** Where the remainder [r] of a division by [b] lies, as
    [SFdiv_core_binary] records it. *)
Lemma new_location_spec (b r : Z) :
  0 < b -> 0 <= r < b ->
  match new_location b r with
  | loc_Exact => r = 0
  | loc_Inexact Lt => 2 * r < b
  | loc_Inexact Eq => 2 * r = b
  | loc_Inexact Gt => b < 2 * r
  end.
Proof.
  intros Hb Hr. unfold new_location, new_location_even, new_location_odd.
  destruct (Z.even b) eqn:Eb.
  - destruct (Z.eqb_spec r 0) as [E|E]; [exact E|].
    destruct (Z.compare_spec (2 * r) b); lia.
  - destruct (Z.eqb_spec r 0) as [E|E]; [exact E|].
    assert (Ho : Z.odd b = true) by (rewrite <- Z.negb_even, Eb; reflexivity).
    apply Z.odd_spec in Ho. destruct Ho as [k Hk].
    destruct (Z.compare_spec (2 * r + 1) b); lia.
Qed.

Lemma log2_of_bits (q k : Z) :
  0 <= k -> 2 ^ k <= q < 2 ^ (k + 1) -> Z.log2 q = k.
Proof. intros Hk H. apply Z.log2_unique; [lia|]. exact H. Qed.

(** The last step of [binary_round_aux] on a mantissa of 53 bits, or on
    2^53. *)
Lemma second_stage (m1 e1 : Z) :
  2 ^ 52 <= m1 <= 2 ^ 53 -> emin <= e1 -> e1 + 1 <= emax - prec ->
  exists (mf : positive) (e2 : Z),
    shr_fexp prec emax m1 e1 loc_Exact
    = (Build_shr_record (Z.pos mf) false false, e2) /\
    e1 <= e2 /\ e2 <= emax - prec /\ Z.pos mf * 2 ^ (e2 - e1) = m1 /\
    bounded prec emax mf e2 = true.
Proof.
  intros Hm He Hmax.
  assert (Hprec : prec = 53) by reflexivity.
  assert (Hemin : emin = -1074) by reflexivity.
  rewrite shr_fexp_exact by lia.
  destruct (Z.eq_dec m1 (2 ^ 53)) as [->|Hne].
  - assert (Hs : shift_of (2 ^ 53) e1 = 1).
    { unfold shift_of, fexp. change (Zdigits2 (2 ^ 53)) with 54. lia. }
    rewrite Hs. cbn [Z.leb Z.compare Z.to_nat Pos.to_nat Pos.iter_op Nat.add].
    exists (4503599627370496%positive), (e1 + 1).
    split; [reflexivity|]. split; [lia|]. split; [lia|].
    split; [replace (e1 + 1 - e1) with 1 by lia; reflexivity|].
    unfold bounded, canonical_mantissa. apply andb_true_iff.
    change (Z.pos (digits2_pos 4503599627370496)) with 53.
    split; [apply Z.eqb_eq; unfold fexp; lia | apply Z.leb_le; lia].
  - assert (HL : Z.log2 m1 = 52) by (apply log2_of_bits; lia).
    assert (Hs : shift_of m1 e1 = 0).
    { unfold shift_of, fexp. rewrite Zdigits2_log2, HL by lia. lia. }
    rewrite Hs. cbn [Z.leb Z.compare].
    destruct m1 as [|mf|mf]; try lia.
    exists mf, e1. split; [reflexivity|]. split; [lia|]. split; [lia|].
    split; [rewrite Z.sub_diag; lia|].
    unfold bounded, canonical_mantissa. apply andb_true_iff.
    change (Z.pos (digits2_pos mf)) with (Zdigits2 (Z.pos mf)).
    rewrite Zdigits2_log2, HL by lia.
    split; [apply Z.eqb_eq; unfold fexp; lia | apply Z.leb_le; lia].
Qed.

(** [binary_round_aux] on a quotient of 53 or 54 bits and the place of the
    remainder: the mantissa is kept, or halved, and goes up by one at most,
    and only from the upper half. *)
Lemma binary_round_aux_quotient (sx : bool) (q e : Z) (l : location) :
  2 ^ 52 <= q < 2 ^ 54 -> emin <= e -> e + 2 <= emax - prec ->
  exists (mf : positive) (ef E m1 : Z),
    binary_round_aux prec emax sx q e l = S754_finite sx mf ef /\
    bounded prec emax mf ef = true /\
    E <= ef /\ Z.pos mf * 2 ^ (ef - E) = m1 /\
    (q < 2 ^ 53 ->
     E = e /\ q <= m1 <= q + 1 /\
     (m1 = q + 1 -> l = loc_Inexact Eq \/ l = loc_Inexact Gt)) /\
    (2 ^ 53 <= q ->
     E = e + 1 /\ q / 2 <= m1 <= q / 2 + 1 /\
     (m1 = q / 2 + 1 -> Z.odd q = true)).
Proof.
  intros Hq He Hmax.
  assert (Hprec : prec = 53) by reflexivity.
  assert (Hemin : emin = -1074) by reflexivity.
  unfold binary_round_aux.
  destruct (Z.lt_ge_cases q (2 ^ 53)) as [Hlt|Hge].
  - (* 53 bits: no shift *)
    assert (HL : Z.log2 q = 52) by (apply log2_of_bits; lia).
    assert (Hs : fexp prec emax (Zdigits2 q + e) - e = 0)
      by (unfold fexp; rewrite Zdigits2_log2, HL by lia; lia).
    unfold shr_fexp at 1. rewrite Hs. cbn [shr].
    set (m1 := round_nearest_even (shr_m (shr_record_of_loc q l))
                 (loc_of_shr_record (shr_record_of_loc q l))).
    assert (Hm1 : q <= m1 <= q + 1 /\
                  (m1 = q + 1 -> l = loc_Inexact Eq \/ l = loc_Inexact Gt)).
    { unfold m1. destruct l as [|[| |]];
        cbn [shr_record_of_loc shr_m loc_of_shr_record round_nearest_even];
        try destruct (Z.even q); split; try lia; auto; intros; lia. }
    destruct (second_stage m1 e ltac:(lia) He ltac:(lia))
      as (mf & e2 & Hsh & He2 & Hmax2 & Hv & Hb).
    rewrite Hsh. cbn [shr_m].
    replace (e2 <=? emax - prec) with true by (symmetry; apply Z.leb_le; lia).
    exists mf, e2, e, m1. split; [reflexivity|]. split; [exact Hb|].
    split; [exact He2|]. split; [exact Hv|].
    split; [intros _; split; [reflexivity | exact Hm1] | intros; lia].
  - (* 54 bits: shifted by one *)
    assert (HL : Z.log2 q = 53) by (apply log2_of_bits; lia).
    assert (Hs : fexp prec emax (Zdigits2 q + e) - e = 1)
      by (unfold fexp; rewrite Zdigits2_log2, HL by lia; lia).
    unfold shr_fexp at 1. rewrite Hs. cbn [shr iter_pos].
    set (m1 := round_nearest_even
                 (shr_m (shr_1 (shr_record_of_loc q l)))
                 (loc_of_shr_record (shr_1 (shr_record_of_loc q l)))).
    assert (Hm1 : q / 2 <= m1 <= q / 2 + 1 /\
                  (m1 = q / 2 + 1 -> Z.odd q = true)).
    { unfold m1. destruct q as [|p|p]; try lia.
      destruct p as [p|p|].
      - replace (Z.pos p~1 / 2) with (Z.pos p)
          by (rewrite Pos2Z.inj_xI; Z.to_euclidean_division_equations; lia).
        destruct l as [|[| |]];
          cbn [shr_record_of_loc shr_1 shr_m loc_of_shr_record
               round_nearest_even orb];
          try destruct (Z.even (Z.pos p)); split; try lia; auto.
      - replace (Z.pos p~0 / 2) with (Z.pos p)
          by (rewrite Pos2Z.inj_xO; Z.to_euclidean_division_equations; lia).
        destruct l as [|[| |]];
          cbn [shr_record_of_loc shr_1 shr_m loc_of_shr_record
               round_nearest_even orb];
          split; try lia; intros; lia.
      - simpl in Hge. lia. }
    assert (Hq2 : 2 ^ 52 <= q / 2 < 2 ^ 53)
      by (Z.to_euclidean_division_equations; lia).
    destruct (second_stage m1 (e + 1) ltac:(lia) ltac:(lia) ltac:(lia))
      as (mf & e2 & Hsh & He2 & Hmax2 & Hv & Hb).
    rewrite Hsh. cbn [shr_m].
    replace (e2 <=? emax - prec) with true by (symmetry; apply Z.leb_le; lia).
    exists mf, e2, (e + 1), m1. split; [reflexivity|]. split; [exact Hb|].
    split; [exact He2|]. split; [exact Hv|].
    split; [intros; lia | intros _; split; [reflexivity | exact Hm1]].
Qed.


(** What the division of two positive ints below 2^53 hands to the
    rounding: a quotient of 53 or 54 bits. *)
Lemma SFdiv_core_small (a b : Z) :
  0 < a < 2 ^ 53 -> 0 < b < 2 ^ 53 ->
  let s := 53 + Z.log2 b - Z.log2 a in
  SFdiv_core_binary prec emax a 0 b 0
  = (a * 2 ^ s / b, - s, new_location b ((a * 2 ^ s) mod b)) /\
  1 <= s /\ Z.log2 b + 1 <= s /\
  2 ^ 52 <= a * 2 ^ s / b < 2 ^ 54.
Proof.
  intros Ha Hb. cbv zeta.
  assert (Hprec : prec = 53) by reflexivity.
  assert (Hemin : emin = -1074) by reflexivity.
  pose proof (Z.log2_nonneg a) as HLa0. pose proof (Z.log2_nonneg b) as HLb0.
  assert (HLa : Z.log2 a < 53) by (apply Z.log2_lt_pow2; lia).
  assert (HLb : Z.log2 b < 53) by (apply Z.log2_lt_pow2; lia).
  pose proof (Z.log2_spec a ltac:(lia)) as Sa.
  pose proof (Z.log2_spec b ltac:(lia)) as Sb.
  set (s := 53 + Z.log2 b - Z.log2 a).
  assert (Hs : 1 <= s) by (unfold s; lia).
  split; [|split; [exact Hs|split; [unfold s; lia|]]].
  - unfold SFdiv_core_binary. rewrite !Zdigits2_log2 by lia.
    replace (Z.min (fexp prec emax (Z.log2 a + 1 + 0 - (Z.log2 b + 1 + 0)))
                   (0 - 0)) with (- s) by (unfold fexp, s; lia).
    replace (0 - 0 - - s) with s by lia.
    assert (Hm : match s with
                 | Z.pos _ => Z.shiftl a s
                 | 0 => a
                 | Z.neg _ => 0
                 end = a * 2 ^ s).
    { destruct s as [|p|p] eqn:Es; try lia.
      rewrite Z.shiftl_mul_pow2 by lia. reflexivity. }
    rewrite Hm. unfold Z.modulo, Z.div.
    destruct (Z.div_eucl (a * 2 ^ s) b) as [q r]. reflexivity.
  - assert (E1 : 2 ^ (Z.log2 a) * 2 ^ s = 2 ^ 52 * 2 ^ Z.succ (Z.log2 b)).
    { rewrite <- !Z.pow_add_r by lia. f_equal. unfold s. lia. }
    assert (E2 : 2 ^ Z.succ (Z.log2 a) * 2 ^ s = 2 ^ 54 * 2 ^ Z.log2 b).
    { rewrite <- !Z.pow_add_r by lia. f_equal. unfold s. lia. }
    assert (Hp : 0 < 2 ^ s) by (apply Z.pow_pos_nonneg; lia).
    split.
    + apply Z.div_le_lower_bound; [lia|]. nia.
    + apply Z.div_lt_upper_bound; [lia|]. nia.
Qed.

(** Rounding to a neighbour, upward only from the upper half, does not
    reach the next integer when the divisor is below twice the scale. *)
Lemma floor_of_rounded (a b T M0 rho m1 : Z) :
  0 < b -> 0 < T -> 0 <= a ->
  a * T = M0 * b + rho -> 0 <= rho < b ->
  M0 <= m1 <= M0 + 1 -> (m1 = M0 + 1 -> b <= 2 * rho) ->
  b < 2 * T ->
  m1 / T = a / b.
Proof.
  intros Hb HT Ha Hdiv Hrho Hm1 Hup HbT.
  pose proof (Z.div_mod a b ltac:(lia)) as Hab.
  pose proof (Z.mod_pos_bound a b Hb) as Hr0.
  set (n0 := a / b) in *. set (r0 := a mod b) in *.
  assert (Hlo : n0 * T <= M0) by nia.
  assert (Hhi : M0 < (n0 + 1) * T) by nia.
  assert (Hhi1 : m1 < (n0 + 1) * T).
  { destruct (Z.eq_dec m1 (M0 + 1)) as [E|NE]; [|lia].
    specialize (Hup E).
    destruct (Z.eq_dec (M0 + 1) ((n0 + 1) * T)) as [E2|NE2]; [|lia].
    exfalso.
    assert ((b - r0) * T = b - rho) by nia.
    assert (1 <= b - r0) by lia. nia. }
  symmetry. apply (Z.div_unique m1 T n0 (m1 - n0 * T)); [lia | nia].
Qed.

(** [int(a / b)] for two positive ints below 2^53 is the quotient [a // b]
    of the division with remainder. *)
Lemma int_truediv_small (sx : bool) (a b : Z) :
  0 < a < 2 ^ 53 -> 0 < b < 2 ^ 53 ->
  exists (mf : positive) (ef : Z),
    (let '(q, e, l) := SFdiv_core_binary prec emax a 0 b 0 in
     binary_round_aux prec emax sx q e l) = S754_finite sx mf ef /\
    bounded prec emax mf ef = true /\
    truncate (inject_Z (Z.pos mf) * Qpower 2 ef) = a / b.
Proof.
  intros Ha Hb.
  assert (Hprec : prec = 53) by reflexivity.
  assert (Hemin : emin = -1074) by reflexivity.
  assert (Hemax : emax = 1024) by reflexivity.
  destruct (SFdiv_core_small a b Ha Hb) as (Hcore & Hs & HsL & Hq).
  cbv zeta in Hcore, Hs, HsL, Hq.
  pose proof (Z.log2_nonneg a) as HLa0. pose proof (Z.log2_nonneg b) as HLb0.
  assert (HLb : Z.log2 b < 53) by (apply Z.log2_lt_pow2; lia).
  pose proof (Z.log2_spec b ltac:(lia)) as Sb.
  set (s := 53 + Z.log2 b - Z.log2 a) in *.
  rewrite Hcore.
  set (q := a * 2 ^ s / b) in *. set (r := (a * 2 ^ s) mod b) in *.
  pose proof (Z.div_mod (a * 2 ^ s) b ltac:(lia)) as Hdm.
  pose proof (Z.mod_pos_bound (a * 2 ^ s) b ltac:(lia)) as Hr.
  fold q r in Hdm, Hr.
  pose proof (new_location_spec b r ltac:(lia) Hr) as Hloc.
  destruct (binary_round_aux_quotient sx q (- s) (new_location b r)
              Hq ltac:(lia) ltac:(lia))
    as (mf & ef & E & m1 & Hround & Hbound & HE & Hv & H53 & H54).
  exists mf, ef. split; [exact Hround|]. split; [exact Hbound|].
  assert (HE0 : E <= 0 /\ Z.log2 b <= - E /\ 0 <= - E).
  { destruct (Z.lt_ge_cases q (2 ^ 53)) as [Hlt|Hge];
      [destruct (H53 Hlt) as (-> & _) | destruct (H54 Hge) as (-> & _)]; lia. }
  rewrite (truncate_scaled mf ef (- E)) by lia.
  replace (ef + - E) with (ef - E) by lia. rewrite Hv.
  assert (HT : 0 < 2 ^ (- E)) by (apply Z.pow_pos_nonneg; lia).
  assert (HbT : b < 2 * 2 ^ (- E)).
  { apply Z.lt_le_trans with (2 ^ Z.succ (Z.log2 b)); [lia|].
    rewrite Z.pow_succ_r by lia.
    apply Z.mul_le_mono_nonneg_l; [lia|].
    apply Z.pow_le_mono_r; lia. }
  destruct (Z.lt_ge_cases q (2 ^ 53)) as [Hlt|Hge].
  - destruct (H53 Hlt) as (HEe & Hm1 & Hup). subst E.
    replace (- - s) with s in * by lia.
    apply (floor_of_rounded a b (2 ^ s) q r m1); try lia.
    intros Hm. destruct (Hup Hm) as [El|El]; rewrite El in Hloc; lia.
  - destruct (H54 Hge) as (HEe & Hm1 & Hup). subst E.
    replace (- (- s + 1)) with (s - 1) in * by lia.
    assert (Hpow : 2 ^ s = 2 * 2 ^ (s - 1)).
    { replace s with (Z.succ (s - 1)) at 1 by lia.
      apply Z.pow_succ_r. lia. }
    pose proof (Z.div_mod q 2 ltac:(lia)) as Hq2.
    pose proof (Z.mod_pos_bound q 2 ltac:(lia)) as Ho.
    rewrite Zodd_mod in Hup.
    set (o := q mod 2) in *. set (h := q / 2) in *.
    set (T := 2 ^ (s - 1)) in *.
    assert (Hcases : o = 0 \/ o = 1) by lia.
    assert (HaT : 2 * (a * T) = 2 * (h * b) + (o * b + r)).
    { clear - Hdm Hpow Hq2. rewrite Hpow in Hdm. rewrite Hq2 in Hdm. lia. }
    apply (floor_of_rounded a b T h (a * T - h * b) m1); try lia.
    all: destruct Hcases as [Eo|Eo]; rewrite Eo in HaT; lia.
Qed.

End SmallQuotient.

(** [int(a / b)] truncates the quotient toward zero whenever [a] is below
    2^53 in magnitude and [b] is a positive int below 2^53. *)
Lemma tile_cell_quot (a b : Z) :
  (Z.abs a < 2 ^ 53)%Z -> (0 < b < 2 ^ 53)%Z ->
  tile_cell a b = Some (Z.quot a b).
Proof.
  intros Ha Hb. unfold tile_cell, int_truediv.
  replace (b =? 0)%Z with false by (symmetry; apply Z.eqb_neq; lia).
  replace (b <? 0)%Z with false by (symmetry; apply Z.ltb_ge; lia).
  rewrite xorb_false_r, (Z.abs_eq b) by lia.
  destruct (Z.eqb_spec a 0) as [->|Hne].
  - cbn [bind]. rewrite Z.quot_0_l by lia. reflexivity.
  - destruct (int_truediv_small (a <? 0)%Z (Z.abs a) b ltac:(lia) Hb)
      as (mf & ef & Hr & Hbd & Ht).
    revert Hr.
    destruct (SFdiv_core_binary prec emax (Z.abs a) 0 b 0) as [[q e] l].
    intros ->. cbn [bind]. unfold int, value.
    rewrite Prim2SF_SF2Prim by exact Hbd. cbn [SF2Q option_map]. f_equal.
    rewrite Z.quot_div by lia. rewrite (Z.sgn_pos b), (Z.abs_eq b) by lia.
    destruct (Z.ltb_spec a 0) as [Hneg|Hpos]; cbn [cond_Zopp].
    + replace (truncate (inject_Z (- Z.pos mf) * Qpower 2 ef))
        with (- truncate (inject_Z (Z.pos mf) * Qpower 2 ef))%Z.
      * rewrite Ht, Z.sgn_neg by lia. lia.
      * unfold truncate, Qmult, inject_Z. cbn [Qnum Qden].
        rewrite Z.mul_opp_l, Z.quot_opp_l by lia. reflexivity.
    + rewrite Ht, Z.sgn_pos by lia. lia.
Qed.

(** ** Drawing the map: where [render_map] puts each tile *)

Lemma In_enumerate {A} (l : list A) (start i : Z) (a : A) :
  In (i, a) (enumerate start l) <->
  (start <= i)%Z /\ nth_error l (Z.to_nat (i - start)) = Some a.
Proof.
  revert start. induction l as [|b rest IH]; intros start; cbn [enumerate In].
  - split; [intros [] | intros [_ H]]. destruct (Z.to_nat (i - start));
      discriminate H.
  - rewrite IH. split.
    + intros [E|[Hle Hn]].
      * injection E as <- <-. rewrite Z.sub_diag. split; [lia | reflexivity].
      * split; [lia|].
        replace (Z.to_nat (i - start)) with (S (Z.to_nat (i - (start + 1))))
          by lia.
        exact Hn.
    + intros [Hle Hn]. destruct (Z.eq_dec i start) as [->|Hne].
      * rewrite Z.sub_diag in Hn. injection Hn as <-. left. reflexivity.
      * right. split; [lia|].
        replace (Z.to_nat (i - start)) with (S (Z.to_nat (i - (start + 1))))
          in Hn by lia.
        exact Hn.
Qed.

(** The copy [render_map] makes for the tile [tile_nr] at index [i]. *)
Lemma render_tile_copy (m : Map) (i tile_nr : Z)
      (copies : list (Rect * Rect)) :
  (1 <= width m < 2 ^ 53)%Z -> (0 <= i < 2 ^ 53)%Z ->
  (Z.abs tile_nr < 2 ^ 53)%Z ->
  render_tile m (i, tile_nr) copies
  = Some (copies
          ++ if (tile_nr =? 0)%Z then []
             else [(mkRect (tile_nr mod 16 * 64) (Z.quot tile_nr 16 * 64)
                           64 64,
                    mkRect (i mod width m * 64) (i / width m * 64) 64 64)]).
Proof.
  intros Hw Hi Ht. unfold render_tile.
  destruct (tile_nr =? 0)%Z; [rewrite app_nil_r; reflexivity|].
  unfold int_mod, TILES_PER_ROW, TILE_WIDTH, TILE_HEIGHT.
  change (16 =? 0)%Z with false. cbn [bind].
  rewrite (tile_cell_quot tile_nr 16 Ht) by (split; reflexivity).
  cbn [bind].
  replace (width m =? 0)%Z with false by (symmetry; apply Z.eqb_neq; lia).
  cbn [bind].
  rewrite (tile_cell_quot i (width m)) by lia. cbn [bind].
  rewrite (Z.quot_div_nonneg i (width m)) by lia. reflexivity.
Qed.

Lemma render_loop (m : Map) (items : list (Z * Z))
      (copies : list (Rect * Rect)) :
  (1 <= width m < 2 ^ 53)%Z ->
  (forall i t, In (i, t) items ->
               (0 <= i < 2 ^ 53)%Z /\ (Z.abs t < 2 ^ 53)%Z) ->
  for_in items (render_tile m) copies
  = Some (copies
          ++ flat_map
               (fun '(i, t) =>
                  if (t =? 0)%Z then []
                  else [(mkRect (t mod 16 * 64) (Z.quot t 16 * 64) 64 64,
                         mkRect (i mod width m * 64) (i / width m * 64)
                                64 64)])
               items).
Proof.
  intros Hw. revert copies.
  induction items as [|[i t] rest IH]; intros copies H; cbn [for_in flat_map].
  - rewrite app_nil_r. reflexivity.
  - destruct (H i t (or_introl eq_refl)) as [Hi Ht].
    rewrite (render_tile_copy m i t copies Hw Hi Ht). cbn [bind].
    rewrite IH by (intros i' t' Hin; apply H; right; exact Hin).
    rewrite <- app_assoc. reflexivity.
Qed.

(** X11. [render_map] draws every tile but the 0 tiles, once each, in the
    cell where [get_tile] finds it: the destination of each copy is the
    64 by 64 square at column [i mod width], row [i // width] of the tile's
    index [i], and a lookup at its corner reads the tile that was drawn. *)
Theorem render_map_draws_where_get_tile_reads (m : Map) :
  well_formed m ->
  (64 * (width m * height m) <= 2 ^ 53)%Z ->
  (forall t, In t (tiles m) -> (Z.abs t < 2 ^ 53)%Z) ->
  exists copies,
    render_map m = Some copies /\
    (forall i t,
       nth_error (tiles m) i = Some t -> t <> 0%Z ->
       exists clip,
         In (clip, mkRect (Z.of_nat i mod width m * 64)
                          (Z.of_nat i / width m * 64) 64 64) copies) /\
    (forall clip dest,
       In (clip, dest) copies ->
       rect_w dest = 64%Z /\ rect_h dest = 64%Z /\
       exists t,
         t <> 0%Z /\
         get_tile m (rect_x dest) (rect_y dest) = Some t /\
         clip = mkRect (t mod 16 * 64) (Z.quot t 16 * 64) 64 64) /\
    List.length copies
    = List.length (filter (fun t => negb (t =? 0)%Z) (tiles m)).
Proof.
  intros (Hw & Hh & Hlen) Hsize Hsmall.
  assert (Hwb : (1 <= width m < 2 ^ 53)%Z) by nia.
  assert (Hitems : forall i t, In (i, t) (enumerate 0 (tiles m)) ->
                     (0 <= i < width m * height m)%Z /\
                     nth_error (tiles m) (Z.to_nat i) = Some t).
  { intros i t Hin. apply In_enumerate in Hin. destruct Hin as [Hi Hn].
    rewrite Z.sub_0_r in Hn. split; [|exact Hn].
    assert (Z.to_nat i < List.length (tiles m))%nat
      by (apply nth_error_Some; congruence).
    lia. }
  unfold render_map. rewrite (render_loop m _ [] Hwb).
  2:{ intros i t Hin. destruct (Hitems i t Hin) as [Hi Hn].
      split; [nia|]. apply Hsmall. apply (nth_error_In _ _ Hn). }
  cbn [app]. eexists. split; [reflexivity|]. split; [|split].
  - intros i t Hn Hne. eexists. apply in_flat_map.
    exists (Z.of_nat i, t). split.
    + apply In_enumerate. rewrite Z.sub_0_r, Nat2Z.id. split; [lia | exact Hn].
    + replace (t =? 0)%Z with false by (symmetry; apply Z.eqb_neq; exact Hne).
      left. reflexivity.
  - intros clip dest Hin. apply in_flat_map in Hin.
    destruct Hin as ([i t] & Hit & Hc).
    destruct (Z.eqb_spec t 0) as [E|Hne]; [destruct Hc|].
    destruct Hc as [Hc|[]]. injection Hc as <- <-.
    cbn [rect_x rect_y rect_w rect_h].
    split; [reflexivity|]. split; [reflexivity|].
    exists t. split; [exact Hne|]. split; [|reflexivity].
    destruct (Hitems i t Hit) as [Hi Hn].
    pose proof (Z.mod_pos_bound i (width m) ltac:(lia)) as Hcol.
    pose proof (Z.div_mod i (width m) ltac:(lia)) as Hdm.
    assert (Hrow : (0 <= i / width m < height m)%Z).
    { split; [apply Z.div_pos; lia|].
      apply Z.div_lt_upper_bound; lia. }
    unfold get_tile, TILE_WIDTH, TILE_HEIGHT.
    rewrite !tile_cell_exact by (apply is_float_int_small; nia).
    cbn [bind]. rewrite !Z.quot_mul by lia.
    replace (Z.min (Z.max (i mod width m) 0) (width m - 1))
      with (i mod width m)%Z by lia.
    replace (Z.min (Z.max (i / width m) 0) (height m - 1))
      with (i / width m)%Z by lia.
    replace (i / width m * width m + i mod width m)%Z with i by lia.
    unfold getitem.
    replace ((0 <=? i) && (i <? Z.of_nat (List.length (tiles m))))%Z
      with true
      by (symmetry; apply andb_true_iff; split;
          [apply Z.leb_le | apply Z.ltb_lt]; lia).
    exact Hn.
  - match goal with
    | |- List.length (flat_map ?F _) = _ => set (copy := F)
    end.
    assert (L : forall l start,
               List.length (flat_map copy (enumerate start l))
               = List.length (filter (fun t => negb (t =? 0)%Z) l)).
    { induction l as [|t rest IH]; intros start; [reflexivity|].
      cbn [enumerate flat_map filter]. rewrite length_app, IH.
      unfold copy. destruct (t =? 0)%Z; reflexivity. }
    apply L.
Qed.

Lemma render_map_draws_where_get_tile_reads_witness :
  exists copies,
    render_map (mkMap 3 3 [0; 0; 0; 0; 1; 0; 1; 1; 1]%Z) = Some copies /\
    List.length copies = 4%nat.
Proof.
  destruct (render_map_draws_where_get_tile_reads
              (mkMap 3 3 [0; 0; 0; 0; 1; 0; 1; 1; 1]%Z))
    as (copies & H & _ & _ & L).
  - unfold well_formed. cbn [width height tiles List.length]. lia.
  - cbn [width height]. lia.
  - cbn [tiles]. intros t Hin.
    repeat (destruct Hin as [<- | Hin]; [reflexivity|]). destruct Hin.
  - exists copies. split; [exact H | exact L].
Defined.

(** ** tilemap.py: [move_box] as a whole *)

(** X16. tilemap.py's [move_box] keeps a clear box clear, whatever basic2d
    computes: from a position whose box touches no solid tile, the
    position it returns is again one whose box touches no solid tile, and
    so is every position its loop commits on the way. *)
Theorem tilemap_move_box_keeps_clear {basic2d : tilemap.Basic2d}
        (m : Map) (pos vel size : Point2d) :
  tilemap.test_box m pos size = Some false ->
  (forall (fraction : float) (items : list Z) (s : Point2d * Vector2d),
     for_in items (fun _ => tilemap.move_step m size fraction) (pos, vel)
     = Some s ->
     tilemap.test_box m (fst s) size = Some false) /\
  (forall pos' vel',
     tilemap.move_box m pos vel size = Some (pos', vel') ->
     tilemap.test_box m pos' size = Some false).
Proof.
  intros Hclear. split.
  - intros fraction items s H.
    apply (tilemap_move_loop_keeps_clear m size fraction items (pos, vel) s
             Hclear H).
  - intros pos' vel'. unfold tilemap.move_box. cbv zeta.
    destruct (int (tilemap.norm vel)) as [maximum|]; cbn [bind];
      [|discriminate].
    destruct (PrimFloat.ltb (tilemap.norm vel) 0).
    + intros H. injection H as <- _. exact Hclear.
    + destruct (float_of_int (maximum + 1)) as [d|]; cbn [bind];
        [|discriminate].
      destruct (truediv 1 d) as [fraction|]; cbn [bind]; [|discriminate].
      intros H.
      apply (tilemap_move_loop_keeps_clear m size fraction _ (pos, vel) _
               Hclear H).
Qed.

Lemma tilemap_move_box_keeps_clear_witness :
  tilemap.test_box (basic2d := plat_vectors)
                   wall (mkPoint2d 58.5 20) (mkPoint2d 8 8) = Some false /\
  exists pos' vel',
    tilemap.move_box (basic2d := plat_vectors)
                     wall (mkPoint2d 58.5 20) (mkPoint2d 3 0.5) (mkPoint2d 8 8)
    = Some (pos', vel') /\
    tilemap.test_box (basic2d := plat_vectors) wall pos' (mkPoint2d 8 8)
    = Some false.
Proof.
  assert (H : tilemap.test_box (basic2d := plat_vectors)
                wall (mkPoint2d 58.5 20) (mkPoint2d 8 8) = Some false)
    by (vm_compute; reflexivity).
  split; [exact H|].
  destruct (tilemap.move_box (basic2d := plat_vectors) wall
              (mkPoint2d 58.5 20) (mkPoint2d 3 0.5) (mkPoint2d 8 8))
    as [[pos' vel']|] eqn:E; [|vm_compute in E; discriminate E].
  exists pos', vel'. split; [reflexivity|].
  exact (proj2 (tilemap_move_box_keeps_clear wall (mkPoint2d 58.5 20)
                  (mkPoint2d 3 0.5) (mkPoint2d 8 8) H) pos' vel' E).
Defined.

(** X17. On the vectors of plat.py the two [move_box] move the body alike:
    tilemap.py's returns the position and the velocity that plat.py's
    returns, and leaves out the collision set. *)
Theorem tilemap_move_box_leaves_out_collisions (m : Map) (pos vel size : Point2d) :
  tilemap.move_box (basic2d := plat_vectors) m pos vel size
  = match move_box m pos vel size with
    | Some (Moved _ pos' vel') => Some (pos', vel')
    | Some (Bare _) => Some (pos, vel)
    | None => None
    end.
Proof.
  unfold tilemap.move_box, move_box. cbv zeta.
  change (@tilemap.norm plat_vectors) with Point2d_len.
  destruct (int (Point2d_len vel)) as [maximum|]; cbn [bind]; [|reflexivity].
  destruct (PrimFloat.ltb (Point2d_len vel) 0); [reflexivity|].
  destruct (float_of_int (maximum + 1)) as [d|]; cbn [bind]; [|reflexivity].
  destruct (truediv 1 d) as [fraction|]; cbn [bind]; [|reflexivity].
  rewrite (tilemap_move_loop_forgets m size fraction _
             (mkSweep (empty_set Collision) pos vel)).
  destruct (for_in _ _ _) as [s|]; reflexivity.
Qed.

(** X18. tilemap.py's [test_box] looks at the four points
    [pos ± half_size], where [half_size] is what basic2d makes of
    [size * 0.5]: it reports a collision as soon as one of them is solid,
    no collision iff none is, and has an answer whenever [is_solid] has one
    at the four points; on the vectors of plat.py it is plat.py's
    [test_box]. *)
Theorem tilemap_test_box_corners {basic2d : tilemap.Basic2d}
        (m : Map) (pos size : Point2d) :
  (tilemap.test_box m pos size = Some true ->
   exists p, In p (tilemap_box_corners pos size) /\ is_solid m p = Some true) /\
  (tilemap.test_box m pos size = Some false <->
   forall p, In p (tilemap_box_corners pos size) -> is_solid m p = Some false) /\
  ((forall p, In p (tilemap_box_corners pos size) -> is_solid m p <> None) ->
   (exists p, In p (tilemap_box_corners pos size) /\ is_solid m p = Some true) ->
   tilemap.test_box m pos size = Some true) /\
  tilemap.test_box (basic2d := plat_vectors) m pos size = test_box m pos size.
Proof.
  assert (F : tilemap.test_box m pos size = Some false <->
              forall p, In p (tilemap_box_corners pos size) ->
                        is_solid m p = Some false).
  { unfold tilemap.test_box, tilemap_box_corners. cbv zeta. split.
    - intros H p Hp.
      apply or_else_false in H. destruct H as [H1 H].
      apply or_else_false in H. destruct H as [H2 H].
      apply or_else_false in H. destruct H as [H3 H4].
      simpl in Hp. destruct Hp as [<- | [<- | [<- | [<- | []]]]]; assumption.
    - intros H.
      repeat (apply or_else_false; split); apply H; simpl; tauto. }
  split; [|split; [exact F|split; [|reflexivity]]].
  - unfold tilemap.test_box, tilemap_box_corners. cbv zeta. intros H.
    repeat (apply or_else_true in H; destruct H as [H | [_ H]];
            [eexists; split; [|exact H]; simpl; tauto |]).
    eexists; split; [|exact H]; simpl; tauto.
  - intros Hdef (p & Hp & Hs).
    assert (D : tilemap.test_box m pos size <> None).
    { unfold tilemap.test_box. cbv zeta.
      assert (K : forall a b, a <> None -> b <> None -> or_else a b <> None).
      { intros a b Ha Hb. destruct (or_else_defined a b Ha Hb) as [r ->].
        discriminate. }
      repeat apply K; apply Hdef; unfold tilemap_box_corners; simpl; tauto. }
    destruct (tilemap.test_box m pos size) as [[|]|] eqn:E;
      [reflexivity | | congruence].
    rewrite (proj1 F eq_refl p Hp) in Hs. discriminate.
Qed.

Lemma tilemap_test_box_corners_witness :
  tilemap.test_box (basic2d := plat_vectors)
                   (mkMap 2 1 [0; 1]%Z) (mkPoint2d 40 32) PLAYER_SIZE
  = Some true.
Proof.
  destruct (tilemap_test_box_corners (basic2d := plat_vectors)
              (mkMap 2 1 [0; 1]%Z) (mkPoint2d 40 32) PLAYER_SIZE)
    as (_ & _ & Hcollides & _).
  apply Hcollides.
  - intros p [<- | [<- | [<- | [<- | []]]]]; vm_compute; discriminate.
  - exists (mkPoint2d 72 0).
    split; [right; left; reflexivity | vm_compute; reflexivity].
Defined.
